(** * superagent-lite: the request execution engine

    A shallow embedding of [Request.execute], [Request.doFetch] and the
    response shortcuts of [src/request.ts], with the error classes of
    [src/errors.ts] and the [Response] envelope of [src/response.ts].

    Asynchronous code is sequential here: every [await] is a plain call.
    The engine runs in a state monad that keeps its state when an error is
    thrown, as JavaScript does.  The state holds the request object
    ([this]), the state of the outside world that hooks and the transport
    may read and change, the timers that are armed, and a trace of the
    calls the engine made.

    Numbers are integers.  A cancellation, whether it comes from the
    timeout timer, from the external signal or from [abort()], is seen
    where the engine sees it: the transport rejects with an error named
    AbortError. *)

From Stdlib Require Import ZArith Lia.
From stdpp Require Import base strings list gmap pretty.

Set Warnings "-register-all".
Open Scope Z_scope.

(** ** Values *)

(** Request bodies.  Numbers are the safe integers (of absolute value
    at most [2^53 - 1]), for which [String] gives the decimal digits;
    fractions, [NaN], the infinities and [-0] are not represented.
    Objects keep their own enumerable properties in enumeration order. *)
Inductive JsValue :=
| JUndefined
| JNull
| JBool (b : bool)
| JNum (n : Z)
| JStr (s : string)
| JArr (items : list JsValue)
| JObj (props : list (string * JsValue)).

(** [typeof v === 'object'] *)
Definition typeofObject (v : JsValue) : bool :=
  match v with
  | JNull | JArr _ | JObj _ => true
  | _ => false
  end.

(** [s.includes(needle)] *)
Fixpoint includes (needle s : string) : bool :=
  String.prefix needle s ||
  match s with
  | EmptyString => false
  | String _ rest => includes needle rest
  end.

(** Truthiness of a string-or-undefined ([this._headers[k]]). *)
Definition truthyStr (v : option string) : bool :=
  match v with
  | Some s => negb (String.eqb s "")
  | None => false
  end.

(** [v || ''] on a string-or-undefined. *)
Definition orEmpty (v : option string) : string :=
  if truthyStr v then default ""%string v else ""%string.

(** Truthiness of a number-or-undefined, and [a || b]. *)
Definition truthyNum (v : option Z) : bool :=
  match v with
  | Some n => negb (n =? 0)
  | None => false
  end.

Definition orElse (a b : option Z) : option Z :=
  if truthyNum a then a else b.

(** ** Responses and errors *)

(** What the transport resolves to: a native fetch [Response] together with
    the text its body reads as.  Header names are lower case, as the
    [Headers] class keeps them. *)
Record NativeResponse := {
  n_status : Z;
  n_ok : bool;
  n_statusText : string;
  n_headers : gmap string string;
  n_text : string
}.

(** The [Response] envelope.  [type] and [charset], which no part of the
    engine reads, are left out. *)
Record Response := {
  status : Z;
  statusCode : Z;
  ok : bool;
  statusText : string;
  headers : gmap string string;
  text : string;
  body : JsValue;
  _response : NativeResponse
}.

(** [new Response(nativeResponse, text, body)] *)
Definition newResponse (nativeResponse : NativeResponse) (text : string)
    (body : JsValue) : Response :=
  {| status := n_status nativeResponse;
     statusCode := n_status nativeResponse;
     ok := n_ok nativeResponse;
     statusText := n_statusText nativeResponse;
     headers := n_headers nativeResponse;
     text := text;
     body := body;
     _response := nativeResponse |}.

(** Values that can be thrown.  [HTTPError response] is
    [new HTTPError(response)], whose [status] is [response.status];
    [TimeoutError] is [new TimeoutError()]; [NamedError name message] is
    any other error object, told apart by its [name]; [EUndefined] and
    [ENull] are the values [undefined] and [null]. *)
Inductive ErrVal :=
| HTTPError (response : Response)
| TimeoutError
| NamedError (name message : string)
| EUndefined
| ENull.

(** [error.name]; reading a property of [undefined] or [null] throws. *)
Definition errName (e : ErrVal) : option string :=
  match e with
  | HTTPError _ => Some "HTTPError"%string
  | TimeoutError => Some "TimeoutError"%string
  | NamedError name _ => Some name
  | EUndefined | ENull => None
  end.

(** The TypeError of [e.name] when [e] is [undefined] or [null]. *)
Definition nameTypeError (e : ErrVal) : ErrVal :=
  NamedError "TypeError"
    match e with
    | ENull => "Cannot read properties of null (reading 'name')"
    | _ => "Cannot read properties of undefined (reading 'name')"
    end.

Inductive Result (A : Type) :=
| Return (a : A)
| Throw (e : ErrVal).
Arguments Return {A} a.
Arguments Throw {A} e.

(** ** The request object *)

Record TimeoutOptions := {
  t_request : option Z;
  t_response : option Z
}.

Record RetryOptions := {
  limit : option Z;
  methods : option (list string);
  statusCodes : option (list Z);
  delay : option (Z -> Z)
}.

Inductive Blob :=
| BlobOfString (s : string)          (* new Blob([file]), file a string *)
| BlobOfBuffer (bytes : list Byte.byte). (* new Blob([file]), file a Buffer *)

Inductive FileSource :=
| FString (s : string)
| FBuffer (bytes : list Byte.byte)
| FBlob (b : Blob).

Record FileAttachment := {
  name : string;
  file : FileSource;
  filename : option string
}.

(** The data fields of [Request].  [_formFields] and [_query] list the
    object's entries in the order [Object.entries] reports them. *)
Record Request := {
  _url : string;
  _method : string;
  _headers : gmap string string;
  _query : list (string * string);
  _body : JsValue;
  _timeout : TimeoutOptions;
  _retry : RetryOptions;
  _throwHttpErrors : bool;
  _externalSignal : bool;
  _credentials : string;
  _redirect : string;
  _attachments : list FileAttachment;
  _formFields : list (string * string)
}.

Definition withHeaders (r : Request) (h : gmap string string) : Request :=
  {| _url := _url r; _method := _method r; _headers := h;
     _query := _query r; _body := _body r; _timeout := _timeout r;
     _retry := _retry r; _throwHttpErrors := _throwHttpErrors r;
     _externalSignal := _externalSignal r; _credentials := _credentials r;
     _redirect := _redirect r; _attachments := _attachments r;
     _formFields := _formFields r |}.

(** [attach(name, file, filename)] *)
Definition attach (r : Request) (a : FileAttachment) : Request :=
  {| _url := _url r; _method := _method r; _headers := _headers r;
     _query := _query r; _body := _body r; _timeout := _timeout r;
     _retry := _retry r; _throwHttpErrors := _throwHttpErrors r;
     _externalSignal := _externalSignal r; _credentials := _credentials r;
     _redirect := _redirect r; _attachments := _attachments r ++ [a];
     _formFields := _formFields r |}.

(** What a hook that is handed the request can change: the fields behind
    the public chaining methods ([set], [type], [accept], [auth], [query],
    [send], [timeout], [retry], [withCredentials], [redirects], [attach],
    [field]).  [_url], [_method], [_throwHttpErrors] and [_externalSignal]
    are private and assigned by the constructor only. *)
Definition publicUpdate (old new : Request) : Request :=
  {| _url := _url old; _method := _method old; _headers := _headers new;
     _query := _query new; _body := _body new; _timeout := _timeout new;
     _retry := _retry new; _throwHttpErrors := _throwHttpErrors old;
     _externalSignal := _externalSignal old; _credentials := _credentials new;
     _redirect := _redirect new; _attachments := _attachments new;
     _formFields := _formFields new |}.

(** The outgoing payload: a string or a [FormData]. *)
Inductive FormEntry :=
| FieldEntry (key value : string)
| FileEntry (name : string) (content : Blob) (filename : option string).

Inductive Payload :=
| PString (s : string)
| PFormData (entries : list FormEntry).

(** The [init] object handed to the transport. *)
Record FetchInit := {
  i_method : string;
  i_headers : gmap string string;
  i_body : option Payload;
  i_credentials : string;
  i_redirect : string
}.

(** ** Default retry configuration *)

Definition DEFAULT_RETRY_METHODS : list string :=
  ["GET"; "HEAD"; "OPTIONS"; "PUT"; "DELETE"]%string.

Definition DEFAULT_RETRY_STATUS_CODES : list Z :=
  [408; 413; 429; 500; 502; 503; 504].

Definition defaultRetryDelay (attemptCount : Z) : Z :=
  Z.min (1000 * 2 ^ (attemptCount - 1)) 30000.

(** [list.includes(x)] *)
Definition includesStr (l : list string) (x : string) : bool :=
  existsb (String.eqb x) l.

Definition includesNum (l : list Z) (x : Z) : bool :=
  existsb (Z.eqb x) l.

(** ** The host *)

(** Functions of the JavaScript host that the engine calls and whose
    results no property below looks into. *)
Class Host := {
  (** [new URLSearchParams(query).toString()] *)
  queryToString : list (string * string) -> string;
  (** [new URLSearchParams(body).toString()] *)
  formUrlEncode : JsValue -> string;
  (** [nativeResponse.blob()] and [nativeResponse.arrayBuffer()] *)
  nativeBlob : NativeResponse -> Result Blob;
  nativeArrayBuffer : NativeResponse -> Result (list Byte.byte)
}.

(** [String(v)]; the engine calls it on a body that is not an object. *)
Definition toStringJs (v : JsValue) : string :=
  match v with
  | JUndefined => "undefined"
  | JNull => "null"
  | JBool true => "true"
  | JBool false => "false"
  | JNum n => pretty n
  | JStr s => s
  | JArr _ | JObj _ => "[object Object]"
  end.

(** ** Trace of the calls the engine makes *)

Inductive Event :=
| EvDoFetch                                   (* this.doFetch() entered *)
| EvNewAbortController                        (* new AbortController() *)
| EvAddAbortListener                          (* externalSignal.addEventListener *)
| EvSetTimeout (id : nat) (ms : Z)            (* setTimeout(abort, ms) *)
| EvClearTimeout (id : nat)                   (* clearTimeout(id) *)
| EvBeforeRequest (i : nat)                   (* hooks.beforeRequest[i](this) *)
| EvFetch (url : string) (init : FetchInit)   (* this._customFetch(url, init) *)
| EvAfterResponse (i : nat) (arg : Response)  (* hooks.afterResponse[i](arg) *)
| EvBeforeError (i : nat) (arg : ErrVal)      (* hooks.beforeError[i](arg) *)
| EvBeforeRetry (i : nat) (arg : ErrVal) (ordinal : Z)
                                              (* hooks.beforeRetry[i](arg, ordinal) *)
| EvSleep (ms : Z).                           (* the awaited backoff timer *)

Section Engine.

Context {E : Type} {host : Host}.

(** ** Hooks, codecs and transport

    The function-valued fields of [Request].  They take the state [E] of
    the outside world and give it back; a before-request hook also gets
    the request object and gives back the object as its calls of the
    chaining methods left it.  The lists are those in place when the
    execution starts. *)
Definition BeforeRequestHook := Request -> E -> Result unit * Request * E.
Definition AfterResponseHook := Response -> E -> Result (option Response) * E.
Definition BeforeRetryHook := ErrVal -> Z -> E -> Result unit * E.
Definition BeforeErrorHook := ErrVal -> E -> Result ErrVal * E.

Record Hooks := {
  beforeRequest : list BeforeRequestHook;
  afterResponse : list AfterResponseHook;
  beforeRetry : list BeforeRetryHook;
  beforeError : list BeforeErrorHook
}.

Record Handlers := {
  _hooks : Hooks;
  (** [None] when the parser throws *)
  _parseJson : string -> option JsValue;
  _stringifyJson : JsValue -> string;
  (** the exchange and the reading of the body text *)
  _customFetch : string -> FetchInit -> E -> Result NativeResponse * E
}.

(** ** State and monad *)

Record State := {
  this : Request;
  env : E;
  armed : gset nat;     (* timers set and not cleared *)
  nextTimer : nat;
  trace : list Event
}.

Definition M (A : Type) := State -> Result A * State.

Definition ret {A} (a : A) : M A := fun s => (Return a, s).

Definition throw {A} (e : ErrVal) : M A := fun s => (Throw e, s).

Definition bind {A B} (c : M A) (k : A -> M B) : M B :=
  fun s =>
    match c s with
    | (Return a, s1) => k a s1
    | (Throw e, s1) => (Throw e, s1)
    end.

(** [try { body } catch (e) { handler e } finally { final }], for a
    [final] that does not throw. *)
Definition tryCatchFinally {A} (body : M A) (handler : ErrVal -> M A)
    (final : State -> State) : M A :=
  fun s =>
    match body s with
    | (Return a, s1) => (Return a, final s1)
    | (Throw e, s1) => let '(r, s2) := handler e s1 in (r, final s2)
    end.

Definition setThis (r : Request) (s : State) : State :=
  {| this := r; env := env s; armed := armed s;
     nextTimer := nextTimer s; trace := trace s |}.

Definition setEnv (e : E) (s : State) : State :=
  {| this := this s; env := e; armed := armed s;
     nextTimer := nextTimer s; trace := trace s |}.

Definition log (ev : Event) (s : State) : State :=
  {| this := this s; env := env s; armed := armed s;
     nextTimer := nextTimer s; trace := trace s ++ [ev] |}.

Definition emit (ev : Event) : M unit := fun s => (Return tt, log ev s).

(** [setTimeout(() => this._abortController?.abort(), ms)] *)
Definition setTimeout (ms : Z) : M nat :=
  fun s =>
    let id := nextTimer s in
    (Return id,
     log (EvSetTimeout id ms)
       {| this := this s; env := env s; armed := {[id]} ∪ armed s;
          nextTimer := S id; trace := trace s |}).

(** [clearTimeout(id)] *)
Definition clearTimeout (id : nat) (s : State) : State :=
  log (EvClearTimeout id)
    {| this := this s; env := env s; armed := armed s ∖ {[id]};
       nextTimer := nextTimer s; trace := trace s |}.

(** Notation for sequencing. *)
Notation "x <- c ;; k" := (bind c (fun x => k))
  (at level 100, c at next level, right associativity).
Notation "c ;;; k" := (bind c (fun _ => k))
  (at level 100, right associativity).

(** ** Hook chains

    [for (const hook of hooks) ...]: each hook is called in list order and
    awaited before the next; [i] is the position of the head of the list,
    used in the trace only. *)

Definition callBeforeRequest (hook : BeforeRequestHook) : M unit :=
  fun s =>
    let '(r, this', env') := hook (this s) (env s) in
    (r, setEnv env' (setThis (publicUpdate (this s) this') s)).

(** [for (const hook of this._hooks.beforeRequest) await hook(this)] *)
Fixpoint runBeforeRequest (i : nat) (hooks : list BeforeRequestHook) : M unit :=
  match hooks with
  | [] => ret tt
  | hook :: rest =>
      emit (EvBeforeRequest i) ;;;
      callBeforeRequest hook ;;;
      runBeforeRequest (S i) rest
  end.

Definition callAfterResponse (hook : AfterResponseHook) (response : Response)
    : M (option Response) :=
  fun s =>
    let '(r, env') := hook response (env s) in
    (r, setEnv env' s).

(** [for (const hook of this._hooks.afterResponse) {
       const result = await hook(response);
       if (result) response = result; }] *)
Fixpoint runAfterResponse (i : nat) (hooks : list AfterResponseHook)
    (response : Response) : M Response :=
  match hooks with
  | [] => ret response
  | hook :: rest =>
      emit (EvAfterResponse i response) ;;;
      result <- callAfterResponse hook response ;;
      runAfterResponse (S i) rest
        (match result with Some r => r | None => response end)
  end.

Definition callBeforeError (hook : BeforeErrorHook) (error : ErrVal)
    : M ErrVal :=
  fun s =>
    let '(r, env') := hook error (env s) in
    (r, setEnv env' s).

(** [for (const hook of this._hooks.beforeError) error = await hook(error)] *)
Fixpoint runBeforeError (i : nat) (hooks : list BeforeErrorHook)
    (error : ErrVal) : M ErrVal :=
  match hooks with
  | [] => ret error
  | hook :: rest =>
      emit (EvBeforeError i error) ;;;
      error' <- callBeforeError hook error ;;
      runBeforeError (S i) rest error'
  end.

Definition callBeforeRetry (hook : BeforeRetryHook) (error : ErrVal)
    (ordinal : Z) : M unit :=
  fun s =>
    let '(r, env') := hook error ordinal (env s) in
    (r, setEnv env' s).

(** [for (const hook of this._hooks.beforeRetry)
       await hook(lastError, attempt + 1)] *)
Fixpoint runBeforeRetry (i : nat) (hooks : list BeforeRetryHook)
    (lastError : ErrVal) (ordinal : Z) : M unit :=
  match hooks with
  | [] => ret tt
  | hook :: rest =>
      emit (EvBeforeRetry i lastError ordinal) ;;;
      callBeforeRetry hook lastError ordinal ;;;
      runBeforeRetry (S i) rest lastError ordinal
  end.

(** ** The attempt executor, [doFetch] *)

(** Build URL with query params. *)
Definition buildUrl (r : Request) : string :=
  if (0 <? length (_query r))%nat then
    let separator := if includes "?" (_url r) then "&" else "?" in
    _url r +:+ separator +:+ queryToString (_query r)
  else _url r.

Definition attachmentEntry (a : FileAttachment) : FormEntry :=
  match file a with
  | FString s => FileEntry (name a) (BlobOfString s) (filename a)
  | FBuffer bytes => FileEntry (name a) (BlobOfBuffer bytes) (filename a)
  | FBlob b => FileEntry (name a) b (filename a)
  end.

Definition fieldEntry (kv : string * string) : FormEntry :=
  FieldEntry (fst kv) (snd kv).

(** Prepare body: the payload, and the request with its content-type
    header removed or set. *)
Definition encodeBody (h : Handlers) (r : Request)
    : option Payload * Request :=
  let hasAttachments := (0 <? length (_attachments r))%nat in
  let hasFormFields := (0 <? length (_formFields r))%nat in
  if hasAttachments || hasFormFields then
    let formData :=
      map fieldEntry (_formFields r) ++ map attachmentEntry (_attachments r) in
    (Some (PFormData formData),
     withHeaders r (delete "content-type"%string (_headers r)))
  else
    match _body r with
    | JUndefined => (None, r)
    | _ =>
        let contentType := orEmpty (_headers r !! "content-type"%string) in
        if typeofObject (_body r) then
          if includes "form-urlencoded" contentType then
            (Some (PString (formUrlEncode (_body r))), r)
          else
            (Some (PString (_stringifyJson h (_body r))),
             if truthyStr (_headers r !! "content-type"%string) then r
             else withHeaders r
                    (<["content-type"%string := "application/json"%string]>
                       (_headers r)))
        else (Some (PString (toStringJs (_body r))), r)
    end.

Definition prepareBody (h : Handlers) : M (option Payload) :=
  fun s =>
    let '(payload, r) := encodeBody h (this s) in
    (Return payload, setThis r s).

(** [this._customFetch(url, { method: this._method, headers: this._headers,
       body, signal, credentials: this._credentials,
       redirect: this._redirect })] followed by [fetchResponse.text()] *)
Definition callFetch (h : Handlers) (url : string) (payload : option Payload)
    : M NativeResponse :=
  fun s =>
    let init := {| i_method := _method (this s);
                   i_headers := _headers (this s);
                   i_body := payload;
                   i_credentials := _credentials (this s);
                   i_redirect := _redirect (this s) |} in
    let '(r, env') := _customFetch h url init (env s) in
    (r, setEnv env' (log (EvFetch url init) s)).

(** The decoded body: JSON when the content type says so, the text is not
    empty and the parser does not throw; the text otherwise. *)
Definition decodeBody (h : Handlers) (fetchResponse : NativeResponse)
    : JsValue :=
  let text := n_text fetchResponse in
  let contentType := orEmpty (n_headers fetchResponse !! "content-type"%string) in
  if includes "application/json" contentType && negb (String.eqb text "") then
    match _parseJson h text with
    | Some v => v
    | None => JStr text
    end
  else JStr text.

(** [if (this._throwHttpErrors && !fetchResponse.ok) { ... throw error }
     return response] *)
Definition throwOrReturn (h : Handlers) (fetchResponse : NativeResponse)
    (response : Response) : M Response :=
  fun s =>
    if _throwHttpErrors (this s) && negb (n_ok fetchResponse) then
      (error <- runBeforeError 0 (beforeError (_hooks h)) (HTTPError response) ;;
       throw error) s
    else ret response s.

(** From [let response = new Response(...)] to the [return response]. *)
Definition settle (h : Handlers) (fetchResponse : NativeResponse)
    : M Response :=
  response <- runAfterResponse 0 (afterResponse (_hooks h))
                (newResponse fetchResponse (n_text fetchResponse)
                   (decodeBody h fetchResponse)) ;;
  throwOrReturn h fetchResponse response.

(** The body of the [try] block. *)
Definition exchange (h : Handlers) (url : string) (payload : option Payload)
    : M Response :=
  fetchResponse <- callFetch h url payload ;;
  settle h fetchResponse.

(** The [catch] block. *)
Definition onCatch (error : ErrVal) : M Response :=
  match errName error with
  | None => throw (nameTypeError error)
  | Some n =>
      if String.eqb n "AbortError" then throw TimeoutError else throw error
  end.

(** The [finally] block: [if (timeoutId) clearTimeout(timeoutId)]. *)
Definition onFinally (timeoutId : option nat) (s : State) : State :=
  match timeoutId with
  | Some id => clearTimeout id s
  | None => s
  end.

(** Everything before the before-request hooks: URL, body, abort
    controller, listener on the external signal, timeout timer. *)
Definition prepare (h : Handlers)
    : M (string * option Payload * option nat) :=
  fun s =>
    (let url := buildUrl (this s) in
     payload <- prepareBody h ;;
     emit EvNewAbortController ;;;
     (fun s1 =>
        (if _externalSignal (this s1) then emit EvAddAbortListener
         else ret tt) s1) ;;;
     fun s2 =>
       (let timeoutMs :=
          orElse (t_request (_timeout (this s2)))
                 (t_response (_timeout (this s2))) in
        match timeoutMs with
        | Some ms =>
            if truthyNum timeoutMs then
              (id <- setTimeout ms ;; ret (url, payload, Some id)) s2
            else ret (url, payload, None) s2
        | None => ret (url, payload, None) s2
        end)) s.

(** [doFetch] past its entry: the preparation, the before-request hooks,
    then the [try]/[catch]/[finally]. *)
Definition doFetchBody (h : Handlers) : M Response :=
  p <- prepare h ;;
  let '(url, payload, timeoutId) := p in
  runBeforeRequest 0 (beforeRequest (_hooks h)) ;;;
  tryCatchFinally (exchange h url payload) onCatch (onFinally timeoutId).

Definition doFetch (h : Handlers) : M Response :=
  emit EvDoFetch ;;; doFetchBody h.

(** ** The execution loop, [execute] *)

Record Policy := {
  retryLimit : Z;
  retryMethods : list string;
  retryStatusCodes : list Z;
  retryDelay : Z -> Z
}.

(** The four [const]s at the head of [execute]. *)
Definition policyOf (r : Request) : Policy :=
  {| retryLimit := default 0 (limit (_retry r));
     retryMethods := default DEFAULT_RETRY_METHODS (methods (_retry r));
     retryStatusCodes :=
       default DEFAULT_RETRY_STATUS_CODES (statusCodes (_retry r));
     retryDelay := default defaultRetryDelay (delay (_retry r)) |}.

(** [lastError instanceof TimeoutError] *)
Definition isTimeoutError (e : ErrVal) : bool :=
  match e with TimeoutError => true | _ => false end.

(** [lastError instanceof HTTPError &&
     !retryStatusCodes.includes(lastError.status)] *)
Definition httpNotRetryable (p : Policy) (e : ErrVal) : bool :=
  match e with
  | HTTPError response => negb (includesNum (retryStatusCodes p) (status response))
  | _ => false
  end.

(** The four tests of the [catch] block that rethrow [lastError]. *)
Definition rethrows (p : Policy) (method : string) (attempt : Z)
    (lastError : ErrVal) : bool :=
  negb (includesStr (retryMethods p) method)
  || isTimeoutError lastError
  || httpNotRetryable p lastError
  || (attempt >=? retryLimit p).

(** [await new Promise(resolve => setTimeout(resolve, delay))] *)
Definition sleep (ms : Z) : M unit := emit (EvSleep ms).

(** The [catch] block of the loop: rethrow, or run the before-retry hooks
    and wait; returning means the loop goes on. *)
Definition onAttemptError (h : Handlers) (p : Policy) (attempt : Z)
    (lastError : ErrVal) : M unit :=
  fun s =>
    if rethrows p (_method (this s)) attempt lastError then throw lastError s
    else
      (runBeforeRetry 0 (beforeRetry (_hooks h)) lastError (attempt + 1) ;;;
       sleep (retryDelay p (attempt + 1))) s.

(** [for (let attempt = ...; attempt <= retryLimit; attempt++) { ... }]
    followed by [throw lastError].  [fuel] is the number of iterations
    left, [retryLimit + 1 - attempt]. *)
Fixpoint attempts (h : Handlers) (p : Policy) (fuel : nat) (attempt : Z)
    (lastError : ErrVal) : M Response :=
  match fuel with
  | O => throw lastError
  | S fuel' =>
      fun s =>
        match doFetch h s with
        | (Return response, s1) => (Return response, s1)
        | (Throw error, s1) =>
            (onAttemptError h p attempt error ;;;
             attempts h p fuel' (attempt + 1) error) s1
        end
  end.

Definition execute (h : Handlers) : M Response :=
  fun s =>
    let p := policyOf (this s) in
    attempts h p (Z.to_nat (retryLimit p + 1)) 0 ENull s.

(** ** Promise interface and response shortcuts *)

(** [then(onfulfilled, onrejected)] settles as [this.execute()] does. *)
Definition then_ (h : Handlers) : M Response := execute h.

(** [end(callback)]: never throws, hands [(err, res)] to the callback. *)
Definition end_ (h : Handlers) : M (option ErrVal * option Response) :=
  fun s =>
    match execute h s with
    | (Return res, s1) => (Return (None, Some res), s1)
    | (Throw err, s1) => (Return (Some err, None), s1)
    end.

Definition json (h : Handlers) : M JsValue :=
  res <- execute h ;; ret (body res).

Definition text_ (h : Handlers) : M string :=
  res <- execute h ;; ret (text res).

Definition blob (h : Handlers) : M Blob :=
  response <- doFetch h ;;
  fun s => (nativeBlob (_response response), s).

Definition arrayBuffer (h : Handlers) : M (list Byte.byte) :=
  response <- doFetch h ;;
  fun s => (nativeArrayBuffer (_response response), s).

End Engine.

(** * Reading the trace *)

Definition asDoFetch (ev : Event) : option unit :=
  match ev with EvDoFetch => Some tt | _ => None end.

Definition asBeforeRetry (ev : Event) : option (nat * Z) :=
  match ev with EvBeforeRetry i _ n => Some (i, n) | _ => None end.

Definition asBeforeRetryOf (i : nat) (ev : Event) : option Z :=
  match ev with
  | EvBeforeRetry j _ n => if decide (j = i) then Some n else None
  | _ => None
  end.

Definition asSleep (ev : Event) : option Z :=
  match ev with EvSleep ms => Some ms | _ => None end.

Definition asFetch (ev : Event) : option (string * FetchInit) :=
  match ev with EvFetch url init => Some (url, init) | _ => None end.

(** Number of calls of [doFetch]. *)
Definition doFetchCalls (t : list Event) : nat := length (omap asDoFetch t).

(** The before-retry hook calls, as (position of the hook, ordinal). *)
Definition beforeRetryCalls (t : list Event) : list (nat * Z) :=
  omap asBeforeRetry t.

(** The ordinals handed to the before-retry hook at position [i]. *)
Definition retryOrdinals (i : nat) (t : list Event) : list Z :=
  omap (asBeforeRetryOf i) t.

(** The backoff waits, in milliseconds. *)
Definition sleeps (t : list Event) : list Z := omap asSleep t.

(** The transport calls. *)
Definition fetches (t : list Event) : list (string * FetchInit) :=
  omap asFetch t.

(** Events of the execution loop and the entry of an attempt; the rest
    are the events inside an attempt. *)
Definition loopEvent (ev : Event) : bool :=
  match ev with
  | EvBeforeRetry _ _ _ | EvSleep _ | EvDoFetch => true
  | _ => false
  end.

(** A reading of the trace that sees nothing inside an attempt. *)
Definition outer {X} (π : Event -> option X) : Prop :=
  forall ev, loopEvent ev = false -> π ev = None.

(** The status of the response is in [codes]. *)
Definition retryableStatus (codes : list Z) (r : Response) : Prop :=
  includesNum codes (status r) = true.

(** The events of one run of [len] before-retry hooks, from position [i]. *)
Fixpoint retryEvents (i : nat) (len : nat) (e : ErrVal) (n : Z) : list Event :=
  match len with
  | O => []
  | S len' => EvBeforeRetry i e n :: retryEvents (S i) len' e n
  end.

Section Relations.

Context {E : Type} {host : Host}.

(** [s'] comes from [s] by steps inside an attempt: the private fields of
    the request are the same and the trace has grown by events inside an
    attempt only. *)
Definition innerOf (s s' : @State E) : Prop :=
  _url (this s') = _url (this s) /\
  _method (this s') = _method (this s) /\
  _throwHttpErrors (this s') = _throwHttpErrors (this s) /\
  _externalSignal (this s') = _externalSignal (this s) /\
  exists evs, trace s' = trace s ++ evs /\
              Forall (fun ev => loopEvent ev = false) evs.

Definition inner {A} (c : @M E A) : Prop :=
  forall s, innerOf s (snd (c s)).

(** *** Hooks that behave *)

(** A before-request or before-retry hook that returns. *)
Definition returnsBR (hook : @BeforeRequestHook E) : Prop :=
  forall r e, fst (fst (hook r e)) = Return tt.

Definition returnsRT (hook : @BeforeRetryHook E) : Prop :=
  forall err n e, fst (hook err n e) = Return tt.

(** An after-response hook that, on a response with [P], returns nothing
    or a replacement with [P]. *)
Definition keepsAR (P : Response -> Prop) (hook : @AfterResponseHook E)
    : Prop :=
  forall r e, P r ->
    match fst (hook r e) with
    | Return None => True
    | Return (Some r') => P r'
    | Throw _ => False
    end.

(** A before-error hook that, on an [HTTPError] whose response has [P],
    returns an [HTTPError] whose response has [P]. *)
Definition keepsBE (P : Response -> Prop) (hook : @BeforeErrorHook E)
    : Prop :=
  forall r e, P r ->
    exists r', fst (hook (HTTPError r) e) = Return (HTTPError r') /\ P r'.

(** An after-response hook that returns nothing. *)
Definition returnsNothing (hook : @AfterResponseHook E) : Prop :=
  forall r e, fst (hook r e) = Return None.

(** The transport always answers, with a status that is not ok and is in
    [codes]. *)
Definition alwaysFailsWith (codes : list Z) (h : @Handlers E) : Prop :=
  forall url init e,
    exists nr e', _customFetch h url init e = (Return nr, e') /\
                  n_ok nr = false /\
                  includesNum codes (n_status nr) = true.

(** What the [catch] block of [doFetch] throws for [e]. *)
Definition caught (e : ErrVal) : ErrVal :=
  match errName e with
  | None => nameTypeError e
  | Some n => if String.eqb n "AbortError" then TimeoutError else e
  end.

(** [hookThrew h s e s1]: in the attempt that [doFetch] makes from [s], a
    hook throws, so that the attempt ends in [s1] throwing [e].  Either a
    before-request hook throws [e]; or, inside the [try], an
    after-response hook or a before-error hook throws [e0], of which the
    [catch] block makes [e]. *)
Inductive hookThrew (h : @Handlers E) (s : @State E)
    : ErrVal -> @State E -> Prop :=
| BeforeRequestThrew p sp e s1 :
    prepare h (log EvDoFetch s) = (Return p, sp) ->
    runBeforeRequest 0 (beforeRequest (_hooks h)) sp = (Throw e, s1) ->
    hookThrew h s e s1
| AfterResponseThrew url payload timeoutId sp s2 nr s3 e0 s4 :
    prepare h (log EvDoFetch s) = (Return (url, payload, timeoutId), sp) ->
    runBeforeRequest 0 (beforeRequest (_hooks h)) sp = (Return tt, s2) ->
    callFetch h url payload s2 = (Return nr, s3) ->
    runAfterResponse 0 (afterResponse (_hooks h))
      (newResponse nr (n_text nr) (decodeBody h nr)) s3 = (Throw e0, s4) ->
    hookThrew h s (caught e0) (onFinally timeoutId s4)
| BeforeErrorThrew url payload timeoutId sp s2 nr s3 response s4 e0 s5 :
    prepare h (log EvDoFetch s) = (Return (url, payload, timeoutId), sp) ->
    runBeforeRequest 0 (beforeRequest (_hooks h)) sp = (Return tt, s2) ->
    callFetch h url payload s2 = (Return nr, s3) ->
    runAfterResponse 0 (afterResponse (_hooks h))
      (newResponse nr (n_text nr) (decodeBody h nr)) s3 = (Return response, s4) ->
    _throwHttpErrors (this s4) && negb (n_ok nr) = true ->
    runBeforeError 0 (beforeError (_hooks h)) (HTTPError response) s4
      = (Throw e0, s5) ->
    hookThrew h s (caught e0) (onFinally timeoutId s5).

(** The reading of the claim on hook errors: whenever a hook throws in the
    first attempt, [execute] ends there, throwing what the attempt threw. *)
Definition hookErrorTerminal (h : @Handlers E) (s : @State E) : Prop :=
  forall e s1, hookThrew h s e s1 -> execute h s = (Throw e, s1).

End Relations.

(** * Concrete requests

    The world is a counter of the calls made on it. *)

Module Demo.

Definition host : Host :=
  {| queryToString :=
       fun q => String.concat "&" (map (fun kv => fst kv +:+ "=" +:+ snd kv) q);
     formUrlEncode := fun _ => ""%string;
     nativeBlob := fun nr => Return (BlobOfString (n_text nr));
     nativeArrayBuffer := fun _ => Return [] |}.

Definition retryUpTo (n : Z) : RetryOptions :=
  {| limit := Some n; methods := None; statusCodes := None; delay := None |}.

(** [retry({ limit: n, delay: (attempt) => 250 * attempt })] *)
Definition retryLinear (n : Z) : RetryOptions :=
  {| limit := Some n; methods := None; statusCodes := None;
     delay := Some (fun attemptCount => 250 * attemptCount) |}.

Definition noTimeout : TimeoutOptions :=
  {| t_request := None; t_response := None |}.

Definition requestTimeout (ms : Z) : TimeoutOptions :=
  {| t_request := Some ms; t_response := None |}.

Definition request (method : string) (retry : RetryOptions)
    (timeout : TimeoutOptions) : Request :=
  {| _url := "https://api.example.com/items";
     _method := method;
     _headers := ∅;
     _query := [];
     _body := JUndefined;
     _timeout := timeout;
     _retry := retry;
     _throwHttpErrors := true;
     _externalSignal := false;
     _credentials := "same-origin";
     _redirect := "follow";
     _attachments := [];
     _formFields := [] |}.

Definition withBody (r : Request) (v : JsValue) : Request :=
  {| _url := _url r; _method := _method r; _headers := _headers r;
     _query := _query r; _body := v; _timeout := _timeout r;
     _retry := _retry r; _throwHttpErrors := _throwHttpErrors r;
     _externalSignal := _externalSignal r; _credentials := _credentials r;
     _redirect := _redirect r; _attachments := _attachments r;
     _formFields := _formFields r |}.

Definition withField (r : Request) (k v : string) : Request :=
  {| _url := _url r; _method := _method r; _headers := _headers r;
     _query := _query r; _body := _body r; _timeout := _timeout r;
     _retry := _retry r; _throwHttpErrors := _throwHttpErrors r;
     _externalSignal := _externalSignal r; _credentials := _credentials r;
     _redirect := _redirect r; _attachments := _attachments r;
     _formFields := _formFields r ++ [(k, v)] |}.

Definition native (st : Z) : NativeResponse :=
  {| n_status := st;
     n_ok := (200 <=? st) && (st <=? 299);
     n_statusText := "";
     n_headers := ∅;
     n_text := "" |}.

Definition envelope (st : Z) : Response :=
  newResponse (native st) "" (JStr "").

(** A transport that always answers with status [st]. *)
Definition respond (st : Z)
    : string -> FetchInit -> nat -> Result NativeResponse * nat :=
  fun _ _ e => (Return (native st), S e).

(** A transport that answers [st] to its first [k] calls, then 200. *)
Definition respondAfter (k : nat) (st : Z)
    : string -> FetchInit -> nat -> Result NativeResponse * nat :=
  fun _ _ e => (Return (native (if (e <? k)%nat then st else 200)), S e).

(** A transport whose call is aborted. *)
Definition aborted
    : string -> FetchInit -> nat -> Result NativeResponse * nat :=
  fun _ _ e =>
    (Throw (NamedError "AbortError" "This operation was aborted"), S e).

Definition noHooks : @Hooks nat :=
  {| beforeRequest := []; afterResponse := [];
     beforeRetry := []; beforeError := [] |}.

Definition handlers (hooks : @Hooks nat)
    (fetch : string -> FetchInit -> nat -> Result NativeResponse * nat)
    : @Handlers nat :=
  {| _hooks := hooks;
     _parseJson := fun _ => None;
     _stringifyJson := fun _ => "{}"%string;
     _customFetch := fetch |}.

Definition start (r : Request) : @State nat :=
  {| this := r; env := O; armed := ∅; nextTimer := 1; trace := [] |}.

Definition boom : ErrVal := NamedError "Error" "boom".

(** A before-retry hook that only looks. *)
Definition watchRetry : @BeforeRetryHook nat :=
  fun _ _ e => (Return tt, e).

Definition retryHooks : @Hooks nat :=
  {| beforeRequest := []; afterResponse := [];
     beforeRetry := [watchRetry; watchRetry]; beforeError := [] |}.

(** A before-request hook that throws the first time it is called. *)
Definition throwsOnce : @BeforeRequestHook nat :=
  fun r e =>
    match e with
    | O => (Throw boom, r, 1%nat)
    | _ => (Return tt, r, e)
    end.

Definition throwsOnceHooks : @Hooks nat :=
  {| beforeRequest := [throwsOnce]; afterResponse := [];
     beforeRetry := [watchRetry]; beforeError := [] |}.

(** A before-request hook that always throws. *)
Definition throwsAlways : @BeforeRequestHook nat :=
  fun r e => (Throw boom, r, e).

Definition throwingHooks : @Hooks nat :=
  {| beforeRequest := [throwsAlways]; afterResponse := [];
     beforeRetry := []; beforeError := [] |}.

(** A before-retry hook that throws. *)
Definition retryThrows : @BeforeRetryHook nat :=
  fun _ _ e => (Throw boom, e).

Definition retryThrowsHooks : @Hooks nat :=
  {| beforeRequest := []; afterResponse := [];
     beforeRetry := [retryThrows]; beforeError := [] |}.

(** A before-error hook with an empty body, [(error) => { }], and one
    that hands its argument back. *)
Definition returnsUndefined : @BeforeErrorHook nat :=
  fun _ e => (Return EUndefined, e).

Definition handsBack : @BeforeErrorHook nat :=
  fun err e => (Return err, e).

Definition emptyBeforeError : @Hooks nat :=
  {| beforeRequest := []; afterResponse := [];
     beforeRetry := []; beforeError := [returnsUndefined; handsBack] |}.

(** An after-response hook that replaces the body of the response. *)
Definition replaced (r : Response) : Response :=
  {| status := status r; statusCode := statusCode r; ok := ok r;
     statusText := statusText r; headers := headers r; text := text r;
     body := JStr "replaced"; _response := _response r |}.

Definition replaceBody : @AfterResponseHook nat :=
  fun r e => (Return (Some (replaced r)), e).

Definition looksOnly : @AfterResponseHook nat :=
  fun _ e => (Return None, e).

Definition replacingHooks : @Hooks nat :=
  {| beforeRequest := []; afterResponse := [looksOnly; replaceBody; looksOnly];
     beforeRetry := []; beforeError := [] |}.

Definition avatar : FileAttachment :=
  {| name := "avatar"; file := FString "png-bytes"; filename := Some "photo.jpg"%string |}.

Definition asBeforeError (ev : Event) : option (nat * ErrVal) :=
  match ev with EvBeforeError i arg => Some (i, arg) | _ => None end.

Definition asTimer (ev : Event) : option (bool * nat) :=
  match ev with
  | EvSetTimeout id _ => Some (true, id)
  | EvClearTimeout id => Some (false, id)
  | _ => None
  end.

(** The requests and handlers of the runs below. *)
Definition getRetry2 : @State nat := start (request "GET" (retryUpTo 2) noTimeout).
Definition getRetry1 : @State nat := start (request "GET" (retryUpTo 1) noTimeout).
Definition getOnce : @State nat := start (request "GET" (retryUpTo 0) noTimeout).
Definition postRetry3 : @State nat := start (request "POST" (retryUpTo 3) noTimeout).
Definition getLinear : @State nat :=
  start (request "GET" (retryLinear 3) noTimeout).
Definition getTimeout : @State nat :=
  start (request "GET" (retryUpTo 3) (requestTimeout 5000)).

Definition jsonRequest : Request :=
  withBody (request "POST" (retryUpTo 0) noTimeout) (JObj [("name"%string, JStr "John")]).

Definition uploadRequest : Request :=
  attach
    (withField
       (withBody (request "POST" (retryUpTo 0) noTimeout)
          (JObj [("name"%string, JStr "John")]))
       "email" "john@example.com")
    avatar.

End Demo.

(** * More readings of the trace *)

(** The kinds of events. *)
Inductive Kind :=
| KDoFetch | KController | KListener | KSetTimeout | KClearTimeout
| KBeforeRequest | KFetch | KAfterResponse | KBeforeError | KBeforeRetry
| KSleep.

Definition kindOf (ev : Event) : Kind :=
  match ev with
  | EvDoFetch => KDoFetch
  | EvNewAbortController => KController
  | EvAddAbortListener => KListener
  | EvSetTimeout _ _ => KSetTimeout
  | EvClearTimeout _ => KClearTimeout
  | EvBeforeRequest _ => KBeforeRequest
  | EvFetch _ _ => KFetch
  | EvAfterResponse _ _ => KAfterResponse
  | EvBeforeError _ _ => KBeforeError
  | EvBeforeRetry _ _ _ => KBeforeRetry
  | EvSleep _ => KSleep
  end.

#[global] Instance Kind_eq_dec : EqDecision Kind.
Proof. solve_decision. Defined.

(** A reading of the trace that sees only the events of the kinds [ks]. *)
Definition seesOnly {X} (ks : list Kind) (π : Event -> option X) : Prop :=
  forall ev, kindOf ev ∉ ks -> π ev = None.

(** The timer calls: [(true, id, ms)] for [setTimeout], [(false, id, 0)]
    for [clearTimeout]. *)
Definition asTimerCall (ev : Event) : option (bool * nat * Z) :=
  match ev with
  | EvSetTimeout id ms => Some (true, id, ms)
  | EvClearTimeout id => Some (false, id, 0)
  | _ => None
  end.

Definition timerCalls (t : list Event) : list (bool * nat * Z) :=
  omap asTimerCall t.

Definition asBeforeErrorCall (ev : Event) : option (nat * ErrVal) :=
  match ev with EvBeforeError i arg => Some (i, arg) | _ => None end.

(** The before-error hook calls. *)
Definition beforeErrorCalls (t : list Event) : list (nat * ErrVal) :=
  omap asBeforeErrorCall t.

Definition asListener (ev : Event) : option unit :=
  match ev with EvAddAbortListener => Some tt | _ => None end.

(** Number of listeners put on the external signal. *)
Definition listenerCalls (t : list Event) : nat := length (omap asListener t).

Section MoreRelations.

Context {E : Type} {host : Host}.

(** [c] adds nothing to the reading [π] of the trace. *)
Definition quiet {A X} (π : Event -> option X) (c : @M E A) : Prop :=
  forall s, omap π (trace (snd (c s))) = omap π (trace s).

(** [c] leaves the armed timers as they are. *)
Definition keepsTimers {A} (c : @M E A) : Prop :=
  forall s, armed (snd (c s)) = armed s.



(** The transport always answers. *)
Definition alwaysAnswers (h : @Handlers E) : Prop :=
  forall url init e, exists nr e', _customFetch h url init e = (Return nr, e').

(** The timeout that [doFetch] arms its timer with:
    [this._timeout.request || this._timeout.response], if truthy. *)
Definition effectiveTimeout (r : Request) : option Z :=
  let timeoutMs := orElse (t_request (_timeout r)) (t_response (_timeout r)) in
  if truthyNum timeoutMs then timeoutMs else None.

End MoreRelations.

(** * The chaining methods, the constructor and the instance factory *)

(** ** Strings *)

(** [s.toLowerCase()] and [s.toUpperCase()], on the ASCII letters; header
    names and methods are ASCII tokens. *)
Definition lowerChar (c : Ascii.ascii) : Ascii.ascii :=
  let n := Ascii.nat_of_ascii c in
  if (65 <=? n)%nat && (n <=? 90)%nat then Ascii.ascii_of_nat (n + 32) else c.

Definition upperChar (c : Ascii.ascii) : Ascii.ascii :=
  let n := Ascii.nat_of_ascii c in
  if (97 <=? n)%nat && (n <=? 122)%nat then Ascii.ascii_of_nat (n - 32) else c.

Fixpoint mapString (f : Ascii.ascii -> Ascii.ascii) (s : string) : string :=
  match s with
  | EmptyString => EmptyString
  | String c rest => String (f c) (mapString f rest)
  end.

Definition toLowerCase (s : string) : string := mapString lowerChar s.
Definition toUpperCase (s : string) : string := mapString upperChar s.

(** [s.startsWith(p)], [s.endsWith(p)] and [s.slice(0, -1)] *)
Definition startsWith (p s : string) : bool := String.prefix p s.

Fixpoint endsWith (p s : string) : bool :=
  String.eqb p s ||
  match s with
  | EmptyString => false
  | String _ rest => endsWith p rest
  end.

Fixpoint dropLast (s : string) : string :=
  match s with
  | EmptyString => EmptyString
  | String c EmptyString => EmptyString
  | String c rest => String c (dropLast rest)
  end.

(** ** Objects used as maps *)

(** Truthiness of a value. *)
Definition truthy (v : JsValue) : bool :=
  match v with
  | JUndefined | JNull => false
  | JBool b => b
  | JNum n => negb (n =? 0)
  | JStr s => negb (String.eqb s "")
  | JArr _ | JObj _ => true
  end.

Definition digitOf (c : Ascii.ascii) : option N :=
  let n := Ascii.N_of_ascii c in
  if (48 <=? n)%N && (n <=? 57)%N then Some (n - 48)%N else None.

Fixpoint digitsValue (s : string) (acc : N) : option N :=
  match s with
  | EmptyString => Some acc
  | String c rest =>
      match digitOf c with
      | Some d => digitsValue rest (acc * 10 + d)%N
      | None => None
      end
  end.

(** The array index that a property key denotes: the key is the decimal
    writing, with no leading zero, of an integer below [2^32 - 1]. *)
Definition arrayIndex (k : string) : option N :=
  match k with
  | EmptyString => None
  | String c rest =>
      if (Ascii.N_of_ascii c =? 48)%N && negb (String.eqb rest "") then None
      else
        match digitsValue k 0 with
        | Some n => if (n <=? 4294967294)%N then Some n else None
        | None => None
        end
  end.

Section Props.

Context {V : Type}.

(** [obj[k]] on the own properties. *)
Fixpoint propGet (k : string) (props : list (string * V)) : option V :=
  match props with
  | [] => None
  | (k', v) :: rest => if String.eqb k k' then Some v else propGet k rest
  end.

Fixpoint propReplace (k : string) (v : V) (props : list (string * V))
    : list (string * V) :=
  match props with
  | [] => []
  | (k', v') :: rest =>
      if String.eqb k k' then (k, v) :: rest
      else (k', v') :: propReplace k v rest
  end.

(** A new key that is an array index goes among the array indices, in
    ascending order; these come before all other keys. *)
Fixpoint propInsertIndex (n : N) (k : string) (v : V)
    (props : list (string * V)) : list (string * V) :=
  match props with
  | [] => [(k, v)]
  | (k', v') :: rest =>
      match arrayIndex k' with
      | Some m =>
          if (n <? m)%N then (k, v) :: props
          else (k', v') :: propInsertIndex n k v rest
      | None => (k, v) :: props
      end
  end.

(** Defining the own property [k]: an existing key keeps its place; a new
    one is enumerated after the existing ones, array indices apart. *)
Definition propDefine (k : string) (v : V) (props : list (string * V))
    : list (string * V) :=
  match propGet k props with
  | Some _ => propReplace k v props
  | None =>
      match arrayIndex k with
      | Some n => propInsertIndex n k v props
      | None => props ++ [(k, v)]
      end
  end.

End Props.

(** [obj[k] = v] for a string [v] on a plain object: assigning a string to
    [__proto__] does nothing. *)
Definition propSet (k v : string) (props : list (string * string))
    : list (string * string) :=
  if String.eqb k "__proto__" then props else propDefine k v props.

Definition headerSet (k v : string) (hs : gmap string string)
    : gmap string string :=
  if String.eqb k "__proto__" then hs else <[k := v]> hs.

(** The own enumerable properties that a spread copies. *)
Definition ownProps (v : JsValue) : list (string * JsValue) :=
  match v with
  | JObj props => props
  | JArr items => imap (fun i x => (pretty i, x)) items
  | _ => []
  end.

(** [{ ...a, ...b }] *)
Definition spread (a b : JsValue) : JsValue :=
  JObj (fold_left (fun acc kv => propDefine (fst kv) (snd kv) acc) (ownProps b)
          (fold_left (fun acc kv => propDefine (fst kv) (snd kv) acc)
             (ownProps a) [])).

(** [String(v)] *)
Fixpoint stringOf (v : JsValue) : string :=
  match v with
  | JUndefined => "undefined"
  | JNull => "null"
  | JBool true => "true"
  | JBool false => "false"
  | JNum n => pretty n
  | JStr s => s
  | JArr items =>
      String.concat ","
        (map (fun x => match x with
                       | JUndefined | JNull => ""%string
                       | _ => stringOf x
                       end) items)
  | JObj _ => "[object Object]"
  end.

(** ** Record updates *)

Definition updBody (r : Request) (v : JsValue) : Request :=
  {| _url := _url r; _method := _method r; _headers := _headers r;
     _query := _query r; _body := v; _timeout := _timeout r;
     _retry := _retry r; _throwHttpErrors := _throwHttpErrors r;
     _externalSignal := _externalSignal r; _credentials := _credentials r;
     _redirect := _redirect r; _attachments := _attachments r;
     _formFields := _formFields r |}.

Definition updQuery (r : Request) (q : list (string * string)) : Request :=
  {| _url := _url r; _method := _method r; _headers := _headers r;
     _query := q; _body := _body r; _timeout := _timeout r;
     _retry := _retry r; _throwHttpErrors := _throwHttpErrors r;
     _externalSignal := _externalSignal r; _credentials := _credentials r;
     _redirect := _redirect r; _attachments := _attachments r;
     _formFields := _formFields r |}.

Definition updTimeout (r : Request) (t : TimeoutOptions) : Request :=
  {| _url := _url r; _method := _method r; _headers := _headers r;
     _query := _query r; _body := _body r; _timeout := t;
     _retry := _retry r; _throwHttpErrors := _throwHttpErrors r;
     _externalSignal := _externalSignal r; _credentials := _credentials r;
     _redirect := _redirect r; _attachments := _attachments r;
     _formFields := _formFields r |}.

Definition updRetry (r : Request) (o : RetryOptions) : Request :=
  {| _url := _url r; _method := _method r; _headers := _headers r;
     _query := _query r; _body := _body r; _timeout := _timeout r;
     _retry := o; _throwHttpErrors := _throwHttpErrors r;
     _externalSignal := _externalSignal r; _credentials := _credentials r;
     _redirect := _redirect r; _attachments := _attachments r;
     _formFields := _formFields r |}.

Definition updCredentials (r : Request) (c : string) : Request :=
  {| _url := _url r; _method := _method r; _headers := _headers r;
     _query := _query r; _body := _body r; _timeout := _timeout r;
     _retry := _retry r; _throwHttpErrors := _throwHttpErrors r;
     _externalSignal := _externalSignal r; _credentials := c;
     _redirect := _redirect r; _attachments := _attachments r;
     _formFields := _formFields r |}.

Definition updRedirect (r : Request) (d : string) : Request :=
  {| _url := _url r; _method := _method r; _headers := _headers r;
     _query := _query r; _body := _body r; _timeout := _timeout r;
     _retry := _retry r; _throwHttpErrors := _throwHttpErrors r;
     _externalSignal := _externalSignal r; _credentials := _credentials r;
     _redirect := d; _attachments := _attachments r;
     _formFields := _formFields r |}.

Definition updFormFields (r : Request) (f : list (string * string)) : Request :=
  {| _url := _url r; _method := _method r; _headers := _headers r;
     _query := _query r; _body := _body r; _timeout := _timeout r;
     _retry := _retry r; _throwHttpErrors := _throwHttpErrors r;
     _externalSignal := _externalSignal r; _credentials := _credentials r;
     _redirect := _redirect r; _attachments := _attachments r;
     _formFields := f |}.

(** ** Chaining methods *)

(** [set(field, value)] with a string [field]; [value] is [None] when it
    is [undefined]. *)
Definition set (field : string) (value : option string) (r : Request)
    : Request :=
  match value with
  | Some v => withHeaders r (headerSet (toLowerCase field) v (_headers r))
  | None => r
  end.

(** [set(fields)] with an object, given by its entries. *)
Definition setAll (fields : list (string * string)) (r : Request) : Request :=
  withHeaders r
    (fold_left (fun hs kv => headerSet (toLowerCase (fst kv)) (snd kv) hs)
       fields (_headers r)).

(** [query(params)] with an object, given by its entries. *)
Definition query (params : list (string * JsValue)) (r : Request) : Request :=
  updQuery r
    (fold_left
       (fun q kv =>
          match snd kv with
          | JUndefined | JNull => q
          | value => propSet (fst kv) (stringOf value) q
          end)
       params (_query r)).

(** [send(data)] *)
Definition send (data : JsValue) (r : Request) : Request :=
  let r1 :=
    if truthy (_body r) && typeofObject (_body r) && typeofObject data
    then updBody r (spread (_body r) data)
    else updBody r data in
  if typeofObject data && negb (truthyStr (_headers r1 !! "content-type"%string))
  then withHeaders r1
         (<["content-type"%string := "application/json"%string]> (_headers r1))
  else r1.

(** The names that every plain object inherits: looked up in a table
    written as an object literal, they give a value that is not a string. *)
Definition inheritedNames : list string :=
  ["constructor"; "__defineGetter__"; "__defineSetter__"; "hasOwnProperty";
   "__lookupGetter__"; "__lookupSetter__"; "isPrototypeOf";
   "propertyIsEnumerable"; "toString"; "valueOf"; "__proto__";
   "toLocaleString"]%string.

Definition typeTable : list (string * string) :=
  [("json", "application/json"); ("form", "application/x-www-form-urlencoded");
   ("html", "text/html"); ("text", "text/plain"); ("xml", "application/xml")]%string.

Definition acceptTable : list (string * string) :=
  [("json", "application/json"); ("html", "text/html");
   ("text", "text/plain"); ("xml", "application/xml")]%string.

(** [table[name] || name]; [None] when the lookup gives an inherited
    member, which is not a string. *)
Definition shorthand (table : list (string * string)) (name : string)
    : option string :=
  match propGet name table with
  | Some full => Some (if truthyStr (Some full) then full else name)
  | None => if includesStr inheritedNames name then None else Some name
  end.

(** [type(contentType)] and [accept(acceptType)]; [None] when the header
    would not be a string. *)
Definition type_ (contentType : string) (r : Request) : option Request :=
  match shorthand typeTable contentType with
  | Some v => Some (withHeaders r (<["content-type"%string := v]> (_headers r)))
  | None => None
  end.

Definition accept (acceptType : string) (r : Request) : option Request :=
  match shorthand acceptTable acceptType with
  | Some v => Some (withHeaders r (<["accept"%string := v]> (_headers r)))
  | None => None
  end.

(** [timeout(ms)] *)
Definition timeout (ms : Z + TimeoutOptions) (r : Request) : Request :=
  updTimeout r
    match ms with
    | inl n => {| t_request := Some n; t_response := None |}
    | inr t => t
    end.

(** [retry(count)] *)
Definition retry (count : Z + RetryOptions) (r : Request) : Request :=
  updRetry r
    match count with
    | inl n => {| limit := Some n; methods := None; statusCodes := None;
                  delay := None |}
    | inr o => o
    end.

(** [withCredentials(enabled = true)] *)
Definition withCredentials (enabled : option bool) (r : Request) : Request :=
  updCredentials r
    (if default true enabled then "include" else "same-origin")%string.

(** [redirects(count)] *)
Definition redirects (count : Z + bool) (r : Request) : Request :=
  updRedirect r
    match count with
    | inl 0 | inr false => "manual"%string
    | _ => "follow"%string
    end.

(** [field(name, value)] with a string [name], and [field(fields)] with an
    object. *)
Definition field (name : string) (value : option string) (r : Request)
    : Request :=
  match value with
  | Some v => updFormFields r (propSet name v (_formFields r))
  | None => r
  end.

Definition fieldAll (fields : list (string * string)) (r : Request)
    : Request :=
  updFormFields r
    (fold_left (fun f kv => propSet (fst kv) (snd kv) f) fields (_formFields r)).

(** [res.get(header)], for a name that is not one of the inherited
    names. *)
Definition responseGet (res : Response) (header : string) : option string :=
  headers res !! toLowerCase header.

Section Factory.

Context {E : Type} {host : Host}.

(** ** The constructor *)

(** [Hooks], each list optional. *)
Record HooksOption := {
  ho_beforeRequest : option (list (@BeforeRequestHook E));
  ho_afterResponse : option (list (@AfterResponseHook E));
  ho_beforeRetry : option (list (@BeforeRetryHook E));
  ho_beforeError : option (list (@BeforeErrorHook E))
}.

(** [RequestOptions]; [method] and [body], which nothing reads, are left
    out, and [signal] is whether one is given. *)
Record RequestOptions := {
  o_headers : option (gmap string string);
  o_timeout : option (Z + TimeoutOptions);
  o_retry : option (Z + RetryOptions);
  o_hooks : option HooksOption;
  o_throwHttpErrors : option bool;
  o_parseJson : option (string -> option JsValue);
  o_stringifyJson : option (JsValue -> string);
  o_signal : bool;
  o_credentials : option string;
  o_redirect : option string;
  o_fetch : option (string -> FetchInit -> E -> Result NativeResponse * E)
}.

(** [JSON.parse], [JSON.stringify] and [globalThis.fetch]. *)
Record Builtins := {
  JSON_parse : string -> option JsValue;
  JSON_stringify : JsValue -> string;
  globalFetch : string -> FetchInit -> E -> Result NativeResponse * E
}.

(** [mergeHooks(hooks)] on the empty lists of a new request. *)
Definition mergeHooks (hooks : HooksOption) : @Hooks E :=
  {| beforeRequest := default [] (ho_beforeRequest hooks);
     afterResponse := default [] (ho_afterResponse hooks);
     beforeRetry := default [] (ho_beforeRetry hooks);
     beforeError := default [] (ho_beforeError hooks) |}.

Definition emptyHooks : @Hooks E :=
  {| beforeRequest := []; afterResponse := [];
     beforeRetry := []; beforeError := [] |}.

(** [new Request(method, url, options)]: the data fields and the
    function-valued fields. *)
Definition newRequest (b : Builtins) (method url : string)
    (options : RequestOptions) : Request * @Handlers E :=
  ({| _url := url;
      _method := toUpperCase method;
      _headers := default ∅ (o_headers options);
      _query := [];
      _body := JUndefined;
      _timeout :=
        match o_timeout options with
        | Some (inl n) =>
            if n =? 0 then {| t_request := None; t_response := None |}
            else {| t_request := Some n; t_response := None |}
        | Some (inr t) => t
        | None => {| t_request := None; t_response := None |}
        end;
      _retry :=
        match o_retry options with
        | Some (inl n) => {| limit := Some n; methods := None;
                             statusCodes := None; delay := None |}
        | Some (inr o) => o
        | None => {| limit := Some 0; methods := None;
                     statusCodes := None; delay := None |}
        end;
      _throwHttpErrors := default true (o_throwHttpErrors options);
      _externalSignal := o_signal options;
      _credentials :=
        if truthyStr (o_credentials options)
        then default ""%string (o_credentials options)
        else "same-origin"%string;
      _redirect :=
        if truthyStr (o_redirect options)
        then default ""%string (o_redirect options)
        else "follow"%string;
      _attachments := [];
      _formFields := [] |},
   {| _hooks :=
        match o_hooks options with
        | Some hooks => mergeHooks hooks
        | None => emptyHooks
        end;
      _parseJson := default (JSON_parse b) (o_parseJson options);
      _stringifyJson := default (JSON_stringify b) (o_stringifyJson options);
      _customFetch := default (globalFetch b) (o_fetch options) |}).

(** [hook(name, fn)] *)
Inductive HookFn :=
| OnBeforeRequest (fn : @BeforeRequestHook E)
| OnAfterResponse (fn : @AfterResponseHook E)
| OnBeforeRetry (fn : @BeforeRetryHook E)
| OnBeforeError (fn : @BeforeErrorHook E).

Definition hook (fn : HookFn) (h : @Handlers E) : @Handlers E :=
  let hs := _hooks h in
  {| _hooks :=
       match fn with
       | OnBeforeRequest f =>
           {| beforeRequest := beforeRequest hs ++ [f];
              afterResponse := afterResponse hs;
              beforeRetry := beforeRetry hs; beforeError := beforeError hs |}
       | OnAfterResponse f =>
           {| beforeRequest := beforeRequest hs;
              afterResponse := afterResponse hs ++ [f];
              beforeRetry := beforeRetry hs; beforeError := beforeError hs |}
       | OnBeforeRetry f =>
           {| beforeRequest := beforeRequest hs;
              afterResponse := afterResponse hs;
              beforeRetry := beforeRetry hs ++ [f];
              beforeError := beforeError hs |}
       | OnBeforeError f =>
           {| beforeRequest := beforeRequest hs;
              afterResponse := afterResponse hs;
              beforeRetry := beforeRetry hs;
              beforeError := beforeError hs ++ [f] |}
       end;
     _parseJson := _parseJson h;
     _stringifyJson := _stringifyJson h;
     _customFetch := _customFetch h |}.

(** ** The instance factory *)

(** [InstanceOptions] *)
Record InstanceOptions := {
  baseURL : option string;
  prefixUrl : option string;
  requestOptions : RequestOptions
}.

(** The [defaults] of [createInstance(options)]: a copy of the options in
    which [prefixUrl] stands in for a missing [baseURL]. *)
Definition createInstance (options : InstanceOptions) : InstanceOptions :=
  if truthyStr (prefixUrl options) && negb (truthyStr (baseURL options))
  then {| baseURL := prefixUrl options; prefixUrl := prefixUrl options;
          requestOptions := requestOptions options |}
  else options.

Definition resolveUrl (defaults : InstanceOptions) (url : string) : string :=
  if truthyStr (baseURL defaults)
     && negb (startsWith "http://" url) && negb (startsWith "https://" url)
  then
    let baseUrl := default ""%string (baseURL defaults) in
    let base := if endsWith "/" baseUrl then dropLast baseUrl else baseUrl in
    let path := if startsWith "/" url then url else ("/" +:+ url)%string in
    base +:+ path
  else url.

(** [createRequest(method, url)]: the options handed to the constructor
    are ten of the defaults; [signal] is not among them. *)
Definition createRequest (b : Builtins) (defaults : InstanceOptions)
    (method url : string) : Request * @Handlers E :=
  let o := requestOptions defaults in
  newRequest b method (resolveUrl defaults url)
    {| o_headers := o_headers o;
       o_timeout := o_timeout o;
       o_retry := o_retry o;
       o_hooks := o_hooks o;
       o_throwHttpErrors := o_throwHttpErrors o;
       o_parseJson := o_parseJson o;
       o_stringifyJson := o_stringifyJson o;
       o_signal := false;
       o_credentials := o_credentials o;
       o_redirect := o_redirect o;
       o_fetch := o_fetch o |}.


(** [{ ...defaults, ...opts }]: a field that [opts] has wins.  [None] is
    a field that the object does not have; an own property that holds
    [undefined], which the spread would copy, is not represented. *)
Definition orOf {A} (a b : option A) : option A :=
  match a with Some _ => a | None => b end.

Definition mergeOptions (defaults opts : InstanceOptions) : InstanceOptions :=
  let d := requestOptions defaults in
  let o := requestOptions opts in
  {| baseURL := orOf (baseURL opts) (baseURL defaults);
     prefixUrl := orOf (prefixUrl opts) (prefixUrl defaults);
     requestOptions :=
       {| o_headers := orOf (o_headers o) (o_headers d);
          o_timeout := orOf (o_timeout o) (o_timeout d);
          o_retry := orOf (o_retry o) (o_retry d);
          o_hooks := orOf (o_hooks o) (o_hooks d);
          o_throwHttpErrors := orOf (o_throwHttpErrors o) (o_throwHttpErrors d);
          o_parseJson := orOf (o_parseJson o) (o_parseJson d);
          o_stringifyJson := orOf (o_stringifyJson o) (o_stringifyJson d);
          o_signal := o_signal o || o_signal d;
          o_credentials := orOf (o_credentials o) (o_credentials d);
          o_redirect := orOf (o_redirect o) (o_redirect d);
          o_fetch := orOf (o_fetch o) (o_fetch d) |} |}.

(** [instance.create(opts)] and [instance.extend(opts)] *)
Definition extend (defaults opts : InstanceOptions) : InstanceOptions :=
  createInstance (mergeOptions defaults opts).

End Factory.

(** * More concrete requests *)

Module Demo2.

Import Demo.

(** A request with throw-on-HTTP-error off. *)
Definition lenient : Request :=
  {| _url := "https://api.example.com/items";
     _method := "GET";
     _headers := ∅;
     _query := [];
     _body := JUndefined;
     _timeout := noTimeout;
     _retry := retryUpTo 0;
     _throwHttpErrors := false;
     _externalSignal := false;
     _credentials := "same-origin";
     _redirect := "follow";
     _attachments := [];
     _formFields := [] |}.


(** [.retry({ limit: 3, methods: ['POST'] })] on a POST *)
Definition postAllowed : Request :=
  request "POST"
    {| limit := Some 3; methods := Some ["POST"%string]; statusCodes := None;
       delay := None |}
    noTimeout.

(** [.timeout({ response: 5000 })] *)
Definition slowResponse : Request :=
  request "GET" (retryUpTo 0) {| t_request := None; t_response := Some 5000 |}.

Definition builtins : @Builtins nat :=
  {| JSON_parse := fun _ => None;
     JSON_stringify := fun _ => "{}"%string;
     globalFetch := respond 200 |}.

Definition noOptions : @RequestOptions nat :=
  {| o_headers := None; o_timeout := None; o_retry := None; o_hooks := None;
     o_throwHttpErrors := None; o_parseJson := None; o_stringifyJson := None;
     o_signal := false; o_credentials := None; o_redirect := None;
     o_fetch := None |}.

(** [{ headers: { 'Content-Type': 'text/plain' } }] *)
Definition casedHeader : @RequestOptions nat :=
  {| o_headers := Some {["Content-Type"%string := "text/plain"%string]};
     o_timeout := None; o_retry := None; o_hooks := None;
     o_throwHttpErrors := None; o_parseJson := None; o_stringifyJson := None;
     o_signal := false; o_credentials := None; o_redirect := None;
     o_fetch := None |}.

(** [{ signal, retry: 3, headers: { authorization: 'Bearer t' } }] *)
Definition parentOptions : @RequestOptions nat :=
  {| o_headers := Some {["authorization"%string := "Bearer t"%string]};
     o_timeout := None; o_retry := Some (inl 3); o_hooks := None;
     o_throwHttpErrors := None; o_parseJson := None; o_stringifyJson := None;
     o_signal := true; o_credentials := None; o_redirect := None;
     o_fetch := None |}.

(** [{ headers: { 'x-admin': 'true' } }] *)
Definition childOptions : @RequestOptions nat :=
  {| o_headers := Some {["x-admin"%string := "true"%string]};
     o_timeout := None; o_retry := None; o_hooks := None;
     o_throwHttpErrors := None; o_parseJson := None; o_stringifyJson := None;
     o_signal := false; o_credentials := None; o_redirect := None;
     o_fetch := None |}.

Definition api : @InstanceOptions nat :=
  {| baseURL := Some "https://api.example.com"%string; prefixUrl := None;
     requestOptions := parentOptions |}.


Definition admin : @InstanceOptions nat :=
  {| baseURL := None; prefixUrl := Some "https://admin.example.com"%string;
     requestOptions := childOptions |}.

End Demo2.

(** * The world, the loop and the headers

    Readings that do not go through the trace alone: what the hooks and
    the transport do to the world, how attempts and waits alternate, and
    what is known of the header names. *)

(** The steps of the execution loop: an attempt, or a backoff wait. *)
Inductive Step :=
| Attempt
| Wait (ms : Z).

Definition asStep (ev : Event) : option Step :=
  match ev with
  | EvDoFetch => Some Attempt
  | EvSleep ms => Some (Wait ms)
  | _ => None
  end.

(** The attempts and the waits, in the order they are made. *)
Definition steps (t : list Event) : list Step := omap asStep t.

Definition waitOf (st : Step) : option Z :=
  match st with
  | Wait ms => Some ms
  | Attempt => None
  end.

Fixpoint countAttempts (l : list Step) : nat :=
  match l with
  | [] => O
  | Attempt :: rest => S (countAttempts rest)
  | Wait _ :: rest => countAttempts rest
  end.

(** [k] attempts with, before the attempt of ordinal [first + i], the
    wait [wait (first + i)]: attempt, wait, attempt, ..., attempt. *)
Definition schedule (wait : Z -> Z) (first k : Z) : list Step :=
  Attempt :: flat_map (fun n => [Wait (wait n); Attempt]) (seqZ first (k - 1)).

(** Every header name is in lower case, as [set], [type], [accept] and
    [send] store it. *)
Definition lowerCaseNames (hs : gmap string string) : Prop :=
  forall k v, hs !! k = Some v -> toLowerCase k = k.

Section World.

Context {E : Type} {host : Host}.

(** [c] leaves the reading [obs] of the world as it is. *)
Definition steady {A X} (obs : E -> X) (c : @M E A) : Prop :=
  forall s, obs (env (snd (c s))) = obs (env s).

(** The transport and the hooks of an attempt leave the reading [obs] of
    the world as it is. *)
Definition attemptKeeps {X} (obs : E -> X) (h : @Handlers E) : Prop :=
  (forall url init e, obs (snd (_customFetch h url init e)) = obs e) /\
  Forall (fun hook : @BeforeRequestHook E =>
            forall r e, obs (snd (hook r e)) = obs e)
    (beforeRequest (_hooks h)) /\
  Forall (fun hook : @AfterResponseHook E =>
            forall r e, obs (snd (hook r e)) = obs e)
    (afterResponse (_hooks h)) /\
  Forall (fun hook : @BeforeErrorHook E =>
            forall err e, obs (snd (hook err e)) = obs e)
    (beforeError (_hooks h)).

(** The before-retry hooks keep a record of their calls: [seen i] reads,
    in the world, the ordinals that the hook at position [i] has been
    called with.  A call of the hook at position [first + k] adds its
    ordinal to [seen (first + k)], whether it returns or throws, and
    leaves the record of every other hook alone. *)
Definition recordsFrom (first : nat) (seen : nat -> E -> list Z)
    (hooks : list (@BeforeRetryHook E)) : Prop :=
  forall k hook, hooks !! k = Some hook ->
    forall err n e i,
      seen i (snd (hook err n e)) =
      seen i e ++ (if decide (i = (first + k)%nat) then [n] else []).

Definition recordsOrdinals (seen : nat -> E -> list Z)
    (hooks : list (@BeforeRetryHook E)) : Prop :=
  recordsFrom 0 seen hooks.

(** A before-request hook that returns and leaves the headers alone. *)
Definition leavesHeaders (hook : @BeforeRequestHook E) : Prop :=
  forall r e,
    fst (fst (hook r e)) = Return tt /\
    _headers (snd (fst (hook r e))) = _headers r.

End World.

(** * A world that is the record of the before-retry hooks *)

Module Demo3.

(** The calls noted so far: (position of the hook, ordinal). *)
Definition World := list (nat * Z).

(** A before-retry hook that notes the ordinal it is called with. *)
Definition noting (i : nat) : @BeforeRetryHook World :=
  fun _ n e => (Return tt, e ++ [(i, n)]).

Definition notedBy (i : nat) (e : World) : list Z :=
  omap (fun c : nat * Z => if decide (fst c = i) then Some (snd c) else None) e.

Definition notingHooks : @Hooks World :=
  {| beforeRequest := []; afterResponse := [];
     beforeRetry := [noting 0; noting 1]; beforeError := [] |}.

(** A transport that always answers with status [st]. *)
Definition answering (st : Z)
    : string -> FetchInit -> World -> Result NativeResponse * World :=
  fun _ _ e => (Return (Demo.native st), e).

Definition notingHandlers (hooks : @Hooks World)
    (fetch : string -> FetchInit -> World -> Result NativeResponse * World)
    : @Handlers World :=
  {| _hooks := hooks;
     _parseJson := fun _ => None;
     _stringifyJson := fun _ => "{}"%string;
     _customFetch := fetch |}.

Definition fresh (r : Request) : @State World :=
  {| this := r; env := []; armed := ∅; nextTimer := 1; trace := [] |}.

Definition notingRetry2 : @State World :=
  fresh (Demo.request "GET" (Demo.retryUpTo 2) Demo.noTimeout).

End Demo3.

(** * A content type given in the options of the constructor *)

Module Demo4.

Import Demo Demo2.

(** [{ headers: { 'Content-Type': 'application/json' } }] *)
Definition jsonDefault : @RequestOptions nat :=
  {| o_headers := Some {["Content-Type"%string := "application/json"%string]};
     o_timeout := None; o_retry := None; o_hooks := None;
     o_throwHttpErrors := None; o_parseJson := None; o_stringifyJson := None;
     o_signal := false; o_credentials := None; o_redirect := None;
     o_fetch := None |}.

(** [new Request('post', '/upload', { headers: { 'Content-Type':
    'application/json' } }).field('email', 'a@example.com')] *)
Definition uploadWithOption : Request :=
  field "email" (Some "a@example.com"%string)
    (fst (newRequest builtins "post" "/upload" jsonDefault)).

(** [new Request('post', '/upload').set('Content-Type',
    'application/json').field('email', 'a@example.com')] *)
Definition uploadWithSet : Request :=
  field "email" (Some "a@example.com"%string)
    (set "Content-Type" (Some "application/json"%string)
       (fst (newRequest builtins "post" "/upload" noOptions))).

Definition uploadHandlers : @Handlers nat :=
  snd (newRequest builtins "post" "/upload" jsonDefault).

End Demo4.

(** * Properties *)

Section Facts.

Context {E : Type} {host : Host}.

#[local] Abbreviation M := (@M E).
#[local] Abbreviation State := (@State E).
#[local] Abbreviation Handlers := (@Handlers E).

Implicit Types (s : State) (h : Handlers).

(** ** Steps inside an attempt *)

Lemma innerOf_refl s : innerOf s s.
Proof.
  repeat split. exists []. split; [symmetry; apply app_nil_r | constructor].
Qed.

Lemma innerOf_trans s1 s2 s3 : innerOf s1 s2 -> innerOf s2 s3 -> innerOf s1 s3.
Proof.
  intros (U1 & M1 & T1 & X1 & evs1 & Tr1 & F1) (U2 & M2 & T2 & X2 & evs2 & Tr2 & F2).
  repeat split; try congruence.
  exists (evs1 ++ evs2). split.
  - rewrite Tr2, Tr1. symmetry. apply app_assoc.
  - apply Forall_app; split; assumption.
Qed.

Lemma innerOf_log ev s : loopEvent ev = false -> innerOf s (log ev s).
Proof.
  intros Hev. repeat split. exists [ev]. split; [reflexivity |].
  constructor; [assumption | constructor].
Qed.

Lemma innerOf_setEnv e s : innerOf s (setEnv e s).
Proof.
  repeat split. exists []. split; [symmetry; apply app_nil_r | constructor].
Qed.

Lemma inner_ret {A} (a : A) : inner (@ret E A a).
Proof. intros s. apply innerOf_refl. Qed.

Lemma inner_throw {A} e : inner (@throw E A e).
Proof. intros s. apply innerOf_refl. Qed.

Lemma inner_bind {A B} (c : M A) (k : A -> M B) :
  inner c -> (forall a, inner (k a)) -> inner (bind c k).
Proof.
  intros Hc Hk s. unfold bind. specialize (Hc s).
  destruct (c s) as [[a|e] s1]; cbn in *; [| exact Hc].
  eapply innerOf_trans; [exact Hc | apply Hk].
Qed.

Lemma inner_emit ev : loopEvent ev = false -> inner (@emit E ev).
Proof. intros Hev s. apply innerOf_log, Hev. Qed.

Lemma inner_callBeforeRequest hook : inner (@callBeforeRequest E hook).
Proof.
  intros s. unfold callBeforeRequest.
  destruct (hook (this s) (env s)) as [[r t'] e']. cbn.
  repeat split. exists []. split; [symmetry; apply app_nil_r | constructor].
Qed.

Lemma inner_callAfterResponse hook response :
  inner (@callAfterResponse E hook response).
Proof.
  intros s. unfold callAfterResponse.
  destruct (hook response (env s)) as [r e']. apply innerOf_setEnv.
Qed.

Lemma inner_callBeforeError hook error :
  inner (@callBeforeError E hook error).
Proof.
  intros s. unfold callBeforeError.
  destruct (hook error (env s)) as [r e']. apply innerOf_setEnv.
Qed.

Lemma inner_runBeforeRequest hooks : forall i, inner (@runBeforeRequest E i hooks).
Proof.
  induction hooks as [|hook rest IH]; intros i; cbn.
  - apply inner_ret.
  - apply inner_bind; [apply inner_emit; reflexivity | intros _].
    apply inner_bind; [apply inner_callBeforeRequest | intros _; apply IH].
Qed.

Lemma inner_runAfterResponse hooks :
  forall i response, inner (@runAfterResponse E i hooks response).
Proof.
  induction hooks as [|hook rest IH]; intros i response; cbn.
  - apply inner_ret.
  - apply inner_bind; [apply inner_emit; reflexivity | intros _].
    apply inner_bind; [apply inner_callAfterResponse | intros r; apply IH].
Qed.

Lemma inner_runBeforeError hooks :
  forall i error, inner (@runBeforeError E i hooks error).
Proof.
  induction hooks as [|hook rest IH]; intros i error; cbn.
  - apply inner_ret.
  - apply inner_bind; [apply inner_emit; reflexivity | intros _].
    apply inner_bind; [apply inner_callBeforeError | intros r; apply IH].
Qed.

Lemma inner_prepareBody h : inner (prepareBody h).
Proof.
  intros s. unfold prepareBody.
  destruct (encodeBody h (this s)) as [payload r] eqn:Henc. cbn.
  assert (Hr : _url r = _url (this s) /\ _method r = _method (this s) /\
               _throwHttpErrors r = _throwHttpErrors (this s) /\
               _externalSignal r = _externalSignal (this s)).
  { unfold encodeBody in Henc.
    repeat match type of Henc with
           | context [if ?b then _ else _] => destruct b
           | context [match ?v with JUndefined => _ | _ => _ end] => destruct v
           end; inversion Henc; subst; cbn; auto. }
  destruct Hr as (? & ? & ? & ?).
  repeat split; try assumption.
  exists []. split; [symmetry; apply app_nil_r | constructor].
Qed.

Lemma inner_setTimeout ms : inner (@setTimeout E ms).
Proof.
  intros s. unfold setTimeout. cbn. repeat split.
  exists [EvSetTimeout (nextTimer s) ms]. split; [reflexivity |].
  constructor; [reflexivity | constructor].
Qed.

Lemma innerOf_onFinally timeoutId s : innerOf s (onFinally timeoutId s).
Proof.
  destruct timeoutId as [id|]; cbn; [| apply innerOf_refl].
  repeat split. exists [EvClearTimeout id]. split; [reflexivity |].
  constructor; [reflexivity | constructor].
Qed.

Lemma inner_prepare h : inner (prepare h).
Proof.
  intros s. unfold prepare.
  apply (inner_bind (prepareBody h)); [apply inner_prepareBody | intros payload].
  apply inner_bind; [apply inner_emit; reflexivity | intros _].
  apply inner_bind.
  - intros s1. destruct (_externalSignal (this s1)).
    + apply inner_emit. reflexivity.
    + apply inner_ret.
  - intros _ s2.
    destruct (orElse _ _) as [ms|] eqn:Ht; [| apply inner_ret].
    destruct (truthyNum (Some ms)); [| apply inner_ret].
    apply inner_bind; [apply inner_setTimeout | intros id; apply inner_ret].
Qed.

Lemma inner_callFetch h url payload : inner (callFetch h url payload).
Proof.
  intros s. unfold callFetch.
  destruct (_customFetch h url _ (env s)) as [r e']. cbn.
  repeat split. eexists [_]. split; [reflexivity |].
  constructor; [reflexivity | constructor].
Qed.

Lemma inner_settle h fetchResponse : inner (settle h fetchResponse).
Proof.
  unfold settle. apply inner_bind; [apply inner_runAfterResponse |].
  intros response s. unfold throwOrReturn.
  destruct (_throwHttpErrors (this s) && negb (n_ok fetchResponse)).
  - apply inner_bind; [apply inner_runBeforeError | intros e; apply inner_throw].
  - apply inner_ret.
Qed.

Lemma inner_exchange h url payload : inner (exchange h url payload).
Proof.
  unfold exchange. apply inner_bind; [apply inner_callFetch |].
  intros fetchResponse. apply inner_settle.
Qed.

Lemma inner_onCatch error : inner (@onCatch E error).
Proof.
  unfold onCatch. destruct (errName error) as [n|]; [| apply inner_throw].
  destruct (String.eqb n "AbortError"); apply inner_throw.
Qed.

Lemma inner_tryCatchFinally {A} (c : M A) handler timeoutId :
  inner c -> (forall e, inner (handler e)) ->
  inner (tryCatchFinally c handler (onFinally timeoutId)).
Proof.
  intros Hc Hh s. unfold tryCatchFinally. specialize (Hc s).
  destruct (c s) as [[a|e] s1]; cbn in *.
  - eapply innerOf_trans; [exact Hc | apply innerOf_onFinally].
  - specialize (Hh e s1). destruct (handler e s1) as [r s2]. cbn in *.
    eapply innerOf_trans; [exact Hc |].
    eapply innerOf_trans; [exact Hh | apply innerOf_onFinally].
Qed.

Lemma inner_doFetchBody h : inner (doFetchBody h).
Proof.
  unfold doFetchBody. apply inner_bind; [apply inner_prepare |].
  intros [[url payload] timeoutId].
  apply inner_bind; [apply inner_runBeforeRequest | intros _].
  apply inner_tryCatchFinally; [apply inner_exchange | apply inner_onCatch].
Qed.

Lemma doFetch_unfold h s : doFetch h s = doFetchBody h (log EvDoFetch s).
Proof. reflexivity. Qed.

(** What an attempt adds to an outer reading of the trace is its entry. *)
Lemma innerOf_outer {X} (π : Event -> option X) s s' :
  outer π -> innerOf s s' -> omap π (trace s') = omap π (trace s).
Proof.
  intros Hπ (_ & _ & _ & _ & evs & -> & Hevs).
  rewrite omap_app.
  assert (omap π evs = []) as ->; [| apply app_nil_r].
  induction Hevs as [|ev evs Hev _ IH]; [reflexivity |].
  cbn. rewrite (Hπ ev Hev). exact IH.
Qed.

Lemma doFetch_outer {X} (π : Event -> option X) h s :
  outer π ->
  omap π (trace (snd (doFetch h s))) = omap π (trace s) ++ option_list (π EvDoFetch).
Proof.
  intros Hπ. rewrite doFetch_unfold.
  rewrite (innerOf_outer π _ _ Hπ (inner_doFetchBody h (log EvDoFetch s))).
  cbn. rewrite omap_app. cbn. destruct (π EvDoFetch); reflexivity.
Qed.

Lemma outer_asDoFetch : outer asDoFetch.
Proof. intros [] Hev; try reflexivity; discriminate. Qed.

Lemma outer_asBeforeRetry : outer asBeforeRetry.
Proof. intros [] Hev; try reflexivity; discriminate. Qed.

Lemma outer_asBeforeRetryOf i : outer (asBeforeRetryOf i).
Proof. intros [] Hev; try reflexivity; discriminate. Qed.

Lemma outer_asSleep : outer asSleep.
Proof. intros [] Hev; try reflexivity; discriminate. Qed.

(** One call of [doFetch] is one attempt, with no before-retry hook call
    and no backoff wait in it. *)
Lemma doFetch_counts h s :
  let s' := snd (doFetch h s) in
  doFetchCalls (trace s') = S (doFetchCalls (trace s)) /\
  beforeRetryCalls (trace s') = beforeRetryCalls (trace s) /\
  (forall i, retryOrdinals i (trace s') = retryOrdinals i (trace s)) /\
  sleeps (trace s') = sleeps (trace s).
Proof.
  intros s'. subst s'.
  unfold doFetchCalls, beforeRetryCalls, retryOrdinals, sleeps.
  repeat split.
  - rewrite (doFetch_outer _ h s outer_asDoFetch), length_app. cbn. lia.
  - rewrite (doFetch_outer _ h s outer_asBeforeRetry). apply app_nil_r.
  - intros i. rewrite (doFetch_outer _ h s (outer_asBeforeRetryOf i)).
    apply app_nil_r.
  - rewrite (doFetch_outer _ h s outer_asSleep). apply app_nil_r.
Qed.

Lemma doFetch_private h s :
  let s' := snd (doFetch h s) in
  _method (this s') = _method (this s) /\
  _throwHttpErrors (this s') = _throwHttpErrors (this s).
Proof.
  intros s'. subst s'. rewrite doFetch_unfold.
  destruct (inner_doFetchBody h (log EvDoFetch s)) as (_ & Hm & Ht & _).
  split; assumption.
Qed.

(** ** The execution loop *)

(** The loop, one iteration unfolded. *)
Lemma attempts_unfold h p fuel attempt lastError s :
  attempts h p (S fuel) attempt lastError s =
  match doFetch h s with
  | (Return response, s1) => (Return response, s1)
  | (Throw error, s1) =>
      if rethrows p (_method (this s1)) attempt error then (Throw error, s1)
      else
        match runBeforeRetry 0 (beforeRetry (_hooks h)) error (attempt + 1) s1 with
        | (Return _, s2) =>
            attempts h p fuel (attempt + 1) error
              (log (EvSleep (retryDelay p (attempt + 1))) s2)
        | (Throw e, s2) => (Throw e, s2)
        end
  end.
Proof.
  cbn [attempts]. destruct (doFetch h s) as [[response|error] s1]; [reflexivity |].
  unfold bind, onAttemptError.
  destruct (rethrows p (_method (this s1)) attempt error); [reflexivity |].
  unfold bind, sleep, emit.
  destruct (runBeforeRetry 0 _ error (attempt + 1) s1) as [[[]|e] s2]; reflexivity.
Qed.

(** The fuel of [execute] is the number of iterations of the [for]: the
    loop goes on exactly while [attempt <= retryLimit]. *)
Lemma attempts_fuel h p attempt lastError s :
  attempts h p (Z.to_nat (retryLimit p + 1 - attempt)) attempt lastError s =
  if attempt <=? retryLimit p then
    attempts h p (S (Z.to_nat (retryLimit p + 1 - (attempt + 1)))) attempt
      lastError s
  else (Throw lastError, s).
Proof.
  destruct (Z.leb_spec attempt (retryLimit p)) as [Hle|Hgt].
  - f_equal. lia.
  - replace (Z.to_nat (retryLimit p + 1 - attempt)) with O by lia. reflexivity.
Qed.

Lemma attempts_success h p fuel attempt lastError s response s1 :
  doFetch h s = (Return response, s1) ->
  attempts h p (S fuel) attempt lastError s = (Return response, s1).
Proof. intros Hf. rewrite attempts_unfold, Hf. reflexivity. Qed.

Lemma attempts_rethrow h p fuel attempt lastError s error s1 :
  doFetch h s = (Throw error, s1) ->
  rethrows p (_method (this s1)) attempt error = true ->
  attempts h p (S fuel) attempt lastError s = (Throw error, s1).
Proof. intros Hf Hr. rewrite attempts_unfold, Hf, Hr. reflexivity. Qed.

Lemma execute_unfold h s :
  execute h s =
  attempts h (policyOf (this s))
    (Z.to_nat (retryLimit (policyOf (this s)) + 1)) 0 ENull s.
Proof. reflexivity. Qed.

Lemma execute_first h s :
  0 <= retryLimit (policyOf (this s)) ->
  execute h s =
  attempts h (policyOf (this s))
    (S (Z.to_nat (retryLimit (policyOf (this s))))) 0 ENull s.
Proof. intros Hl. rewrite execute_unfold. f_equal. lia. Qed.

Lemma doFetch_counts_eq h s r s1 :
  doFetch h s = (r, s1) ->
  doFetchCalls (trace s1) = S (doFetchCalls (trace s)) /\
  beforeRetryCalls (trace s1) = beforeRetryCalls (trace s) /\
  (forall i, retryOrdinals i (trace s1) = retryOrdinals i (trace s)) /\
  sleeps (trace s1) = sleeps (trace s).
Proof.
  intros Hf. pose proof (doFetch_counts h s) as Hc. rewrite Hf in Hc. exact Hc.
Qed.

Lemma doFetch_private_eq h s r s1 :
  doFetch h s = (r, s1) ->
  _method (this s1) = _method (this s) /\
  _throwHttpErrors (this s1) = _throwHttpErrors (this s).
Proof.
  intros Hf. pose proof (doFetch_private h s) as Hc. rewrite Hf in Hc. exact Hc.
Qed.

(** ** Failures the loop does not retry *)

(** C5.  When the request's method is not in the retry allow-list and the
    attempt fails with an [HTTPError] whose status is retryable, [execute]
    raises that error after exactly one attempt, with no before-retry hook
    call and no backoff wait, whatever the retry limit (a limit is a
    number of extra attempts, so not negative). *)
Theorem non_retryable_method_fails_once h s response s1 :
  0 <= retryLimit (policyOf (this s)) ->
  includesStr (retryMethods (policyOf (this s))) (_method (this s)) = false ->
  doFetch h s = (Throw (HTTPError response), s1) ->
  includesNum (retryStatusCodes (policyOf (this s))) (status response) = true ->
  execute h s = (Throw (HTTPError response), s1) /\
  doFetchCalls (trace s1) = S (doFetchCalls (trace s)) /\
  beforeRetryCalls (trace s1) = beforeRetryCalls (trace s) /\
  sleeps (trace s1) = sleeps (trace s).
Proof.
  intros Hlimit Hmethod Hfetch _.
  destruct (doFetch_counts_eq _ _ _ _ Hfetch) as (Hcalls & Hretry & _ & Hsleeps).
  destruct (doFetch_private_eq _ _ _ _ Hfetch) as (Hm & _).
  split; [| auto].
  rewrite execute_first by exact Hlimit.
  apply attempts_rethrow; [exact Hfetch |].
  unfold rethrows. rewrite Hm, Hmethod. reflexivity.
Qed.

(** C6.  A [TimeoutError] is what the [catch] of [doFetch] makes of an
    error named AbortError, and the loop never retries it: at any attempt
    and with any budget left, the iteration rethrows it at once, with no
    before-retry hook call and no backoff wait. *)
Theorem timeout_error_is_terminal h p fuel attempt lastError s s1 :
  doFetch h s = (Throw TimeoutError, s1) ->
  attempts h p (S fuel) attempt lastError s = (Throw TimeoutError, s1) /\
  (0 <= retryLimit (policyOf (this s)) ->
   execute h s = (Throw TimeoutError, s1)) /\
  doFetchCalls (trace s1) = S (doFetchCalls (trace s)) /\
  beforeRetryCalls (trace s1) = beforeRetryCalls (trace s) /\
  sleeps (trace s1) = sleeps (trace s) /\
  (forall message s', 
     @onCatch E (NamedError "AbortError" message) s' = (Throw TimeoutError, s')).
Proof.
  intros Hfetch.
  destruct (doFetch_counts_eq _ _ _ _ Hfetch) as (Hcalls & Hretry & _ & Hsleeps).
  assert (Hre : forall q a, rethrows q (_method (this s1)) a TimeoutError = true).
  { intros q a. unfold rethrows. cbn [isTimeoutError].
    destruct (negb _); reflexivity. }
  repeat split; try assumption.
  - apply attempts_rethrow; [exact Hfetch | apply Hre].
  - intros Hlimit. rewrite execute_first by exact Hlimit.
    apply attempts_rethrow; [exact Hfetch | apply Hre].
Qed.

(** ** Response shortcuts *)

(** C10.  [blob()] and [arrayBuffer()] call [doFetch] itself: one attempt,
    no before-retry hook call, no backoff wait, whatever the retry limit;
    [then()], [json()], [text()] and [end()] run [execute]. *)
Theorem blob_arrayBuffer_bypass_loop h s :
  (snd (blob h s) = snd (doFetch h s) /\
   doFetchCalls (trace (snd (blob h s))) = S (doFetchCalls (trace s)) /\
   beforeRetryCalls (trace (snd (blob h s))) = beforeRetryCalls (trace s) /\
   sleeps (trace (snd (blob h s))) = sleeps (trace s)) /\
  (snd (arrayBuffer h s) = snd (doFetch h s) /\
   doFetchCalls (trace (snd (arrayBuffer h s))) = S (doFetchCalls (trace s)) /\
   beforeRetryCalls (trace (snd (arrayBuffer h s))) = beforeRetryCalls (trace s) /\
   sleeps (trace (snd (arrayBuffer h s))) = sleeps (trace s)) /\
  (then_ h s = execute h s /\
   snd (json h s) = snd (execute h s) /\
   snd (text_ h s) = snd (execute h s) /\
   snd (end_ h s) = snd (execute h s)).
Proof.
  assert (Hb : snd (blob h s) = snd (doFetch h s)).
  { unfold blob, bind. destruct (doFetch h s) as [[r|e] s1]; reflexivity. }
  assert (Ha : snd (arrayBuffer h s) = snd (doFetch h s)).
  { unfold arrayBuffer, bind. destruct (doFetch h s) as [[r|e] s1]; reflexivity. }
  destruct (doFetch_counts h s) as (Hcalls & Hretry & _ & Hsleeps).
  split; [| split].
  - rewrite Hb. auto.
  - rewrite Ha. auto.
  - repeat split.
    + unfold json, bind. destruct (execute h s) as [[r|e] s1]; reflexivity.
    + unfold text_, bind. destruct (execute h s) as [[r|e] s1]; reflexivity.
    + unfold end_. destruct (execute h s) as [[r|e] s1]; reflexivity.
Qed.

(** ** A transport that always fails with a retryable status *)

Lemma runBeforeRequest_returns hooks :
  Forall returnsBR hooks ->
  forall i s, exists s', @runBeforeRequest E i hooks s = (Return tt, s').
Proof.
  induction 1 as [|hook rest Hhook _ IH]; intros i s; cbn.
  - eexists. reflexivity.
  - unfold bind, emit, callBeforeRequest.
    specialize (Hhook (this (log (EvBeforeRequest i) s))
                      (env (log (EvBeforeRequest i) s))).
    destruct (hook _ _) as [[r t'] e']. cbn in Hhook. subst r. apply IH.
Qed.

Lemma runAfterResponse_keeps (P : Response -> Prop) hooks :
  Forall (keepsAR P) hooks ->
  forall i r s, P r ->
    exists r' s', @runAfterResponse E i hooks r s = (Return r', s') /\ P r'.
Proof.
  induction 1 as [|hook rest Hhook _ IH]; intros i r s Hr; cbn.
  - exists r, s. split; [reflexivity | exact Hr].
  - unfold bind, emit, callAfterResponse.
    specialize (Hhook r (env (log (EvAfterResponse i r) s)) Hr).
    destruct (hook _ _) as [[[r'|]|e] e']; cbn in Hhook.
    + apply IH, Hhook.
    + apply IH, Hr.
    + destruct Hhook.
Qed.

Lemma runBeforeError_keeps (P : Response -> Prop) hooks :
  Forall (keepsBE P) hooks ->
  forall i r s, P r ->
    exists r' s',
      @runBeforeError E i hooks (HTTPError r) s = (Return (HTTPError r'), s') /\
      P r'.
Proof.
  induction 1 as [|hook rest Hhook _ IH]; intros i r s Hr; cbn.
  - exists r, s. split; [reflexivity | exact Hr].
  - unfold bind, emit, callBeforeError.
    destruct (Hhook r (env (log (EvBeforeError i (HTTPError r)) s)) Hr)
      as (r' & Hcall & Hr').
    destruct (hook _ _) as [res e']. cbn in Hcall. subst res.
    apply IH, Hr'.
Qed.

Lemma runBeforeRetry_returns hooks :
  Forall returnsRT hooks ->
  forall i e n s,
    exists s',
      @runBeforeRetry E i hooks e n s = (Return tt, s') /\
      this s' = this s /\
      trace s' = trace s ++ retryEvents i (length hooks) e n.
Proof.
  induction 1 as [|hook rest Hhook _ IH]; intros i e n s; cbn.
  - exists s. repeat split. symmetry. apply app_nil_r.
  - unfold bind, emit, callBeforeRetry.
    specialize (Hhook e n (env (log (EvBeforeRetry i e n) s))).
    destruct (hook _ _ _) as [res e']. cbn in Hhook. subst res.
    destruct (IH (S i) e n (setEnv e' (log (EvBeforeRetry i e n) s)))
      as (s' & Hrun & Hthis & Htrace).
    exists s'. split; [exact Hrun |]. split; [exact Hthis |].
    rewrite Htrace. cbn. rewrite <- app_assoc. reflexivity.
Qed.

Lemma retryEvents_ordinals j len : forall i e n,
  omap (asBeforeRetryOf j) (retryEvents i len e n) =
  if decide (i <= j < i + len)%nat then [n] else [].
Proof.
  induction len as [|len IH]; intros i e n; cbn.
  - case_decide; [lia | reflexivity].
  - rewrite IH. repeat case_decide; try reflexivity; lia.
Qed.

Lemma retryEvents_outer {X} (π : Event -> option X) len :
  (forall i e n, π (EvBeforeRetry i e n) = None) ->
  forall i e n, omap π (retryEvents i len e n) = [].
Proof.
  intros Hπ. induction len as [|len IH]; intros i e n; cbn; [reflexivity |].
  rewrite Hπ. apply IH.
Qed.

Lemma prepare_returns h s :
  exists p s', prepare h s = (Return p, s') /\ innerOf s s'.
Proof.
  pose proof (inner_prepare h s) as Hin.
  assert (Hret : exists p s', prepare h s = (Return p, s')).
  { unfold prepare, bind, prepareBody, emit.
    destruct (encodeBody h (this s)) as [payload r].
    match goal with
    | |- context [if ?b then _ else _] => destruct b
    end; cbn;
    match goal with
    | |- context [orElse ?a ?b] => destruct (orElse a b) as [ms|]
    end; try (destruct (truthyNum (Some ms))); cbn; eauto. }
  destruct Hret as (p & s' & Hp). rewrite Hp in Hin. eauto.
Qed.

Section AlwaysFailing.

Variables (h : Handlers) (codes : list Z).
Hypothesis Htransport : alwaysFailsWith codes h.
Hypothesis HbeforeRequest : Forall returnsBR (beforeRequest (_hooks h)).
Hypothesis HafterResponse :
  Forall (keepsAR (retryableStatus codes)) (afterResponse (_hooks h)).
Hypothesis HbeforeError :
  Forall (keepsBE (retryableStatus codes)) (beforeError (_hooks h)).

Lemma settle_fails nr s :
  _throwHttpErrors (this s) = true ->
  n_ok nr = false ->
  includesNum codes (n_status nr) = true ->
  exists r s', settle h nr s = (Throw (HTTPError r), s') /\
               retryableStatus codes r.
Proof.
  intros Hflag Hok Hst. unfold settle, throwOrReturn, bind.
  pose proof (inner_runAfterResponse (afterResponse (_hooks h)) 0%nat
                (newResponse nr (n_text nr) (decodeBody h nr)) s) as Hin.
  destruct (runAfterResponse_keeps _ _ HafterResponse 0%nat
              (newResponse nr (n_text nr) (decodeBody h nr)) s Hst)
    as (r1 & s1 & Hrun & Hr1).
  rewrite Hrun in *. cbn in Hin. destruct Hin as (_ & _ & Hflag1 & _).
  rewrite Hflag1, Hflag, Hok. cbn.
  destruct (runBeforeError_keeps _ _ HbeforeError 0%nat r1 s1 Hr1)
    as (r2 & s2 & Hrun2 & Hr2).
  rewrite Hrun2. exists r2, s2. split; [reflexivity | exact Hr2].
Qed.

Lemma exchange_fails url payload s :
  _throwHttpErrors (this s) = true ->
  exists r s', exchange h url payload s = (Throw (HTTPError r), s') /\
               retryableStatus codes r.
Proof.
  intros Hflag. unfold exchange, bind, callFetch.
  match goal with
  | |- context [_customFetch h url ?init (env s)] =>
      destruct (Htransport url init (env s)) as (nr & e' & Hcall & Hok & Hst);
      rewrite Hcall
  end.
  apply settle_fails; assumption.
Qed.

Lemma doFetch_fails s :
  _throwHttpErrors (this s) = true ->
  exists r s', doFetch h s = (Throw (HTTPError r), s') /\
               retryableStatus codes r.
Proof.
  intros Hflag. rewrite doFetch_unfold. unfold doFetchBody, bind.
  destruct (prepare_returns h (log EvDoFetch s))
    as ([[url payload] timeoutId] & s1 & Hprep & Hin1).
  rewrite Hprep.
  destruct (runBeforeRequest_returns _ HbeforeRequest 0%nat s1) as (s2 & Hrun).
  pose proof (inner_runBeforeRequest (beforeRequest (_hooks h)) 0%nat s1) as Hin2.
  rewrite Hrun in *. cbn in Hin2.
  assert (Hflag2 : _throwHttpErrors (this s2) = true).
  { destruct Hin1 as (_ & _ & Hf1 & _). destruct Hin2 as (_ & _ & Hf2 & _).
    rewrite Hf2, Hf1. exact Hflag. }
  destruct (exchange_fails url payload s2 Hflag2) as (r & s3 & Hex & Hr).
  unfold tryCatchFinally. rewrite Hex. cbn.
  exists r, (onFinally timeoutId s3). split; [reflexivity | exact Hr].
Qed.

Variable p : Policy.
Hypothesis Hcodes : codes = retryStatusCodes p.
Hypothesis HbeforeRetry : Forall returnsRT (beforeRetry (_hooks h)).

Lemma trace_after_retry s1 s2 e n ms :
  trace s2 = trace s1 ++ retryEvents 0 (length (beforeRetry (_hooks h))) e n ->
  let s3 := log (EvSleep ms) s2 in
  doFetchCalls (trace s3) = doFetchCalls (trace s1) /\
  (forall i, (i < length (beforeRetry (_hooks h)))%nat ->
     retryOrdinals i (trace s3) = retryOrdinals i (trace s1) ++ [n]) /\
  sleeps (trace s3) = sleeps (trace s1) ++ [ms].
Proof.
  intros Htrace s3. subst s3.
  unfold doFetchCalls, retryOrdinals, sleeps. cbn [trace log].
  rewrite Htrace. repeat split.
  - rewrite !omap_app, retryEvents_outer by reflexivity. cbn.
    rewrite !app_nil_r. reflexivity.
  - intros i Hi. rewrite !omap_app, retryEvents_ordinals. cbn.
    case_decide; [| lia]. rewrite app_nil_r. reflexivity.
  - rewrite !omap_app, retryEvents_outer by reflexivity. cbn.
    rewrite app_nil_r. reflexivity.
Qed.

Lemma attempts_all_fail n : forall attempt lastError s,
  retryLimit p = attempt + Z.of_nat n ->
  _throwHttpErrors (this s) = true ->
  includesStr (retryMethods p) (_method (this s)) = true ->
  exists r s',
    attempts h p (S n) attempt lastError s = (Throw (HTTPError r), s') /\
    retryableStatus codes r /\
    doFetchCalls (trace s') = (doFetchCalls (trace s) + S n)%nat /\
    (forall i, (i < length (beforeRetry (_hooks h)))%nat ->
       retryOrdinals i (trace s') =
       retryOrdinals i (trace s) ++ seqZ (attempt + 1) (Z.of_nat n)) /\
    sleeps (trace s') =
    sleeps (trace s) ++ (retryDelay p <$> seqZ (attempt + 1) (Z.of_nat n)).
Proof.
  induction n as [|n IH]; intros attempt lastError s Hlimit Hflag Hmethod;
    destruct (doFetch_fails s Hflag) as (r & s1 & Hfetch & Hr);
    destruct (doFetch_counts_eq _ _ _ _ Hfetch) as (Hcalls & _ & Hord & Hsl);
    destruct (doFetch_private_eq _ _ _ _ Hfetch) as (Hm1 & Hf1);
    rewrite attempts_unfold, Hfetch;
    unfold rethrows; rewrite Hm1, Hmethod; cbn [negb orb isTimeoutError httpNotRetryable];
    pose proof Hr as Hr'; unfold retryableStatus in Hr'; rewrite Hcodes in Hr';
    rewrite Hr'; cbn [negb orb].
  - replace (attempt >=? retryLimit p) with true by lia.
    exists r, s1. repeat split; try assumption.
    + rewrite Hcalls. lia.
    + intros i _. rewrite Hord. cbn. symmetry. apply app_nil_r.
    + rewrite Hsl. cbn. symmetry. apply app_nil_r.
  - replace (attempt >=? retryLimit p) with false by lia.
    destruct (runBeforeRetry_returns _ HbeforeRetry 0%nat (HTTPError r)
                (attempt + 1) s1) as (s2 & Hrun & Hthis & Htrace).
    rewrite Hrun.
    destruct (trace_after_retry s1 s2 _ _ (retryDelay p (attempt + 1)) Htrace)
      as (Hc3 & Ho3 & Hs3).
    destruct (IH (attempt + 1) (HTTPError r)
                (log (EvSleep (retryDelay p (attempt + 1))) s2))
      as (r' & s' & Hrest & Hr2 & Hc & Ho & Hs).
    + lia.
    + cbn. rewrite Hthis, Hf1. exact Hflag.
    + cbn. rewrite Hthis, Hm1. exact Hmethod.
    + exists r', s'. split; [exact Hrest |]. split; [exact Hr2 |].
      rewrite (seqZ_cons (attempt + 1) (Z.of_nat (S n))) by lia.
      replace (Z.pred (Z.of_nat (S n))) with (Z.of_nat n) by lia.
      replace (Z.succ (attempt + 1)) with (attempt + 1 + 1) by lia.
      repeat split.
      * rewrite Hc, Hc3, Hcalls. lia.
      * intros i Hi. rewrite (Ho i Hi), (Ho3 i Hi), Hord.
        rewrite <- app_assoc. reflexivity.
      * rewrite Hs, Hs3, Hsl. cbn. rewrite <- app_assoc. reflexivity.
Qed.

End AlwaysFailing.

(** ** The world during a run *)

Section Steady.

Context {X : Type} (obs : E -> X).

Lemma steady_ret {A} (a : A) : steady obs (@ret E A a).
Proof. intros s. reflexivity. Qed.

Lemma steady_throw {A} e : steady obs (@throw E A e).
Proof. intros s. reflexivity. Qed.

Lemma steady_bind {A B} (c : M A) (k : A -> M B) :
  steady obs c -> (forall a, steady obs (k a)) -> steady obs (bind c k).
Proof.
  intros Hc Hk s. unfold bind. specialize (Hc s).
  destruct (c s) as [[a|e] s1]; cbn in *; [| exact Hc].
  rewrite Hk. exact Hc.
Qed.

Lemma steady_emit ev : steady obs (@emit E ev).
Proof. intros s. reflexivity. Qed.

Lemma steady_runBeforeRequest hooks :
  Forall (fun hook : @BeforeRequestHook E =>
            forall r e, obs (snd (hook r e)) = obs e) hooks ->
  forall i, steady obs (@runBeforeRequest E i hooks).
Proof.
  induction 1 as [|hook rest Hhook _ IH]; intros i; cbn.
  - apply steady_ret.
  - apply steady_bind; [apply steady_emit | intros _].
    apply steady_bind; [| intros _; apply IH].
    intros s. unfold callBeforeRequest. specialize (Hhook (this s) (env s)).
    destruct (hook (this s) (env s)) as [[r t'] e']. exact Hhook.
Qed.

Lemma steady_runAfterResponse hooks :
  Forall (fun hook : @AfterResponseHook E =>
            forall r e, obs (snd (hook r e)) = obs e) hooks ->
  forall i response, steady obs (@runAfterResponse E i hooks response).
Proof.
  induction 1 as [|hook rest Hhook _ IH]; intros i response; cbn.
  - apply steady_ret.
  - apply steady_bind; [apply steady_emit | intros _].
    apply steady_bind; [| intros r; apply IH].
    intros s. unfold callAfterResponse. specialize (Hhook response (env s)).
    destruct (hook response (env s)) as [r e']. exact Hhook.
Qed.

Lemma steady_runBeforeError hooks :
  Forall (fun hook : @BeforeErrorHook E =>
            forall err e, obs (snd (hook err e)) = obs e) hooks ->
  forall i error, steady obs (@runBeforeError E i hooks error).
Proof.
  induction 1 as [|hook rest Hhook _ IH]; intros i error; cbn.
  - apply steady_ret.
  - apply steady_bind; [apply steady_emit | intros _].
    apply steady_bind; [| intros r; apply IH].
    intros s. unfold callBeforeError. specialize (Hhook error (env s)).
    destruct (hook error (env s)) as [r e']. exact Hhook.
Qed.

Lemma steady_prepare h : steady obs (prepare h).
Proof.
  intros s. unfold prepare, bind, prepareBody, emit.
  destruct (encodeBody h (this s)) as [payload r]. cbn.
  destruct (_externalSignal r); cbn;
    match goal with
    | |- context [orElse ?a ?b] => destruct (orElse a b) as [ms|]
    end; try (destruct (truthyNum (Some ms))); reflexivity.
Qed.

Lemma steady_onFinally timeoutId s :
  obs (env (@onFinally E timeoutId s)) = obs (env s).
Proof. destruct timeoutId; reflexivity. Qed.

Lemma steady_onCatch error : steady obs (@onCatch E error).
Proof.
  intros s. unfold onCatch. destruct (errName error) as [n|]; [| reflexivity].
  destruct (String.eqb n "AbortError"); reflexivity.
Qed.

Lemma steady_doFetch h : attemptKeeps obs h -> steady obs (doFetch h).
Proof.
  intros (Hfetch & Hbr & Har & Hbe).
  unfold doFetch. apply steady_bind; [apply steady_emit | intros _].
  unfold doFetchBody. apply steady_bind; [apply steady_prepare |].
  intros [[url payload] timeoutId].
  apply steady_bind; [apply steady_runBeforeRequest, Hbr | intros _].
  assert (Hex : steady obs (exchange h url payload)).
  { unfold exchange. apply steady_bind.
    - intros s. unfold callFetch.
      match goal with
      | |- context [_customFetch h url ?init (env s)] =>
          specialize (Hfetch url init (env s));
          destruct (_customFetch h url init (env s)) as [r e']
      end.
      exact Hfetch.
    - intros nr. unfold settle.
      apply steady_bind; [apply steady_runAfterResponse, Har |].
      intros response s. unfold throwOrReturn.
      destruct (_throwHttpErrors (this s) && negb (n_ok nr)).
      + apply steady_bind;
          [apply steady_runBeforeError, Hbe | intros e; apply steady_throw].
      + reflexivity. }
  intros s. unfold tryCatchFinally. specialize (Hex s).
  destruct (exchange h url payload s) as [[a|e] s1]; cbn in *.
  - rewrite steady_onFinally. exact Hex.
  - pose proof (steady_onCatch e s1) as Hc.
    destruct (onCatch e s1) as [r s2]. cbn in *.
    rewrite steady_onFinally, Hc. exact Hex.
Qed.

End Steady.

Lemma runBeforeRetry_cons hook rest first e n s :
  @runBeforeRetry E first (hook :: rest) e n s =
  match hook e n (env s) with
  | (Return _, e') =>
      runBeforeRetry (S first) rest e n
        (setEnv e' (log (EvBeforeRetry first e n) s))
  | (Throw e1, e') => (Throw e1, setEnv e' (log (EvBeforeRetry first e n) s))
  end.
Proof.
  cbn [runBeforeRetry]. unfold bind, emit, callBeforeRetry. cbn [env log].
  destruct (hook e n (env s)) as [[[]|e1] e']; reflexivity.
Qed.

(** The record that the before-retry hooks keep of their calls grows as
    the trace says: what a run adds to the ordinals that the trace holds
    for the hook at position [i] is what it adds to [seen i]. *)
Lemma runBeforeRetry_seen (seen : nat -> E -> list Z) hooks :
  forall first e n s i,
    recordsFrom first seen hooks ->
    exists l,
      retryOrdinals i (trace (snd (@runBeforeRetry E first hooks e n s)))
        = retryOrdinals i (trace s) ++ l /\
      seen i (env (snd (@runBeforeRetry E first hooks e n s)))
        = seen i (env s) ++ l.
Proof.
  induction hooks as [|hook rest IH]; intros first e n s i Hrec.
  - exists []. cbn. rewrite !app_nil_r. split; reflexivity.
  - rewrite runBeforeRetry_cons.
    pose proof (Hrec O hook eq_refl e n (env s) i) as Hhead.
    assert (Hrest : recordsFrom (S first) seen rest).
    { intros k hk Hk err m e0 j.
      rewrite (Hrec (S k) hk Hk err m e0 j).
      replace (first + S k)%nat with (S first + k)%nat by lia. reflexivity. }
    set (l0 := if decide (i = (first + 0)%nat) then [n] else []) in *.
    assert (Hev : retryOrdinals i (trace (log (EvBeforeRetry first e n) s))
                  = retryOrdinals i (trace s) ++ l0).
    { unfold retryOrdinals. cbn [trace log]. rewrite omap_app. cbn.
      subst l0. repeat case_decide; try reflexivity; lia. }
    destruct (hook e n (env s)) as [[[]|e1] e']; cbn [snd] in Hhead.
    + destruct (IH (S first) e n
                  (setEnv e' (log (EvBeforeRetry first e n) s)) i Hrest)
        as (l & Ht & Hs).
      exists (l0 ++ l). split.
      * rewrite Ht. cbn [trace setEnv]. rewrite Hev, app_assoc. reflexivity.
      * rewrite Hs. cbn [env setEnv]. rewrite Hhead, app_assoc. reflexivity.
    + exists l0. cbn [snd trace env setEnv]. split; [exact Hev | exact Hhead].
Qed.

Lemma attempts_seen h p (seen : nat -> E -> list Z) :
  (forall i, attemptKeeps (seen i) h) ->
  recordsOrdinals seen (beforeRetry (_hooks h)) ->
  forall fuel attempt lastError s i,
    exists l,
      retryOrdinals i (trace (snd (attempts h p fuel attempt lastError s)))
        = retryOrdinals i (trace s) ++ l /\
      seen i (env (snd (attempts h p fuel attempt lastError s)))
        = seen i (env s) ++ l.
Proof.
  intros Hkeep Hrec.
  induction fuel as [|fuel IH]; intros attempt lastError s i.
  - exists []. cbn. rewrite !app_nil_r. split; reflexivity.
  - rewrite attempts_unfold.
    pose proof (steady_doFetch (seen i) h (Hkeep i) s) as Henv.
    destruct (doFetch h s) as [[response|error] s1] eqn:Hfetch;
      destruct (doFetch_counts_eq _ _ _ _ Hfetch) as (_ & _ & Hord & _);
      cbn [snd] in Henv.
    + exists []. cbn [snd]. rewrite !app_nil_r. split; [apply Hord | exact Henv].
    + destruct (rethrows p (_method (this s1)) attempt error).
      { exists []. cbn [snd]. rewrite !app_nil_r.
        split; [apply Hord | exact Henv]. }
      destruct (runBeforeRetry_seen seen (beforeRetry (_hooks h)) 0%nat error
                  (attempt + 1) s1 i Hrec) as (l1 & Ht1 & Hs1).
      destruct (runBeforeRetry 0 _ error (attempt + 1) s1) as [[[]|e2] s2];
        cbn [snd] in Ht1, Hs1.
      * destruct (IH (attempt + 1) error
                    (log (EvSleep (retryDelay p (attempt + 1))) s2) i)
          as (l2 & Ht2 & Hs2).
        exists (l1 ++ l2). split.
        -- rewrite Ht2. unfold retryOrdinals in *. cbn [trace log].
           rewrite omap_app. cbn. rewrite app_nil_r, Ht1, Hord, app_assoc.
           reflexivity.
        -- rewrite Hs2. cbn [env log]. rewrite Hs1, Henv, app_assoc.
           reflexivity.
      * exists l1. cbn [snd]. rewrite Ht1, Hs1, Hord, Henv. split; reflexivity.
Qed.

(** C1.  With retry limit [N >= 0], a method in the retry allow-list,
    throw-on-HTTP-error enabled and a transport that always fails with a
    retryable status, [execute] calls [doFetch] exactly [N + 1] times,
    calls each before-retry hook exactly [N] times, with the ordinals
    [1, ..., N], and then raises an [HTTPError].  The hooks are taken to
    behave: none throws, and the after-response and before-error hooks that
    replace the response or the error keep a retryable status on it.
    That the hooks are called, and not only announced in the trace, is
    read in the world: when each before-retry hook keeps a record of the
    ordinals it is called with, in a place that nothing else writes to,
    the record of each hook has grown by exactly [1, ..., N] when
    [execute] ends. *)
Theorem retries_exhausted h s N :
  retryLimit (policyOf (this s)) = N ->
  0 <= N ->
  includesStr (retryMethods (policyOf (this s))) (_method (this s)) = true ->
  _throwHttpErrors (this s) = true ->
  alwaysFailsWith (retryStatusCodes (policyOf (this s))) h ->
  Forall returnsBR (beforeRequest (_hooks h)) ->
  Forall (keepsAR (retryableStatus (retryStatusCodes (policyOf (this s)))))
    (afterResponse (_hooks h)) ->
  Forall (keepsBE (retryableStatus (retryStatusCodes (policyOf (this s)))))
    (beforeError (_hooks h)) ->
  Forall returnsRT (beforeRetry (_hooks h)) ->
  exists response s',
    execute h s = (Throw (HTTPError response), s') /\
    retryableStatus (retryStatusCodes (policyOf (this s))) response /\
    Z.of_nat (doFetchCalls (trace s')) =
      Z.of_nat (doFetchCalls (trace s)) + N + 1 /\
    (forall i, (i < length (beforeRetry (_hooks h)))%nat ->
       retryOrdinals i (trace s') = retryOrdinals i (trace s) ++ seqZ 1 N /\
       length (seqZ 1 N) = Z.to_nat N) /\
    (forall seen : nat -> E -> list Z,
       (forall i, attemptKeeps (seen i) h) ->
       recordsOrdinals seen (beforeRetry (_hooks h)) ->
       forall i, (i < length (beforeRetry (_hooks h)))%nat ->
         seen i (env s') = seen i (env s) ++ seqZ 1 N).
Proof.
  intros HN Hpos Hmethod Hflag Htr Hbr Har Hbe Hrt.
  destruct (attempts_all_fail h _ Htr Hbr Har Hbe (policyOf (this s)) eq_refl Hrt
              (Z.to_nat N) 0 ENull s) as (r & s' & Hrun & Hr & Hc & Ho & _);
    try assumption.
  { rewrite HN. lia. }
  assert (Hords : forall i, (i < length (beforeRetry (_hooks h)))%nat ->
            retryOrdinals i (trace s') = retryOrdinals i (trace s) ++ seqZ 1 N).
  { intros i Hi. rewrite (Ho i Hi). cbn. rewrite Z2Nat.id by lia. reflexivity. }
  exists r, s'. split.
  - rewrite execute_first by lia. rewrite HN. exact Hrun.
  - split; [exact Hr |]. split; [rewrite Hc; lia |]. split.
    + intros i Hi. split; [apply Hords, Hi | apply length_seqZ].
    + intros seen Hkeep Hrec i Hi.
      destruct (attempts_seen h (policyOf (this s)) seen Hkeep Hrec
                  (S (Z.to_nat N)) 0 ENull s i) as (l & Ht & Hs).
      rewrite Hrun in Ht, Hs. cbn [snd] in Ht, Hs.
      rewrite (Hords i Hi) in Ht. apply app_inv_head in Ht. subst l.
      exact Hs.
Qed.

(** ** Backoff *)

Lemma runBeforeRetry_trace hooks : forall i e n s,
  exists k,
    trace (snd (@runBeforeRetry E i hooks e n s)) =
    trace s ++ retryEvents i k e n.
Proof.
  induction hooks as [|hook rest IH]; intros i e n s; cbn.
  - exists O. symmetry. apply app_nil_r.
  - unfold bind, emit, callBeforeRetry.
    destruct (hook e n _) as [[[]|e1] e'] eqn:Hcall; cbn.
    + destruct (IH (S i) e n (setEnv e' (log (EvBeforeRetry i e n) s)))
        as (k & Hk).
      exists (S k). rewrite Hk. cbn. rewrite <- app_assoc. reflexivity.
    + exists 1%nat. reflexivity.
Qed.

Lemma default_delay_values n :
  1 <= n ->
  (n <= 5 -> Z.min (1000 * 2 ^ (n - 1)) 30000 = 1000 * 2 ^ (n - 1)) /\
  (6 <= n -> Z.min (1000 * 2 ^ (n - 1)) 30000 = 30000).
Proof.
  intros Hn. split; intros Hb.
  - assert (2 ^ (n - 1) <= 2 ^ 4) by (apply Z.pow_le_mono_r; lia).
    change (2 ^ 4) with 16 in *. lia.
  - assert (2 ^ 5 <= 2 ^ (n - 1)) by (apply Z.pow_le_mono_r; lia).
    change (2 ^ 5) with 32 in *. lia.
Qed.

(** *** Attempts and waits in turn *)

Lemma outer_asStep : outer asStep.
Proof. intros [] Hev; try reflexivity; discriminate. Qed.

Lemma runBeforeRetry_steps hooks i e n s :
  steps (trace (snd (@runBeforeRetry E i hooks e n s))) = steps (trace s).
Proof.
  destruct (runBeforeRetry_trace hooks i e n s) as (k & Hk).
  unfold steps. rewrite Hk, omap_app.
  rewrite retryEvents_outer by reflexivity. apply app_nil_r.
Qed.

Lemma schedule_one wait first : schedule wait first 1 = [Attempt].
Proof. reflexivity. Qed.

Lemma schedule_succ wait first k :
  1 <= k ->
  schedule wait first (k + 1) =
  Attempt :: Wait (wait first) :: schedule wait (first + 1) k.
Proof.
  intros Hk. unfold schedule.
  replace (k + 1 - 1) with k by lia.
  rewrite (seqZ_cons first k) by lia. cbn [flat_map app].
  replace (Z.succ first) with (first + 1) by lia.
  replace (Z.pred k) with (k - 1) by lia. reflexivity.
Qed.

Lemma countAttempts_app l1 l2 :
  countAttempts (l1 ++ l2) = (countAttempts l1 + countAttempts l2)%nat.
Proof.
  induction l1 as [|[|ms] l1 IH]; cbn; [reflexivity | | exact IH].
  rewrite IH. reflexivity.
Qed.

Lemma countAttempts_schedule wait (k : nat) : forall first,
  countAttempts (schedule wait first (Z.of_nat (S k))) = S k.
Proof.
  induction k as [|k IH]; intros first; [reflexivity |].
  replace (Z.of_nat (S (S k))) with (Z.of_nat (S k) + 1) by lia.
  rewrite schedule_succ by lia. cbn [countAttempts]. rewrite IH. reflexivity.
Qed.

Lemma waits_schedule wait (k : nat) : forall first,
  omap waitOf (schedule wait first (Z.of_nat (S k)))
  = wait <$> seqZ first (Z.of_nat k).
Proof.
  induction k as [|k IH]; intros first; [reflexivity |].
  replace (Z.of_nat (S (S k))) with (Z.of_nat (S k) + 1) by lia.
  rewrite schedule_succ by lia. cbn [omap list_omap waitOf].
  rewrite IH. rewrite (seqZ_cons first (Z.of_nat (S k))) by lia.
  replace (Z.succ first) with (first + 1) by lia.
  replace (Z.pred (Z.of_nat (S k))) with (Z.of_nat k) by lia. reflexivity.
Qed.

Lemma steps_doFetchCalls t : doFetchCalls t = countAttempts (steps t).
Proof.
  unfold doFetchCalls, steps.
  induction t as [|ev t IH]; [reflexivity |].
  destruct ev; cbn; try exact IH. rewrite IH. reflexivity.
Qed.

Lemma steps_sleeps t : sleeps t = omap waitOf (steps t).
Proof.
  unfold sleeps, steps.
  induction t as [|ev t IH]; [reflexivity |].
  destruct ev; cbn; try exact IH. rewrite IH. reflexivity.
Qed.

(** The loop alternates attempts and waits, and each wait is the delay of
    the policy for the ordinal of the attempt that follows it. *)
Lemma attempts_schedule h p n : forall attempt lastError s,
  retryLimit p = attempt + Z.of_nat n ->
  exists k : nat,
    (k <= n)%nat /\
    steps (trace (snd (attempts h p (S n) attempt lastError s)))
      = steps (trace s)
        ++ schedule (retryDelay p) (attempt + 1) (Z.of_nat (S k)).
Proof.
  induction n as [|n IH]; intros attempt lastError s Hlimit;
    rewrite attempts_unfold;
    pose proof (doFetch_outer asStep h s outer_asStep) as Hstep;
    fold (steps (trace (snd (doFetch h s)))) in Hstep;
    fold (steps (trace s)) in Hstep; cbn [asStep option_list] in Hstep;
    destruct (doFetch h s) as [[response|error] s1] eqn:Hfetch;
    cbn [snd] in Hstep.
  - exists O. split; [lia |]. exact Hstep.
  - assert (rethrows p (_method (this s1)) attempt error = true) as ->.
    { unfold rethrows. replace (attempt >=? retryLimit p) with true by lia.
      apply orb_true_r. }
    exists O. split; [lia |]. exact Hstep.
  - exists O. split; [lia |]. exact Hstep.
  - destruct (rethrows p (_method (this s1)) attempt error) eqn:Hre.
    { exists O. split; [lia |]. exact Hstep. }
    pose proof (runBeforeRetry_steps (beforeRetry (_hooks h)) 0%nat error
                  (attempt + 1) s1) as Hs2.
    destruct (runBeforeRetry 0 _ error (attempt + 1) s1) as [[[]|e2] s2];
      cbn [snd] in Hs2.
    + destruct (IH (attempt + 1) error
                  (log (EvSleep (retryDelay p (attempt + 1))) s2))
        as (k & Hk & Hrest); [lia |].
      exists (S k). split; [lia |].
      rewrite Hrest. unfold steps at 1. cbn [trace log].
      rewrite omap_app. fold (steps (trace s2)). cbn [omap list_omap asStep].
      rewrite Hs2, Hstep.
      replace (Z.of_nat (S (S k))) with (Z.of_nat (S k) + 1) by lia.
      rewrite schedule_succ by lia.
      rewrite <- !app_assoc. reflexivity.
    + exists O. split; [lia |]. cbn [snd]. rewrite Hs2. exact Hstep.
Qed.

(** C7.  Through [execute]: the run is an attempt, then for each retry a
    wait and an attempt, and the wait before the retry of ordinal [n] is
    the delay of the request for [n]: the configured function applied to
    [n] as it is, or, when none is configured,
    [min(1000 * 2^(n-1), 30000)] milliseconds, that is 1000, 2000, 4000,
    8000, 16000, then 30000 from the sixth retry on.  When the transport
    always fails with a retryable status (and the method is in the
    allow-list, throw-on-HTTP-error is on and the hooks behave), all [N]
    retries are made, so that all the waits of the ordinals [1, ..., N]
    are. *)
Theorem backoff_delay_waited h s N :
  retryLimit (policyOf (this s)) = N ->
  0 <= N ->
  let wait := fun n =>
    match delay (_retry (this s)) with
    | Some f => f n
    | None => Z.min (1000 * 2 ^ (n - 1)) 30000
    end in
  (exists k,
     1 <= k <= N + 1 /\
     steps (trace (snd (execute h s)))
       = steps (trace s) ++ schedule wait 1 k /\
     sleeps (trace (snd (execute h s)))
       = sleeps (trace s) ++ (wait <$> seqZ 1 (k - 1)) /\
     (includesStr (retryMethods (policyOf (this s))) (_method (this s)) = true ->
      _throwHttpErrors (this s) = true ->
      alwaysFailsWith (retryStatusCodes (policyOf (this s))) h ->
      Forall returnsBR (beforeRequest (_hooks h)) ->
      Forall (keepsAR (retryableStatus (retryStatusCodes (policyOf (this s)))))
        (afterResponse (_hooks h)) ->
      Forall (keepsBE (retryableStatus (retryStatusCodes (policyOf (this s)))))
        (beforeError (_hooks h)) ->
      Forall returnsRT (beforeRetry (_hooks h)) ->
      k = N + 1)) /\
  (delay (_retry (this s)) = None ->
   forall n, 1 <= n ->
     (n <= 5 -> wait n = 1000 * 2 ^ (n - 1)) /\
     (6 <= n -> wait n = 30000)).
Proof.
  intros HN Hpos wait. subst N.
  assert (Hwait : retryDelay (policyOf (this s)) = wait).
  { subst wait. unfold policyOf. cbn [retryDelay].
    destruct (delay (_retry (this s))); reflexivity. }
  split.
  - destruct (attempts_schedule h (policyOf (this s))
                (Z.to_nat (retryLimit (policyOf (this s)))) 0 ENull s)
      as (k & Hk & Hsteps); [lia |].
    rewrite <- execute_first in Hsteps by lia.
    rewrite Hwait in Hsteps. cbn [Z.add] in Hsteps.
    exists (Z.of_nat (S k)). split; [lia |]. split; [exact Hsteps |]. split.
    + rewrite !steps_sleeps, Hsteps, omap_app, waits_schedule.
      replace (Z.of_nat (S k) - 1) with (Z.of_nat k) by lia. reflexivity.
    + intros Hmethod Hflag Htr Hbr Har Hbe Hrt.
      destruct (attempts_all_fail h _ Htr Hbr Har Hbe (policyOf (this s))
                  eq_refl Hrt (Z.to_nat (retryLimit (policyOf (this s))))
                  0 ENull s)
        as (r & s' & Hrun & _ & Hc & _); try assumption; [lia |].
      rewrite <- execute_first in Hrun by lia.
      rewrite Hrun in Hsteps. cbn [snd] in Hsteps.
      rewrite !steps_doFetchCalls, Hsteps, countAttempts_app,
        countAttempts_schedule in Hc.
      lia.
  - intros Hnone n Hn. subst wait. cbn beta. rewrite Hnone.
    apply default_delay_values, Hn.
Qed.

(** ** After-response replacement *)

Lemma onCatch_caught e s : @onCatch E e s = (Throw (caught e), s).
Proof.
  unfold onCatch, caught. destruct (errName e) as [n|]; [| reflexivity].
  destruct (String.eqb n "AbortError"); reflexivity.
Qed.

Lemma runAfterResponse_app pre rest : forall i r s,
  @runAfterResponse E i (pre ++ rest) r s =
  match runAfterResponse i pre r s with
  | (Return r0, s1) => runAfterResponse (i + length pre) rest r0 s1
  | (Throw e, s1) => (Throw e, s1)
  end.
Proof.
  induction pre as [|hook pre IH]; intros i r s; cbn.
  - rewrite Nat.add_0_r. reflexivity.
  - unfold bind, emit, callAfterResponse.
    destruct (hook r _) as [[res|e] e']; [| reflexivity].
    rewrite IH. replace (S i + length pre)%nat with (i + S (length pre))%nat by lia.
    reflexivity.
Qed.

Lemma runAfterResponse_nothing hooks :
  Forall returnsNothing hooks ->
  forall i r s, exists s',
    @runAfterResponse E i hooks r s = (Return r, s') /\ innerOf s s'.
Proof.
  intros Hall i r s.
  pose proof (inner_runAfterResponse hooks i r s) as Hin.
  assert (Hret : exists s', runAfterResponse i hooks r s = (Return r, s')).
  { clear Hin. revert i s.
    induction Hall as [|hook rest Hhook _ IH]; intros i s; cbn.
    - eexists. reflexivity.
    - unfold bind, emit, callAfterResponse.
      specialize (Hhook r (env (log (EvAfterResponse i r) s))).
      destruct (hook _ _) as [res e']. cbn in Hhook. subst res. apply IH. }
  destruct Hret as (s' & Hs'). rewrite Hs' in Hin. eauto.
Qed.

(** Once the transport has answered, [doFetch] ends as [settle] does: it
    returns what [settle] returns, throws what the [catch] block makes of
    what [settle] throws, and runs the [finally]. *)
Lemma doFetch_after_fetch h s url payload timeoutId sp s2 nr s3 :
  prepare h (log EvDoFetch s) = (Return (url, payload, timeoutId), sp) ->
  runBeforeRequest 0 (beforeRequest (_hooks h)) sp = (Return tt, s2) ->
  callFetch h url payload s2 = (Return nr, s3) ->
  doFetch h s =
    match settle h nr s3 with
    | (Return response, s4) => (Return response, onFinally timeoutId s4)
    | (Throw e, s4) => (Throw (caught e), onFinally timeoutId s4)
    end.
Proof.
  intros Hprep Hbr Hfetch. rewrite doFetch_unfold. unfold doFetchBody.
  unfold bind at 1. rewrite Hprep. unfold bind at 1. rewrite Hbr.
  unfold tryCatchFinally, exchange. unfold bind at 1. rewrite Hfetch.
  destruct (settle h nr s3) as [[response|e] s4]; [reflexivity |].
  rewrite onCatch_caught. reflexivity.
Qed.

(** What [settle] does once an after-response hook has returned a
    replacement. *)
Lemma settle_replaced h nr pre hook post s r0 s1 r' env' :
  afterResponse (_hooks h) = pre ++ hook :: post ->
  runAfterResponse 0 pre (newResponse nr (n_text nr) (decodeBody h nr)) s
    = (Return r0, s1) ->
  hook r0 (env s1) = (Return (Some r'), env') ->
  settle h nr s =
    bind (runAfterResponse (S (length pre)) post r') (throwOrReturn h nr)
      (setEnv env' (log (EvAfterResponse (length pre) r0) s1)) /\
  (Forall returnsNothing post ->
   exists s3,
     (_throwHttpErrors (this s) && negb (n_ok nr) = false ->
      settle h nr s = (Return r', s3)) /\
     (_throwHttpErrors (this s) && negb (n_ok nr) = true ->
      settle h nr s =
        bind (runBeforeError 0 (beforeError (_hooks h)) (HTTPError r')) throw
          s3 /\
      (beforeError (_hooks h) = [] ->
       settle h nr s = (Throw (HTTPError r'), s3) /\
       onCatch (HTTPError r') s3 = (Throw (HTTPError r'), s3)))).
Proof.
  intros Hhooks Hpre Hcall.
  assert (Hsettle : settle h nr s =
    bind (runAfterResponse (S (length pre)) post r') (throwOrReturn h nr)
      (setEnv env' (log (EvAfterResponse (length pre) r0) s1))).
  { unfold settle, bind at 1. rewrite Hhooks, runAfterResponse_app, Hpre.
    cbn [runAfterResponse]. unfold bind at 1, emit.
    unfold bind at 1, callAfterResponse. cbn [env log]. rewrite Hcall.
    cbn. replace (length pre + 1)%nat with (S (length pre)) by lia.
    reflexivity. }
  split; [exact Hsettle |].
  intros Hpost.
  destruct (runAfterResponse_nothing post Hpost (S (length pre)) r'
              (setEnv env' (log (EvAfterResponse (length pre) r0) s1)))
    as (s3 & Hrun & Hin).
  assert (Hflag : _throwHttpErrors (this s3) = _throwHttpErrors (this s)).
  { destruct Hin as (_ & _ & Hf & _). rewrite Hf. cbn.
    pose proof (inner_runAfterResponse pre 0%nat
                  (newResponse nr (n_text nr) (decodeBody h nr)) s) as Hin0.
    rewrite Hpre in Hin0. destruct Hin0 as (_ & _ & Hf0 & _). exact Hf0. }
  exists s3. split.
  - intros Hno. rewrite Hsettle. unfold bind at 1. rewrite Hrun.
    unfold throwOrReturn. rewrite Hflag, Hno. reflexivity.
  - intros Hyes.
    assert (Hthrow : settle h nr s =
      bind (runBeforeError 0 (beforeError (_hooks h)) (HTTPError r')) throw s3).
    { rewrite Hsettle. unfold bind at 1. rewrite Hrun.
      unfold throwOrReturn. rewrite Hflag, Hyes. reflexivity. }
    split; [exact Hthrow |].
    intros Hnone. rewrite Hthrow, Hnone. split; reflexivity.
Qed.

(** Up to the answer of the transport the private fields do not change. *)
Lemma flag_after_fetch h s p sp s2 url payload nr s3 :
  prepare h (log EvDoFetch s) = (Return p, sp) ->
  runBeforeRequest 0 (beforeRequest (_hooks h)) sp = (Return tt, s2) ->
  callFetch h url payload s2 = (Return nr, s3) ->
  _throwHttpErrors (this s3) = _throwHttpErrors (this s).
Proof.
  intros Hprep Hbr Hfetch.
  pose proof (inner_prepare h (log EvDoFetch s)) as H1. rewrite Hprep in H1.
  pose proof (inner_runBeforeRequest (beforeRequest (_hooks h)) 0%nat sp) as H2.
  rewrite Hbr in H2.
  pose proof (inner_callFetch h url payload s2) as H3. rewrite Hfetch in H3.
  destruct H1 as (_ & _ & F1 & _), H2 as (_ & _ & F2 & _), H3 as (_ & _ & F3 & _).
  cbn [snd] in *. rewrite F3, F2, F1. reflexivity.
Qed.

(** C8.  In an attempt in which the transport has answered and an
    after-response hook returns a replacement [r']: every hook after it
    that is reached with no replacement in between is called on [r'] (if
    it throws, the attempt fails with what the [catch] block makes of its
    error; if it replaces again, its replacement takes the place of
    [r']); when none replaces it again, [doFetch], and [execute] with it,
    returns [r'] if the native response is ok or throw-on-HTTP-error is
    off, and otherwise the [HTTPError] is built on [r']: the before-error
    hooks, if any, receive it, and without them it is what [doFetch]
    throws, and what [execute] throws when the loop does not retry. *)
Theorem after_response_replacement
    h s url payload timeoutId sp s2 nr s3 pre hook post r0 s4 r' env' :
  prepare h (log EvDoFetch s) = (Return (url, payload, timeoutId), sp) ->
  runBeforeRequest 0 (beforeRequest (_hooks h)) sp = (Return tt, s2) ->
  callFetch h url payload s2 = (Return nr, s3) ->
  afterResponse (_hooks h) = pre ++ hook :: post ->
  runAfterResponse 0 pre (newResponse nr (n_text nr) (decodeBody h nr)) s3
    = (Return r0, s4) ->
  hook r0 (env s4) = (Return (Some r'), env') ->
  (forall mid next more,
     post = mid ++ next :: more ->
     Forall returnsNothing mid ->
     (forall e,
        (forall e0, exists e1, next r' e0 = (Throw e, e1)) ->
        fst (doFetch h s) = Throw (caught e)) /\
     (forall r2,
        (forall e0, exists e1, next r' e0 = (Return (Some r2), e1)) ->
        Forall returnsNothing more ->
        (_throwHttpErrors (this s) && negb (n_ok nr) = false ->
         fst (doFetch h s) = Return r2) /\
        (_throwHttpErrors (this s) && negb (n_ok nr) = true ->
         beforeError (_hooks h) = [] ->
         fst (doFetch h s) = Throw (HTTPError r2)))) /\
  (Forall returnsNothing post ->
   exists s5,
     (_throwHttpErrors (this s) && negb (n_ok nr) = false ->
      doFetch h s = (Return r', onFinally timeoutId s5) /\
      (0 <= retryLimit (policyOf (this s)) ->
       execute h s = (Return r', onFinally timeoutId s5))) /\
     (_throwHttpErrors (this s) && negb (n_ok nr) = true ->
      doFetch h s =
        match runBeforeError 0 (beforeError (_hooks h)) (HTTPError r') s5 with
        | (Return error, s6) => (Throw (caught error), onFinally timeoutId s6)
        | (Throw e, s6) => (Throw (caught e), onFinally timeoutId s6)
        end /\
      (beforeError (_hooks h) = [] ->
       doFetch h s = (Throw (HTTPError r'), onFinally timeoutId s5) /\
       (0 <= retryLimit (policyOf (this s)) ->
        rethrows (policyOf (this s)) (_method (this s)) 0 (HTTPError r') = true ->
        execute h s = (Throw (HTTPError r'), onFinally timeoutId s5))))).
Proof.
  intros Hprep Hbr Hfetch Hhooks Hpre Hcall.
  pose proof (doFetch_after_fetch h s url payload timeoutId sp s2 nr s3
                Hprep Hbr Hfetch) as Hdo.
  pose proof (flag_after_fetch h s _ sp s2 url payload nr s3 Hprep Hbr Hfetch)
    as Hflag.
  destruct (settle_replaced h nr pre hook post s3 r0 s4 r' env'
              Hhooks Hpre Hcall) as (Hsettle & Hrest).
  split.
  - intros mid next more Hpost Hmid.
    (* the chain up to [next]: it arrives there with [r'] *)
    destruct (runAfterResponse_nothing mid Hmid (0 + length (pre ++ [hook])) r'
                (setEnv env' (log (EvAfterResponse (length pre) r0) s4)))
      as (sm & Hrunmid & _).
    assert (Hpre2 : runAfterResponse 0 ((pre ++ [hook]) ++ mid)
                      (newResponse nr (n_text nr) (decodeBody h nr)) s3
                    = (Return r', sm)).
    { rewrite runAfterResponse_app, runAfterResponse_app, Hpre.
      cbn [runAfterResponse]. unfold bind, emit, callAfterResponse, ret.
      cbn [env log]. rewrite Hcall. exact Hrunmid. }
    assert (Hall : afterResponse (_hooks h)
                   = ((pre ++ [hook]) ++ mid) ++ next :: more).
    { rewrite Hhooks, Hpost, <- !app_assoc. reflexivity. }
    split.
    + intros e Hnext. destruct (Hnext (env sm)) as (e1 & Hn).
      rewrite Hdo. unfold settle. unfold bind at 1.
      rewrite Hall, runAfterResponse_app, Hpre2. cbn [runAfterResponse].
      unfold bind, emit, callAfterResponse. cbn [env log].
      rewrite Hn. reflexivity.
    + intros r2 Hnext Hmore. destruct (Hnext (env sm)) as (e1 & Hn).
      destruct (settle_replaced h nr ((pre ++ [hook]) ++ mid) next more s3 r'
                  sm r2 e1 Hall Hpre2 Hn) as (_ & Hrest2).
      destruct (Hrest2 Hmore) as (s6 & Hno & Hyes). rewrite Hflag in *.
      split.
      * intros Hcond. rewrite Hdo, (Hno Hcond). reflexivity.
      * intros Hcond Hnone.
        destruct (Hyes Hcond) as (_ & Hthrow).
        destruct (Hthrow Hnone) as (Hs & _). rewrite Hdo, Hs. reflexivity.
  - intros Hpost. destruct (Hrest Hpost) as (s5 & Hno & Hyes).
    rewrite Hflag in *. exists s5. split.
    + intros Hcond. rewrite (Hno Hcond) in Hdo. split; [exact Hdo |].
      intros Hlimit. rewrite execute_first by exact Hlimit.
      apply attempts_success, Hdo.
    + intros Hcond. destruct (Hyes Hcond) as (Hbe & Hnone). split.
      * rewrite Hdo, Hbe. unfold bind, throw.
        destruct (runBeforeError 0 _ (HTTPError r') s5) as [[error|e] s6];
          reflexivity.
      * intros Hempty. destruct (Hnone Hempty) as (Hs & _).
        rewrite Hs in Hdo. change (caught (HTTPError r')) with (HTTPError r') in Hdo.
        split; [exact Hdo |].
        intros Hlimit Hre. rewrite execute_first by exact Hlimit.
        apply attempts_rethrow; [exact Hdo |].
        destruct (doFetch_private_eq _ _ _ _ Hdo) as (Hm & _).
        rewrite Hm. exact Hre.
Qed.

(** ** Body encoding *)

Lemma prepare_payload h s :
  exists timeoutId s1,
    prepare h s =
      (Return (buildUrl (this s), fst (encodeBody h (this s)), timeoutId), s1) /\
    _headers (this s1) = _headers (snd (encodeBody h (this s))).
Proof.
  unfold prepare, bind, prepareBody, emit.
  destruct (encodeBody h (this s)) as [payload r]. cbn.
  destruct (_externalSignal r); cbn;
    match goal with
    | |- context [orElse ?a ?b] => destruct (orElse a b) as [ms|]
    end; try (destruct (truthyNum (Some ms))); cbn; eauto.
Qed.

(** ** Hook errors *)

(** A hook that throws during an attempt makes the attempt fail. *)
Lemma hookThrew_doFetch h s e s1 :
  hookThrew h s e s1 -> doFetch h s = (Throw e, s1).
Proof.
  intros Hthrew. rewrite doFetch_unfold. unfold doFetchBody.
  destruct Hthrew as
    [p sp e s1 Hprep Hbr
    |url payload timeoutId sp s2 nr s3 e0 s4 Hprep Hbr Hfetch Har
    |url payload timeoutId sp s2 nr s3 response s4 e0 s5 Hprep Hbr Hfetch Har
       Hflag Hbe];
    unfold bind at 1; rewrite Hprep.
  - destruct p as [[url payload] timeoutId]. unfold bind. rewrite Hbr.
    reflexivity.
  - unfold bind at 1. rewrite Hbr. unfold tryCatchFinally, exchange.
    unfold bind at 1. rewrite Hfetch. unfold settle, bind. rewrite Har.
    rewrite onCatch_caught. reflexivity.
  - unfold bind at 1. rewrite Hbr. unfold tryCatchFinally, exchange.
    unfold bind at 1. rewrite Hfetch. unfold settle. unfold bind at 1.
    rewrite Har. unfold throwOrReturn. rewrite Hflag. unfold bind.
    rewrite Hbe. rewrite onCatch_caught. reflexivity.
Qed.

(** C2, as the engine has it.  An error thrown by a before-request,
    after-response or before-error hook makes the attempt fail, and the
    loop treats that failure as any other: it rethrows it at once when the
    method is not in the retry allow-list, when it is a [TimeoutError] or
    an [HTTPError] whose status is not retryable, or when no retry is
    left; otherwise the before-retry hooks run, the backoff is waited and
    the next attempt is made.  An error thrown by a before-retry hook is
    terminal: [execute] throws it with no wait and no further attempt. *)
Theorem hook_error_outcome h p fuel attempt lastError s :
  (forall e s1,
     hookThrew h s e s1 ->
     doFetch h s = (Throw e, s1) /\
     attempts h p (S fuel) attempt lastError s =
       if rethrows p (_method (this s1)) attempt e then (Throw e, s1)
       else
         match runBeforeRetry 0 (beforeRetry (_hooks h)) e (attempt + 1) s1 with
         | (Return _, s2) =>
             attempts h p fuel (attempt + 1) e
               (log (EvSleep (retryDelay p (attempt + 1))) s2)
         | (Throw e', s2) => (Throw e', s2)
         end) /\
  (forall e s1 e' s2,
     doFetch h s = (Throw e, s1) ->
     rethrows p (_method (this s1)) attempt e = false ->
     runBeforeRetry 0 (beforeRetry (_hooks h)) e (attempt + 1) s1
       = (Throw e', s2) ->
     attempts h p (S fuel) attempt lastError s = (Throw e', s2) /\
     doFetchCalls (trace s2) = S (doFetchCalls (trace s)) /\
     sleeps (trace s2) = sleeps (trace s)).
Proof.
  split.
  - intros e s1 Hthrew. pose proof (hookThrew_doFetch _ _ _ _ Hthrew) as Hfetch.
    split; [exact Hfetch |]. rewrite attempts_unfold, Hfetch. reflexivity.
  - intros e s1 e' s2 Hfetch Hretry Hrun.
    split; [rewrite attempts_unfold, Hfetch, Hretry, Hrun; reflexivity |].
    destruct (doFetch_counts_eq _ _ _ _ Hfetch) as (Hcalls & _ & _ & Hsl).
    destruct (runBeforeRetry_trace (beforeRetry (_hooks h)) 0%nat e
                (attempt + 1) s1) as (k & Hk).
    rewrite Hrun in Hk. cbn [snd] in Hk.
    unfold doFetchCalls, sleeps in *. rewrite Hk, !omap_app.
    rewrite !retryEvents_outer by reflexivity. rewrite !app_nil_r.
    split; assumption.
Qed.

(** ** The timeout timer *)

(** Whatever happens inside the [try], the [finally] clears the timer. *)
Lemma timer_cleared_by_finally {A} (c : M A) handler id s :
  id ∉ armed (snd (tryCatchFinally c handler (onFinally (Some id)) s)).
Proof.
  unfold tryCatchFinally.
  destruct (c s) as [[a|e] s1]; [| destruct (handler e s1) as [r s2]];
    cbn [snd onFinally clearTimeout log armed];
    rewrite elem_of_difference, elem_of_singleton; tauto.
Qed.

(** When the before-request hooks return, the timer that [doFetch] has
    set is cleared when it exits, by return or by throw. *)
Lemma timer_cleared_when_hooks_return h s url payload id sp s2 :
  prepare h (log EvDoFetch s) = (Return (url, payload, Some id), sp) ->
  runBeforeRequest 0 (beforeRequest (_hooks h)) sp = (Return tt, s2) ->
  id ∉ armed (snd (doFetch h s)).
Proof.
  intros Hprep Hbr. rewrite doFetch_unfold. unfold doFetchBody.
  unfold bind at 1. rewrite Hprep. unfold bind. rewrite Hbr.
  apply timer_cleared_by_finally.
Qed.

(** The timer that [prepare] sets is armed when [prepare] returns. *)
Lemma prepare_arms_timer h s p id sp :
  prepare h s = (Return (p, Some id), sp) -> id ∈ armed sp.
Proof.
  unfold prepare, bind, prepareBody, emit.
  destruct (encodeBody h (this s)) as [payload r]. cbn.
  destruct (_externalSignal r); cbn;
    match goal with
    | |- context [orElse ?a ?b] => destruct (orElse a b) as [ms|]
    end; try (destruct (truthyNum (Some ms))); cbn;
    intros Heq; inversion Heq; subst; cbn; set_solver.
Qed.

(** Hooks and the trace do not touch the timers. *)
Lemma runBeforeRequest_timers hooks : forall i s,
  armed (snd (@runBeforeRequest E i hooks s)) = armed s.
Proof.
  induction hooks as [|hook rest IH]; intros i s; cbn; [reflexivity |].
  unfold bind, emit, callBeforeRequest.
  destruct (hook _ _) as [[[[]|e] t'] e']; cbn; [| reflexivity].
  rewrite IH. reflexivity.
Qed.

(** When a before-request hook throws, [doFetch] exits with the timer it
    has set still armed. *)
Lemma timer_left_when_hook_throws h s p id sp e s1 :
  prepare h (log EvDoFetch s) = (Return (p, Some id), sp) ->
  runBeforeRequest 0 (beforeRequest (_hooks h)) sp = (Throw e, s1) ->
  doFetch h s = (Throw e, s1) /\ id ∈ armed s1.
Proof.
  intros Hprep Hbr. split.
  - apply hookThrew_doFetch. eapply BeforeRequestThrew; eassumption.
  - pose proof (runBeforeRequest_timers (beforeRequest (_hooks h)) 0%nat sp) as Ht.
    rewrite Hbr in Ht. cbn in Ht. rewrite Ht.
    eapply prepare_arms_timer. exact Hprep.
Qed.

End Facts.

(** * The engine on concrete requests *)

Section Runs.

#[local] Existing Instance Demo.host.

Import Demo.

Example includes_examples :
  includes "form-urlencoded" "application/x-www-form-urlencoded" = true /\
  includes "form-urlencoded" "" = false /\
  includes "application/json" "application/json; charset=utf-8" = true /\
  includes "?" "https://api.example.com/items?page=1" = true.
Proof. repeat split. Qed.

Example defaultRetryDelay_examples :
  map defaultRetryDelay [1; 2; 3; 4; 5; 6; 7; 1025]
    = [1000; 2000; 4000; 8000; 16000; 30000; 30000; 30000].
Proof. vm_compute. reflexivity. Qed.

(** A negative retry limit: the loop does not run and [null] is thrown. *)
Example negative_limit :
  execute (handlers noHooks (respond 200))
    (start (request "GET" (retryUpTo (-1)) noTimeout))
  = (Throw ENull, start (request "GET" (retryUpTo (-1)) noTimeout)).
Proof. reflexivity. Qed.

(** The scenario of the specification: 500 on the first two attempts, 200
    on the third, retry limit 2, default policy. *)
Example two_failures_then_success :
  let r := execute (handlers retryHooks (respondAfter 2 500))
             (start (request "GET" (retryUpTo 2) noTimeout)) in
  fst r = Return (envelope 200) /\
  doFetchCalls (trace (snd r)) = 3%nat /\
  beforeRetryCalls (trace (snd r)) = [(0%nat, 1); (1%nat, 1); (0%nat, 2); (1%nat, 2)] /\
  sleeps (trace (snd r)) = [1000; 2000].
Proof. vm_compute. repeat split. Qed.

(** *** Retries *)

Lemma retries_exhausted_witness :
  exists response s',
    execute (Demo3.notingHandlers Demo3.notingHooks (Demo3.answering 503))
        Demo3.notingRetry2
      = (Throw (HTTPError response), s') /\
    retryableStatus DEFAULT_RETRY_STATUS_CODES response /\
    Z.of_nat (doFetchCalls (trace s')) = 0 + 2 + 1 /\
    (forall i, (i < 2)%nat ->
       retryOrdinals i (trace s') = [] ++ seqZ 1 2 /\
       length (seqZ 1 2) = 2%nat) /\
    (forall i, (i < 2)%nat -> Demo3.notedBy i (env s') = [] ++ seqZ 1 2).
Proof.
  destruct (retries_exhausted
              (Demo3.notingHandlers Demo3.notingHooks (Demo3.answering 503))
              Demo3.notingRetry2 2)
    as (response & s' & Hrun & Hstatus & Hcalls & Hords & Hseen).
  - reflexivity.
  - lia.
  - reflexivity.
  - reflexivity.
  - intros url init e. exists (native 503), e. repeat split.
  - constructor.
  - constructor.
  - constructor.
  - repeat constructor.
  - exists response, s'.
    split; [exact Hrun |]. split; [exact Hstatus |]. split; [exact Hcalls |].
    split; [exact Hords |].
    intros i Hi. apply (Hseen Demo3.notedBy); [| | exact Hi].
    + intros j. split; [reflexivity |]. repeat split; constructor.
    + intros k hook Hk err n e j.
      destruct k as [|[|k]]; cbn in Hk; inversion Hk; subst hook;
        unfold Demo3.noting, Demo3.notedBy; cbn [snd];
        rewrite omap_app; cbn; repeat case_decide; try reflexivity; lia.
Defined.

Lemma non_retryable_method_witness :
  execute (handlers retryHooks (respond 503)) postRetry3
    = (Throw (HTTPError (envelope 503)),
       snd (doFetch (handlers retryHooks (respond 503)) postRetry3)) /\
  doFetchCalls
    (trace (snd (doFetch (handlers retryHooks (respond 503)) postRetry3)))
    = 1%nat /\
  beforeRetryCalls
    (trace (snd (doFetch (handlers retryHooks (respond 503)) postRetry3)))
    = [] /\
  sleeps (trace (snd (doFetch (handlers retryHooks (respond 503)) postRetry3)))
    = [].
Proof.
  apply (non_retryable_method_fails_once
           (handlers retryHooks (respond 503)) postRetry3 (envelope 503)).
  - cbn. lia.
  - reflexivity.
  - vm_compute. reflexivity.
  - reflexivity.
Defined.

Lemma timeout_error_witness :
  attempts (handlers retryHooks aborted) (policyOf (this getTimeout)) 4 0 ENull
      getTimeout
    = (Throw TimeoutError, snd (doFetch (handlers retryHooks aborted) getTimeout)) /\
  execute (handlers retryHooks aborted) getTimeout
    = (Throw TimeoutError, snd (doFetch (handlers retryHooks aborted) getTimeout)) /\
  beforeRetryCalls
    (trace (snd (doFetch (handlers retryHooks aborted) getTimeout))) = [].
Proof.
  destruct (timeout_error_is_terminal (handlers retryHooks aborted)
              (policyOf (this getTimeout)) 3 0 ENull getTimeout
              (snd (doFetch (handlers retryHooks aborted) getTimeout)))
    as (Hloop & Hexec & _ & Hretry & _).
  - vm_compute. reflexivity.
  - split; [exact Hloop |]. split; [| exact Hretry].
    apply Hexec. cbn. lia.
Defined.

Lemma backoff_delay_witness :
  steps (trace (snd (execute (handlers retryHooks (respond 503)) getRetry2)))
    = [Attempt; Wait 1000; Attempt; Wait 2000; Attempt] /\
  steps (trace (snd (execute (handlers retryHooks (respond 503)) getLinear)))
    = [Attempt; Wait 250; Attempt; Wait 500; Attempt; Wait 750; Attempt].
Proof.
  split.
  - destruct (backoff_delay_waited (handlers retryHooks (respond 503))
                getRetry2 2) as ((k & _ & Hsteps & _ & Hall) & _).
    + reflexivity.
    + lia.
    + rewrite Hsteps, Hall.
      * vm_compute. reflexivity.
      * reflexivity.
      * reflexivity.
      * intros url init e. exists (native 503), (S e). repeat split.
      * constructor.
      * constructor.
      * constructor.
      * repeat constructor.
  - destruct (backoff_delay_waited (handlers retryHooks (respond 503))
                getLinear 3) as ((k & _ & Hsteps & _ & Hall) & _).
    + reflexivity.
    + lia.
    + rewrite Hsteps, Hall.
      * vm_compute. reflexivity.
      * reflexivity.
      * reflexivity.
      * intros url init e. exists (native 503), (S e). repeat split.
      * constructor.
      * constructor.
      * constructor.
      * repeat constructor.
Defined.

(** *** After-response replacement *)

Lemma after_response_replacement_witness :
  fst (doFetch (handlers replacingHooks (respond 500)) getOnce)
    = Throw (HTTPError (replaced (envelope 500))) /\
  fst (execute (handlers replacingHooks (respond 500)) getOnce)
    = Throw (HTTPError (replaced (envelope 500))).
Proof.
  pose (H := handlers replacingHooks (respond 500)).
  pose (sp := snd (prepare H (log EvDoFetch getOnce))).
  pose (s3 := snd (callFetch H "https://api.example.com/items" None sp)).
  pose (s4 := snd (runAfterResponse 0 [looksOnly] (envelope 500) s3)).
  destruct (after_response_replacement H getOnce
              "https://api.example.com/items" None None sp sp (native 500) s3
              [looksOnly] replaceBody [looksOnly] (envelope 500) s4
              (replaced (envelope 500)) 1%nat)
    as (_ & Hrest).
  - vm_compute. reflexivity.
  - vm_compute. reflexivity.
  - vm_compute. reflexivity.
  - reflexivity.
  - vm_compute. reflexivity.
  - vm_compute. reflexivity.
  - destruct Hrest as (s5 & _ & Hthrow); [repeat constructor |].
    destruct (Hthrow eq_refl) as (_ & Hnone).
    destruct (Hnone eq_refl) as (Hdo & Hexec).
    split.
    + fold H. rewrite Hdo. reflexivity.
    + fold H. rewrite Hexec; [reflexivity | cbn; lia | reflexivity].
Defined.

(** The same through [execute]: the error raised on a 500 and the
    response returned on a 200 both carry the replaced body. *)
Example replacement_reaches_caller :
  fst (execute (handlers replacingHooks (respond 500)) getOnce)
    = Throw (HTTPError (replaced (envelope 500))) /\
  fst (execute (handlers replacingHooks (respond 200)) getOnce)
    = Return (replaced (envelope 200)).
Proof. split; vm_compute; reflexivity. Qed.

(** *** Response shortcuts *)

(** On a transport that always answers 503, with retry limit 2, [json()]
    makes three attempts and [blob()] one. *)
Example blob_does_not_retry :
  doFetchCalls (trace (snd (json (handlers retryHooks (respond 503)) getRetry2)))
    = 3%nat /\
  sleeps (trace (snd (json (handlers retryHooks (respond 503)) getRetry2)))
    = [1000; 2000] /\
  doFetchCalls (trace (snd (blob (handlers retryHooks (respond 503)) getRetry2)))
    = 1%nat /\
  sleeps (trace (snd (blob (handlers retryHooks (respond 503)) getRetry2)))
    = [].
Proof. repeat split; vm_compute; reflexivity. Qed.

(** *** Body encoding *)

(** C9 fails on the engine.  A request made with the option
    [headers: { 'Content-Type': 'application/json' }] and given a form
    field is sent as form data together with that header: the body
    preparation deletes the key [content-type] only, and the constructor
    stores header names as they are given.  The same content type given
    through [set], which puts names in lower case, is removed. *)
Theorem multipart_keeps_content_type_option :
  fetches (trace (snd (doFetch Demo4.uploadHandlers
                         (start Demo4.uploadWithOption))))
    = [("/upload"%string,
        {| i_method := "POST";
           i_headers := {["Content-Type"%string := "application/json"%string]};
           i_body := Some (PFormData [FieldEntry "email" "a@example.com"]);
           i_credentials := "same-origin";
           i_redirect := "follow" |})] /\
  fetches (trace (snd (doFetch Demo4.uploadHandlers
                         (start Demo4.uploadWithSet))))
    = [("/upload"%string,
        {| i_method := "POST";
           i_headers := ∅;
           i_body := Some (PFormData [FieldEntry "email" "a@example.com"]);
           i_credentials := "same-origin";
           i_redirect := "follow" |})].
Proof. split; vm_compute; reflexivity. Qed.

(** *** The timer when a before-request hook throws *)

(** C3 fails on the engine.  With a timeout of 5000 ms and a
    before-request hook that throws, [doFetch] sets the timer, throws the
    hook's error and never clears the timer: it is still armed when the
    attempt has ended. *)
Theorem before_request_throw_leaves_timer :
  fst (doFetch (handlers throwingHooks (respond 200)) getTimeout) = Throw boom /\
  omap asTimer
    (trace (snd (doFetch (handlers throwingHooks (respond 200)) getTimeout)))
    = [(true, 1%nat)] /\
  1%nat ∈ armed (snd (doFetch (handlers throwingHooks (respond 200)) getTimeout)).
Proof.
  split; [vm_compute; reflexivity |]. split; [vm_compute; reflexivity |].
  apply (bool_decide_unpack _). vm_compute. exact I.
Qed.

(** The same request without the throwing hook: the timer is cleared. *)
Example timer_cleared_without_hook :
  omap asTimer
    (trace (snd (doFetch (handlers noHooks (respond 200)) getTimeout)))
    = [(true, 1%nat); (false, 1%nat)] /\
  1%nat ∉ armed (snd (doFetch (handlers noHooks (respond 200)) getTimeout)).
Proof.
  split; [vm_compute; reflexivity |].
  apply (bool_decide_unpack _). vm_compute. exact I.
Qed.

(** *** A before-error hook that returns nothing *)

(** C4 fails on the engine.  On a 500 with a before-error hook that
    returns nothing, the next hook is called with [undefined], [undefined]
    is thrown inside the [try], and the [catch] block, reading its [name],
    throws a TypeError: [doFetch] and [execute] raise that TypeError, not
    the [HTTPError]. *)
Theorem before_error_returning_nothing :
  fst (doFetch (handlers emptyBeforeError (respond 500)) getOnce)
    = Throw (nameTypeError EUndefined) /\
  omap asBeforeError
    (trace (snd (doFetch (handlers emptyBeforeError (respond 500)) getOnce)))
    = [(0%nat, HTTPError (envelope 500)); (1%nat, EUndefined)] /\
  fst (execute (handlers emptyBeforeError (respond 500)) getOnce)
    = Throw (nameTypeError EUndefined) /\
  fst (settle (handlers emptyBeforeError (respond 500)) (native 500) getOnce)
    = Throw EUndefined.
Proof. repeat split; vm_compute; reflexivity. Qed.

(** *** Hook errors *)

Lemma throwsOnce_threw :
  hookThrew (handlers throwsOnceHooks (respond 200)) getRetry1 boom
    (snd (doFetch (handlers throwsOnceHooks (respond 200)) getRetry1)).
Proof.
  eapply BeforeRequestThrew.
  - reflexivity.
  - vm_compute. reflexivity.
Qed.

(** A before-request hook throws in the first attempt of a GET with one
    retry left: the loop runs the before-retry hook, waits and makes a
    second attempt, which succeeds. *)
Lemma hook_error_retried :
  hookThrew (handlers throwsOnceHooks (respond 200)) getRetry1 boom
    (snd (doFetch (handlers throwsOnceHooks (respond 200)) getRetry1)) /\
  fst (execute (handlers throwsOnceHooks (respond 200)) getRetry1)
    = Return (envelope 200) /\
  doFetchCalls
    (trace (snd (execute (handlers throwsOnceHooks (respond 200)) getRetry1)))
    = 2%nat /\
  sleeps
    (trace (snd (execute (handlers throwsOnceHooks (respond 200)) getRetry1)))
    = [1000] /\
  ~ hookErrorTerminal (handlers throwsOnceHooks (respond 200)) getRetry1.
Proof.
  split; [exact throwsOnce_threw |].
  split; [vm_compute; reflexivity |].
  split; [vm_compute; reflexivity |].
  split; [vm_compute; reflexivity |].
  intros Hterminal.
  pose proof (Hterminal _ _ throwsOnce_threw) as Hexec.
  apply (f_equal fst) in Hexec. vm_compute in Hexec. discriminate Hexec.
Qed.

Lemma hook_error_outcome_witness :
  fst (attempts (handlers throwsOnceHooks (respond 200))
         (policyOf (this getRetry1)) 2 0 ENull getRetry1)
    = Return (envelope 200) /\
  attempts (handlers retryThrowsHooks (respond 503)) (policyOf (this getRetry2))
      3 0 ENull getRetry2
    = (Throw boom,
       snd (runBeforeRetry 0 [retryThrows] (HTTPError (envelope 503)) (0 + 1)
              (snd (doFetch (handlers retryThrowsHooks (respond 503))
                      getRetry2)))).
Proof.
  split.
  - destruct (proj1 (hook_error_outcome
                       (handlers throwsOnceHooks (respond 200))
                       (policyOf (this getRetry1)) 1 0 ENull getRetry1)
                _ _ throwsOnce_threw) as (_ & Hloop).
    rewrite Hloop. vm_compute. reflexivity.
  - destruct (proj2 (hook_error_outcome
                       (handlers retryThrowsHooks (respond 503))
                       (policyOf (this getRetry2)) 2 0 ENull getRetry2)
                (HTTPError (envelope 503))
                (snd (doFetch (handlers retryThrowsHooks (respond 503)) getRetry2))
                boom
                (snd (runBeforeRetry 0 [retryThrows] (HTTPError (envelope 503))
                        (0 + 1)
                        (snd (doFetch (handlers retryThrowsHooks (respond 503))
                                getRetry2)))))
      as (Hloop & _).
    + vm_compute. reflexivity.
    + reflexivity.
    + vm_compute. reflexivity.
    + exact Hloop.
Defined.

End Runs.

(** * Further properties of the engine *)

Section More.

Context {E : Type} {host : Host}.

#[local] Abbreviation M := (@M E).
#[local] Abbreviation State := (@State E).
#[local] Abbreviation Handlers := (@Handlers E).

Implicit Types (s : State) (h : Handlers).

(** ** The budget of attempts *)

Lemma runBeforeRetry_sleeps hooks i e n s :
  sleeps (trace (snd (@runBeforeRetry E i hooks e n s))) = sleeps (trace s) /\
  doFetchCalls (trace (snd (@runBeforeRetry E i hooks e n s)))
    = doFetchCalls (trace s).
Proof.
  destruct (runBeforeRetry_trace hooks i e n s) as (k & Hk).
  unfold sleeps, doFetchCalls. rewrite Hk, !omap_app.
  rewrite !retryEvents_outer by reflexivity. rewrite !app_nil_r.
  split; reflexivity.
Qed.

Lemma attempts_bounded h p n : forall attempt lastError s,
  retryLimit p = attempt + Z.of_nat n ->
  exists k : nat,
    (1 <= k <= S n)%nat /\
    doFetchCalls (trace (snd (attempts h p (S n) attempt lastError s)))
      = (doFetchCalls (trace s) + k)%nat /\
    sleeps (trace (snd (attempts h p (S n) attempt lastError s)))
      = sleeps (trace s)
        ++ (retryDelay p <$> seqZ (attempt + 1) (Z.of_nat k - 1)).
Proof.
  induction n as [|n IH]; intros attempt lastError s Hlimit;
    rewrite attempts_unfold;
    destruct (doFetch h s) as [[response|error] s1] eqn:Hfetch;
    destruct (doFetch_counts_eq _ _ _ _ Hfetch) as (Hcalls & _ & _ & Hsl).
  - exists 1%nat. cbn [snd]. rewrite Hcalls, Hsl. cbn. rewrite app_nil_r.
    repeat split; lia.
  - assert (rethrows p (_method (this s1)) attempt error = true) as ->.
    { unfold rethrows. replace (attempt >=? retryLimit p) with true by lia.
      apply orb_true_r. }
    exists 1%nat. cbn [snd]. rewrite Hcalls, Hsl. cbn. rewrite app_nil_r.
    repeat split; lia.
  - exists 1%nat. cbn [snd]. rewrite Hcalls, Hsl. cbn. rewrite app_nil_r.
    repeat split; lia.
  - destruct (rethrows p (_method (this s1)) attempt error) eqn:Hre.
    { exists 1%nat. cbn [snd]. rewrite Hcalls, Hsl. cbn. rewrite app_nil_r.
      repeat split; lia. }
    pose proof (runBeforeRetry_sleeps (beforeRetry (_hooks h)) 0%nat error
                  (attempt + 1) s1) as (Hs2 & Hc2).
    destruct (runBeforeRetry 0 _ error (attempt + 1) s1) as [[[]|e2] s2].
    + cbn [snd] in Hs2, Hc2.
      destruct (IH (attempt + 1) error
                  (log (EvSleep (retryDelay p (attempt + 1))) s2))
        as (k & Hk & Hc & Hs); [lia |].
      exists (S k). split; [lia |]. split.
      * rewrite Hc. unfold doFetchCalls in *. cbn [trace log].
        rewrite omap_app. cbn. rewrite app_nil_r, Hc2, Hcalls. lia.
      * rewrite Hs. unfold sleeps in *. cbn [trace log].
        rewrite omap_app. cbn. rewrite Hs2, Hsl.
        rewrite (seqZ_cons (attempt + 1) (Z.of_nat (S k) - 1)) by lia.
        replace (Z.pred (Z.of_nat (S k) - 1)) with (Z.of_nat k - 1) by lia.
        replace (Z.succ (attempt + 1)) with (attempt + 1 + 1) by lia.
        cbn. rewrite <- app_assoc. reflexivity.
    + cbn [snd] in *. exists 1%nat. rewrite Hc2, Hs2, Hcalls, Hsl. cbn.
      rewrite app_nil_r. repeat split; lia.
Qed.

(** X1.  Whatever the transport and the hooks do, [execute] with retry
    limit [N >= 0] makes [k] attempts with [1 <= k <= N + 1], and between
    them waits exactly the delays of the ordinals [1, ..., k - 1]. *)
Theorem execute_attempts_bounded h s :
  0 <= retryLimit (policyOf (this s)) ->
  exists k : Z,
    1 <= k <= retryLimit (policyOf (this s)) + 1 /\
    Z.of_nat (doFetchCalls (trace (snd (execute h s))))
      = Z.of_nat (doFetchCalls (trace s)) + k /\
    sleeps (trace (snd (execute h s)))
      = sleeps (trace s)
        ++ (retryDelay (policyOf (this s)) <$> seqZ 1 (k - 1)).
Proof.
  intros Hlimit. rewrite execute_first by exact Hlimit.
  destruct (attempts_bounded h (policyOf (this s))
              (Z.to_nat (retryLimit (policyOf (this s)))) 0 ENull s)
    as (k & Hk & Hc & Hs); [lia |].
  exists (Z.of_nat k). split; [lia |]. split; [rewrite Hc; lia |].
  rewrite Hs. reflexivity.
Qed.

(** X2.  With a negative retry limit the loop does not run: [execute]
    makes no attempt and throws [null], the initial [lastError]. *)
Theorem execute_negative_limit h s :
  retryLimit (policyOf (this s)) < 0 ->
  execute h s = (Throw ENull, s).
Proof.
  intros Hneg. rewrite execute_unfold.
  replace (Z.to_nat (retryLimit (policyOf (this s)) + 1)) with O by lia.
  reflexivity.
Qed.

(** X3.  With retry limit 0, which is the default, [execute] is one call
    of [doFetch]: same outcome, same final state. *)
Theorem execute_without_retry h s :
  retryLimit (policyOf (this s)) = 0 ->
  execute h s = doFetch h s.
Proof.
  intros Hzero. rewrite execute_first by lia. rewrite Hzero.
  change (Z.to_nat 0) with O. rewrite attempts_unfold.
  destruct (doFetch h s) as [[response|error] s1]; [reflexivity |].
  assert (rethrows (policyOf (this s)) (_method (this s1)) 0 error = true) as ->.
  { unfold rethrows. rewrite Hzero. apply orb_true_r. }
  reflexivity.
Qed.

(** X4.  An [HTTPError] whose status is not in the retryable set is never
    retried, whatever the method and the budget left: the iteration
    rethrows it in the state the attempt left, with no before-retry hook
    call and no wait. *)
Theorem http_error_status_not_retryable h p fuel attempt lastError s r s1 :
  doFetch h s = (Throw (HTTPError r), s1) ->
  includesNum (retryStatusCodes p) (status r) = false ->
  attempts h p (S fuel) attempt lastError s = (Throw (HTTPError r), s1) /\
  (p = policyOf (this s) -> 0 <= retryLimit p ->
   execute h s = (Throw (HTTPError r), s1)) /\
  doFetchCalls (trace s1) = S (doFetchCalls (trace s)) /\
  beforeRetryCalls (trace s1) = beforeRetryCalls (trace s) /\
  sleeps (trace s1) = sleeps (trace s).
Proof.
  intros Hfetch Hstatus.
  destruct (doFetch_counts_eq _ _ _ _ Hfetch) as (Hcalls & Hretry & _ & Hsl).
  assert (Hre : forall a, rethrows p (_method (this s1)) a (HTTPError r) = true).
  { intros a. unfold rethrows. cbn [isTimeoutError httpNotRetryable].
    rewrite Hstatus. cbn. destruct (negb _); reflexivity. }
  split; [apply attempts_rethrow; [exact Hfetch | apply Hre] |].
  split; [| auto].
  intros -> Hlimit. rewrite execute_first by exact Hlimit.
  apply attempts_rethrow; [exact Hfetch | apply Hre].
Qed.

(** ** The shape of an attempt *)

(** What [prepare] does, in full. *)
Lemma prepare_spec h s :
  exists sp,
    prepare h s =
      (Return (buildUrl (this s), fst (encodeBody h (this s)),
               match effectiveTimeout (this s) with
               | Some _ => Some (nextTimer s)
               | None => None
               end), sp) /\
    this sp = snd (encodeBody h (this s)) /\
    env sp = env s /\
    armed sp = match effectiveTimeout (this s) with
               | Some _ => {[nextTimer s]} ∪ armed s
               | None => armed s
               end /\
    trace sp = trace s ++ [EvNewAbortController]
               ++ (if _externalSignal (this s) then [EvAddAbortListener] else [])
               ++ match effectiveTimeout (this s) with
                  | Some ms => [EvSetTimeout (nextTimer s) ms]
                  | None => []
                  end.
Proof.
  pose proof (inner_prepareBody h s) as Hin.
  unfold prepare, bind, prepareBody, emit, effectiveTimeout in *.
  destruct (encodeBody h (this s)) as [payload r] eqn:Henc. cbn in Hin |- *.
  destruct Hin as (_ & _ & _ & Hext & _). cbn in Hext.
  assert (Ht : _timeout r = _timeout (this s)).
  { unfold encodeBody in Henc.
    repeat match type of Henc with
           | context [if ?b then _ else _] => destruct b
           | context [match ?v with JUndefined => _ | _ => _ end] => destruct v
           end; inversion Henc; subst; reflexivity. }
  rewrite Hext.
  destruct (_externalSignal (this s)); cbn; rewrite Ht;
    destruct (orElse (t_request (_timeout (this s)))
                (t_response (_timeout (this s)))) as [ms|] eqn:Heff; cbn;
    try (destruct (negb (ms =? 0)); cbn);
    eexists; (split; [reflexivity |]); cbn;
    rewrite <- ?app_assoc; repeat split; reflexivity.
Qed.

(** The three ways an attempt goes: a before-request hook throws; the
    transport rejects; the transport answers and [settle] decides. *)
Lemma doFetch_cases h s :
  exists sp,
    let url := buildUrl (this s) in
    let payload := fst (encodeBody h (this s)) in
    let timeoutId := match effectiveTimeout (this s) with
                     | Some _ => Some (nextTimer s)
                     | None => None
                     end in
    prepare h (log EvDoFetch s) = (Return (url, payload, timeoutId), sp) /\
    ((exists e s1,
        runBeforeRequest 0 (beforeRequest (_hooks h)) sp = (Throw e, s1) /\
        doFetch h s = (Throw e, s1)) \/
     (exists s2,
        runBeforeRequest 0 (beforeRequest (_hooks h)) sp = (Return tt, s2) /\
        ((exists e s3,
            callFetch h url payload s2 = (Throw e, s3) /\
            doFetch h s = (Throw (caught e), onFinally timeoutId s3)) \/
         (exists nr s3,
            callFetch h url payload s2 = (Return nr, s3) /\
            doFetch h s =
              match settle h nr s3 with
              | (Return response, s4) => (Return response, onFinally timeoutId s4)
              | (Throw e, s4) => (Throw (caught e), onFinally timeoutId s4)
              end)))).
Proof.
  destruct (prepare_spec h (log EvDoFetch s)) as (sp & Hprep & _).
  exists sp. cbn zeta. split; [exact Hprep |].
  destruct (runBeforeRequest 0 (beforeRequest (_hooks h)) sp)
    as [[[]|e] s2] eqn:Hbr.
  - right. exists s2. split; [reflexivity |].
    destruct (callFetch h (buildUrl (this s)) (fst (encodeBody h (this s))) s2)
      as [[nr|e] s3] eqn:Hfetch.
    + right. exists nr, s3. split; [reflexivity |].
      exact (doFetch_after_fetch _ _ _ _ _ _ _ _ _ Hprep Hbr Hfetch).
    + left. exists e, s3. split; [reflexivity |].
      rewrite doFetch_unfold. unfold doFetchBody.
      unfold bind at 1. change (this (log EvDoFetch s)) with (this s) in Hprep.
      rewrite Hprep. unfold bind at 1. rewrite Hbr.
      unfold tryCatchFinally, exchange. unfold bind at 1. rewrite Hfetch.
      rewrite onCatch_caught. reflexivity.
  - left. exists e, s2. split; [reflexivity |].
    apply hookThrew_doFetch. eapply BeforeRequestThrew; eassumption.
Qed.

(** ** Readings of the trace across the parts of an attempt *)

Section Quiet.

Context {X : Type} (π : Event -> option X) (ks : list Kind).
Hypothesis Hπ : seesOnly ks π.

Lemma quiet_log ev s :
  kindOf ev ∉ ks -> omap π (trace (log ev s)) = omap π (trace s).
Proof.
  intros Hk. cbn. rewrite omap_app. cbn. rewrite (Hπ ev Hk). apply app_nil_r.
Qed.

Lemma quiet_ret {A} (a : A) : quiet π (@ret E A a).
Proof. intros s. reflexivity. Qed.

Lemma quiet_throw {A} e : quiet π (@throw E A e).
Proof. intros s. reflexivity. Qed.

Lemma quiet_bind {A B} (c : M A) (k : A -> M B) :
  quiet π c -> (forall a, quiet π (k a)) -> quiet π (bind c k).
Proof.
  intros Hc Hk s. unfold bind. specialize (Hc s).
  destruct (c s) as [[a|e] s1]; cbn in *; [| exact Hc].
  rewrite Hk. exact Hc.
Qed.

Lemma quiet_emit ev : kindOf ev ∉ ks -> quiet π (@emit E ev).
Proof. intros Hk s. apply quiet_log, Hk. Qed.

Lemma quiet_runBeforeRequest hooks :
  KBeforeRequest ∉ ks -> forall i, quiet π (@runBeforeRequest E i hooks).
Proof.
  intros Hk. induction hooks as [|hook rest IH]; intros i; cbn.
  - apply quiet_ret.
  - apply quiet_bind; [apply quiet_emit, Hk | intros _].
    apply quiet_bind; [| intros _; apply IH].
    intros s. unfold callBeforeRequest.
    destruct (hook (this s) (env s)) as [[r t'] e']. reflexivity.
Qed.

Lemma quiet_runAfterResponse hooks :
  KAfterResponse ∉ ks ->
  forall i r, quiet π (@runAfterResponse E i hooks r).
Proof.
  intros Hk. induction hooks as [|hook rest IH]; intros i r; cbn.
  - apply quiet_ret.
  - apply quiet_bind; [apply quiet_emit, Hk | intros _].
    apply quiet_bind; [| intros res; apply IH].
    intros s. unfold callAfterResponse.
    destruct (hook r (env s)) as [res e']. reflexivity.
Qed.

Lemma quiet_runBeforeError hooks :
  KBeforeError ∉ ks ->
  forall i e, quiet π (@runBeforeError E i hooks e).
Proof.
  intros Hk. induction hooks as [|hook rest IH]; intros i e; cbn.
  - apply quiet_ret.
  - apply quiet_bind; [apply quiet_emit, Hk | intros _].
    apply quiet_bind; [| intros res; apply IH].
    intros s. unfold callBeforeError.
    destruct (hook e (env s)) as [res e']. reflexivity.
Qed.

Lemma quiet_callFetch h url payload :
  KFetch ∉ ks -> quiet π (callFetch h url payload).
Proof.
  intros Hk s. unfold callFetch.
  destruct (_customFetch h url _ (env s)) as [r e']. cbn [snd].
  change (trace (setEnv e' ?t)) with (trace t). apply quiet_log, Hk.
Qed.

Lemma quiet_settle h nr :
  KAfterResponse ∉ ks -> KBeforeError ∉ ks -> quiet π (settle h nr).
Proof.
  intros Har Hbe. unfold settle.
  apply quiet_bind; [apply quiet_runAfterResponse, Har | intros r s].
  unfold throwOrReturn.
  destruct (_throwHttpErrors (this s) && negb (n_ok nr)).
  - apply quiet_bind; [apply quiet_runBeforeError, Hbe | intros e; apply quiet_throw].
  - apply quiet_ret.
Qed.

Lemma quiet_onFinally timeoutId s :
  KClearTimeout ∉ ks ->
  omap π (trace (onFinally timeoutId s)) = omap π (trace s).
Proof.
  intros Hk. destruct timeoutId as [id|]; [| reflexivity].
  unfold onFinally, clearTimeout.
  rewrite quiet_log by exact Hk. reflexivity.
Qed.

End Quiet.

Ltac unseen := apply (bool_decide_unpack _); exact I.
Ltac seen :=
  first [ apply list_elem_of_here
        | apply list_elem_of_further, list_elem_of_here
        | apply list_elem_of_further, list_elem_of_further, list_elem_of_here ].

(** ** The timers *)

Lemma callFetch_timers h url payload s :
  armed (snd (callFetch h url payload s)) = armed s.
Proof.
  unfold callFetch. destruct (_customFetch h url _ (env s)) as [r e'].
  reflexivity.
Qed.

Lemma runAfterResponse_timers hooks : forall i r s,
  armed (snd (@runAfterResponse E i hooks r s)) = armed s.
Proof.
  induction hooks as [|hook rest IH]; intros i r s; cbn; [reflexivity |].
  unfold bind, emit, callAfterResponse.
  destruct (hook r _) as [[res|e] e']; cbn; [| reflexivity].
  rewrite IH. reflexivity.
Qed.

Lemma runBeforeError_timers hooks : forall i e s,
  armed (snd (@runBeforeError E i hooks e s)) = armed s.
Proof.
  induction hooks as [|hook rest IH]; intros i e s; cbn; [reflexivity |].
  unfold bind, emit, callBeforeError.
  destruct (hook e _) as [[res|e1] e']; cbn; [| reflexivity].
  rewrite IH. reflexivity.
Qed.

Lemma runBeforeRetry_timers hooks : forall i e n s,
  armed (snd (@runBeforeRetry E i hooks e n s)) = armed s.
Proof.
  induction hooks as [|hook rest IH]; intros i e n s; cbn; [reflexivity |].
  unfold bind, emit, callBeforeRetry.
  destruct (hook e n _) as [[[]|e1] e']; cbn; [| reflexivity].
  rewrite IH. reflexivity.
Qed.

Lemma settle_timers h nr s : armed (snd (settle h nr s)) = armed s.
Proof.
  unfold settle, bind.
  pose proof (runAfterResponse_timers (afterResponse (_hooks h)) 0%nat
                (newResponse nr (n_text nr) (decodeBody h nr)) s) as Har.
  destruct (runAfterResponse 0 _ _ s) as [[r|e] s1]; cbn in *; [| exact Har].
  unfold throwOrReturn.
  destruct (_throwHttpErrors (this s1) && negb (n_ok nr)); [| exact Har].
  unfold bind.
  pose proof (runBeforeError_timers (beforeError (_hooks h)) 0%nat
                (HTTPError r) s1) as Hbe.
  destruct (runBeforeError 0 _ _ s1) as [[e|e] s2]; cbn in *; congruence.
Qed.

Lemma onFinally_timers timeoutId s :
  armed (onFinally timeoutId s) =
  match timeoutId with
  | Some id => armed s ∖ {[id]}
  | None => armed s
  end.
Proof. destruct timeoutId; reflexivity. Qed.

(** The timer calls of one attempt, and the timers armed after it. *)
Lemma doFetch_timers h s :
  Forall returnsBR (beforeRequest (_hooks h)) ->
  timerCalls (trace (snd (doFetch h s))) =
    timerCalls (trace s)
    ++ match effectiveTimeout (this s) with
       | Some ms => [(true, nextTimer s, ms); (false, nextTimer s, 0)]
       | None => []
       end /\
  armed (snd (doFetch h s)) =
    match effectiveTimeout (this s) with
    | Some _ => armed s ∖ {[nextTimer s]}
    | None => armed s
    end.
Proof.
  intros Hbr.
  assert (Hsee : seesOnly [KSetTimeout; KClearTimeout] asTimerCall).
  { intros [] Hk; try reflexivity; exfalso; apply Hk; seen. }
  destruct (prepare_spec h (log EvDoFetch s))
    as (sp & Hprep & _ & _ & Harmed & Htrace).
  change (this (log EvDoFetch s)) with (this s) in *.
  change (nextTimer (log EvDoFetch s)) with (nextTimer s) in *.
  change (armed (log EvDoFetch s)) with (armed s) in *.
  destruct (runBeforeRequest_returns _ Hbr 0%nat sp) as (s2 & Hrun).
  pose proof (quiet_runBeforeRequest asTimerCall _ Hsee
                (beforeRequest (_hooks h)) ltac:(unseen) 0%nat sp) as Hq2.
  pose proof (runBeforeRequest_timers (beforeRequest (_hooks h)) 0%nat sp) as Ht2.
  rewrite Hrun in Hq2, Ht2. cbn [snd] in Hq2, Ht2.
  assert (Hsp : timerCalls (trace sp) =
                timerCalls (trace s)
                ++ match effectiveTimeout (this s) with
                   | Some ms => [(true, nextTimer s, ms)]
                   | None => []
                   end).
  { unfold timerCalls. rewrite Htrace. cbn [trace log].
    rewrite !omap_app. cbn.
    destruct (_externalSignal (this s)); cbn; rewrite ?app_nil_r;
      destruct (effectiveTimeout (this s)); cbn; rewrite ?app_nil_r;
      reflexivity. }
  remember (match effectiveTimeout (this s) with
            | Some _ => Some (nextTimer s)
            | None => None
            end) as timeoutId eqn:Htid.
  assert (Hend : forall r s4,
    doFetch h s = (r, onFinally timeoutId s4) ->
    omap asTimerCall (trace s4) = omap asTimerCall (trace s2) ->
    armed s4 = armed s2 ->
    timerCalls (trace (snd (doFetch h s))) =
      timerCalls (trace s)
      ++ match effectiveTimeout (this s) with
         | Some ms => [(true, nextTimer s, ms); (false, nextTimer s, 0)]
         | None => []
         end /\
    armed (snd (doFetch h s)) =
      match effectiveTimeout (this s) with
      | Some _ => armed s ∖ {[nextTimer s]}
      | None => armed s
      end).
  { intros r s4 Hd Hq4 Ht4. rewrite Hd. cbn [snd].
    rewrite onFinally_timers, Ht4, Ht2, Harmed.
    unfold timerCalls in *. rewrite Htid.
    destruct (effectiveTimeout (this s)) as [ms|]; cbn.
    - rewrite omap_app, Hq4, Hq2, Hsp. cbn. rewrite <- app_assoc.
      split; [reflexivity |].
      rewrite difference_union_distr_l_L, difference_diag_L.
      apply union_empty_l_L.
    - rewrite Hq4, Hq2, Hsp, app_nil_r. split; reflexivity. }
  destruct (doFetch_cases h s) as (sp' & Hprep' & Hcases). cbn zeta in *.
  rewrite <- Htid in Hprep'.
  rewrite Hprep in Hprep'. inversion Hprep'; subst sp'. clear Hprep'.
  destruct Hcases as [(e & s1 & Hthrow & _) | (s2' & Hrun' & Hcases)];
    [rewrite Hrun in Hthrow; discriminate |].
  rewrite Hrun in Hrun'. inversion Hrun'; subst s2'. clear Hrun'.
  destruct Hcases as [(e & s3 & Hfetch & Hd) | (nr & s3 & Hfetch & Hd)].
  - rewrite <- Htid in Hd. apply (Hend _ _ Hd).
    + pose proof (quiet_callFetch asTimerCall _ Hsee h (buildUrl (this s))
                    (fst (encodeBody h (this s))) ltac:(unseen) s2) as Hq.
      rewrite Hfetch in Hq. exact Hq.
    + pose proof (callFetch_timers h (buildUrl (this s))
                    (fst (encodeBody h (this s))) s2) as Ht.
      rewrite Hfetch in Ht. exact Ht.
  - rewrite <- Htid in Hd.
    pose proof (quiet_callFetch asTimerCall _ Hsee h (buildUrl (this s))
                  (fst (encodeBody h (this s))) ltac:(unseen) s2) as Hq3.
    pose proof (callFetch_timers h (buildUrl (this s))
                  (fst (encodeBody h (this s))) s2) as Ht3.
    rewrite Hfetch in Hq3, Ht3. cbn [snd] in Hq3, Ht3.
    pose proof (quiet_settle asTimerCall _ Hsee h nr ltac:(unseen)
                  ltac:(unseen) s3) as Hq4.
    pose proof (settle_timers h nr s3) as Ht4.
    destruct (settle h nr s3) as [[r|e] s4]; cbn [snd] in Hq4, Ht4;
      apply (Hend _ _ Hd); congruence.
Qed.

(** X5.  When the before-request hooks return, an attempt sets its timer
    exactly when the effective timeout ([request || response]) is truthy,
    with that duration, and clears that same timer before it exits, by
    return or by throw; no other timer call is made, and the timer is not
    armed afterwards. *)
Theorem timer_set_and_cleared h s :
  Forall returnsBR (beforeRequest (_hooks h)) ->
  timerCalls (trace (snd (doFetch h s))) =
    timerCalls (trace s)
    ++ match effectiveTimeout (this s) with
       | Some ms => [(true, nextTimer s, ms); (false, nextTimer s, 0)]
       | None => []
       end /\
  armed (snd (doFetch h s)) =
    match effectiveTimeout (this s) with
    | Some _ => armed s ∖ {[nextTimer s]}
    | None => armed s
    end.
Proof. exact (doFetch_timers h s). Qed.

Lemma attempts_timers h p :
  Forall returnsBR (beforeRequest (_hooks h)) ->
  forall fuel attempt lastError s,
    armed (snd (attempts h p fuel attempt lastError s)) ⊆ armed s.
Proof.
  intros Hbr. induction fuel as [|fuel IH]; intros attempt lastError s.
  - reflexivity.
  - rewrite attempts_unfold.
    assert (Hd : armed (snd (doFetch h s)) ⊆ armed s).
    { destruct (doFetch_timers h s Hbr) as (_ & ->).
      destruct (effectiveTimeout (this s)); [| reflexivity].
      apply subseteq_difference_l. reflexivity. }
    destruct (doFetch h s) as [[response|error] s1]; cbn [snd] in *;
      [exact Hd |].
    destruct (rethrows p (_method (this s1)) attempt error); [exact Hd |].
    pose proof (runBeforeRetry_timers (beforeRetry (_hooks h)) 0%nat error
                  (attempt + 1) s1) as Hrt.
    destruct (runBeforeRetry 0 _ error (attempt + 1) s1) as [[[]|e] s2];
      cbn [snd] in *.
    + etransitivity; [apply IH |]. cbn. rewrite Hrt. exact Hd.
    + rewrite Hrt. exact Hd.
Qed.

(** X6.  When the before-request hooks return, [execute] leaves no timer
    armed that was not armed before it, however many attempts it makes and
    however it ends. *)
Theorem execute_leaves_no_timer h s :
  Forall returnsBR (beforeRequest (_hooks h)) ->
  armed (snd (execute h s)) ⊆ armed s.
Proof. intros Hbr. rewrite execute_unfold. apply attempts_timers, Hbr. Qed.

(** ** The transport call *)

(** The transport calls of one attempt. *)
Lemma doFetch_fetches h s :
  let sp := snd (prepare h (log EvDoFetch s)) in
  let hooked := runBeforeRequest 0 (beforeRequest (_hooks h)) sp in
  fetches (trace (snd (doFetch h s))) =
    fetches (trace s)
    ++ match fst hooked with
       | Throw _ => []
       | Return _ =>
           [(buildUrl (this s),
             {| i_method := _method (this s);
                i_headers := _headers (this (snd hooked));
                i_body := fst (encodeBody h (this s));
                i_credentials := _credentials (this (snd hooked));
                i_redirect := _redirect (this (snd hooked)) |})]
       end.
Proof.
  cbn zeta.
  assert (Hsee : seesOnly [KFetch] asFetch).
  { intros [] Hk; try reflexivity; exfalso; apply Hk; seen. }
  destruct (prepare_spec h (log EvDoFetch s)) as (sp & Hprep & _ & _ & _ & Htrace).
  change (this (log EvDoFetch s)) with (this s) in *.
  assert (Hsp : fetches (trace sp) = fetches (trace s)).
  { unfold fetches. rewrite Htrace. cbn [trace log]. rewrite !omap_app. cbn.
    destruct (_externalSignal (this s)); cbn;
      destruct (effectiveTimeout (this s)); cbn; rewrite ?app_nil_r;
      reflexivity. }
  pose proof (quiet_runBeforeRequest asFetch _ Hsee
                (beforeRequest (_hooks h)) ltac:(unseen) 0%nat sp) as Hq2.
  pose proof (inner_runBeforeRequest (beforeRequest (_hooks h)) 0%nat sp)
    as (_ & Hm2 & _).
  pose proof (inner_prepare h (log EvDoFetch s)) as (_ & Hm1 & _).
  destruct (doFetch_cases h s) as (sp' & Hprep' & Hcases). cbn zeta in *.
  rewrite Hprep in Hprep'. inversion Hprep'; subst sp'. clear Hprep'.
  rewrite Hprep in *. cbn [snd] in *.
  assert (Hfin : forall tid s4, fetches (trace (onFinally tid s4)) = fetches (trace s4)).
  { intros tid s4. apply (quiet_onFinally asFetch _ Hsee). unseen. }
  destruct Hcases as [(e & s1 & Hthrow & Hd) | (s2 & Hrun & Hcases)].
  - rewrite Hthrow in *. cbn [fst snd] in *. rewrite Hd. cbn [snd].
    unfold fetches in *. rewrite Hq2, Hsp, app_nil_r. reflexivity.
  - rewrite Hrun in *. cbn [fst snd] in *.
    assert (Hcall : forall r s3,
      callFetch h (buildUrl (this s)) (fst (encodeBody h (this s))) s2 = (r, s3) ->
      fetches (trace s3) =
        fetches (trace s)
        ++ [(buildUrl (this s),
             {| i_method := _method (this s);
                i_headers := _headers (this s2);
                i_body := fst (encodeBody h (this s));
                i_credentials := _credentials (this s2);
                i_redirect := _redirect (this s2) |})]).
    { intros r s3. unfold callFetch.
      destruct (_customFetch h _ _ (env s2)) as [r' e']. intros Heq.
      inversion Heq; subst. unfold fetches in *. cbn [trace setEnv log].
      rewrite omap_app, Hq2, Hsp. cbn. rewrite Hm2, Hm1. reflexivity. }
    destruct Hcases as [(e & s3 & Hfetch & Hd) | (nr & s3 & Hfetch & Hd)].
    + rewrite Hd. cbn [snd]. rewrite Hfin. apply (Hcall _ _ Hfetch).
    + rewrite Hd.
      pose proof (quiet_settle asFetch _ Hsee h nr ltac:(unseen)
                    ltac:(unseen) s3) as Hq4.
      destruct (settle h nr s3) as [[r|e] s4]; cbn [snd] in *;
        rewrite Hfin; unfold fetches in *; rewrite Hq4;
        apply (Hcall _ _ Hfetch).
Qed.

(** Before-request hooks that return and leave the headers alone. *)
Lemma runBeforeRequest_leaves hooks :
  Forall leavesHeaders hooks ->
  forall i s, exists s',
    @runBeforeRequest E i hooks s = (Return tt, s') /\
    _headers (this s') = _headers (this s).
Proof.
  induction 1 as [|hook rest Hhook _ IH]; intros i s; cbn [runBeforeRequest].
  - exists s. split; reflexivity.
  - unfold bind at 1, emit. unfold bind at 1, callBeforeRequest.
    destruct (Hhook (this (log (EvBeforeRequest i) s))
                    (env (log (EvBeforeRequest i) s))) as (Hret & Hkeep).
    destruct (hook _ _) as [[res t'] e']. cbn [fst snd] in Hret, Hkeep.
    subst res.
    destruct (IH (S i)
                (setEnv e' (setThis (publicUpdate
                                       (this (log (EvBeforeRequest i) s)) t')
                              (log (EvBeforeRequest i) s))))
      as (s' & Hrun & Hh).
    exists s'. split; [exact Hrun |]. rewrite Hh. exact Hkeep.
Qed.

(** With such hooks an attempt calls the transport once, with the payload
    and the headers that the body preparation leaves. *)
Lemma doFetch_sends h s :
  Forall leavesHeaders (beforeRequest (_hooks h)) ->
  exists init,
    fetches (trace (snd (doFetch h s)))
      = fetches (trace s) ++ [(buildUrl (this s), init)] /\
    i_method init = _method (this s) /\
    i_body init = fst (encodeBody h (this s)) /\
    i_headers init = _headers (snd (encodeBody h (this s))).
Proof.
  intros Hhooks. pose proof (doFetch_fetches h s) as Hf. cbn zeta in Hf.
  destruct (prepare_spec h (log EvDoFetch s)) as (sp & Hprep & Hthis & _).
  rewrite Hprep in Hf. cbn [snd] in Hf.
  destruct (runBeforeRequest_leaves _ Hhooks 0%nat sp) as (s2 & Hrun & Hh).
  rewrite Hrun in Hf. cbn [fst snd] in Hf.
  eexists. split; [exact Hf |]. cbn [i_method i_body i_headers].
  repeat split. rewrite Hh, Hthis. reflexivity.
Qed.

(** Deleting the key [content-type] leaves no content type at all when
    the header names are in lower case. *)
Lemma delete_content_type (hs : gmap string string) :
  lowerCaseNames hs ->
  forall k, toLowerCase k = "content-type"%string ->
    delete "content-type"%string hs !! k = None.
Proof.
  intros Hlow k Hk.
  destruct (decide (k = "content-type"%string)) as [->|Hne].
  - apply lookup_delete_eq.
  - rewrite lookup_delete_ne by congruence.
    destruct (hs !! k) as [v|] eqn:Hv; [| reflexivity].
    specialize (Hlow k v Hv). congruence.
Qed.

(** What the body preparation gives in the two cases of the encoding. *)
Lemma encodeBody_json h (r : Request) :
  typeofObject (_body r) = true ->
  truthyStr (_headers r !! "content-type"%string) = false ->
  _attachments r = [] -> _formFields r = [] ->
  encodeBody h r =
    (Some (PString (_stringifyJson h (_body r))),
     withHeaders r
       (<["content-type"%string := "application/json"%string]> (_headers r))).
Proof.
  intros Hobj Hct Hatt Hff. unfold encodeBody.
  rewrite Hatt, Hff. cbn [length Nat.ltb Nat.leb orb].
  unfold orEmpty. rewrite Hct.
  destruct (_body r); try discriminate Hobj; reflexivity.
Qed.

Lemma encodeBody_multipart h (r : Request) :
  _attachments r <> [] \/ _formFields r <> [] ->
  encodeBody h r =
    (Some (PFormData (map fieldEntry (_formFields r) ++
                      map attachmentEntry (_attachments r))),
     withHeaders r (delete "content-type"%string (_headers r))).
Proof.
  intros Hsome. unfold encodeBody.
  assert ((0 <? length (_attachments r))%nat
          || (0 <? length (_formFields r))%nat = true) as ->.
  { destruct Hsome as [Ha|Hf].
    - destruct (_attachments r); [congruence | reflexivity].
    - destruct (_formFields r); [congruence |].
      cbn. apply orb_true_r. }
  reflexivity.
Qed.

(** X25.  The body encoding as the transport sees it.  With
    before-request hooks that return and leave the headers alone, an
    attempt calls the transport once.  For a body whose [typeof] is
    object, with no content-type header and no attachment or form field,
    the call carries the configured JSON stringification and the headers
    with [content-type: application/json] added.  With an attachment or a
    form field it carries the form data, fields first, then attachments,
    and the headers without the key [content-type]: so, when the header
    names are in lower case, without a content type under any name. *)
Theorem body_encoding_sent h s :
  Forall leavesHeaders (beforeRequest (_hooks h)) ->
  exists init,
    fetches (trace (snd (doFetch h s)))
      = fetches (trace s) ++ [(buildUrl (this s), init)] /\
    (typeofObject (_body (this s)) = true ->
     truthyStr (_headers (this s) !! "content-type"%string) = false ->
     _attachments (this s) = [] -> _formFields (this s) = [] ->
     i_body init = Some (PString (_stringifyJson h (_body (this s)))) /\
     i_headers init =
       <["content-type"%string := "application/json"%string]>
         (_headers (this s))) /\
    (_attachments (this s) <> [] \/ _formFields (this s) <> [] ->
     i_body init =
       Some (PFormData (map fieldEntry (_formFields (this s)) ++
                        map attachmentEntry (_attachments (this s)))) /\
     i_headers init = delete "content-type"%string (_headers (this s)) /\
     (lowerCaseNames (_headers (this s)) ->
      forall k, toLowerCase k = "content-type"%string ->
        i_headers init !! k = None)).
Proof.
  intros Hhooks.
  destruct (doFetch_sends h s Hhooks) as (init & Hf & _ & Hbody & Hheaders).
  exists init. split; [exact Hf |]. split.
  - intros Hobj Hct Hatt Hff.
    rewrite Hbody, Hheaders, (encodeBody_json h _ Hobj Hct Hatt Hff).
    split; reflexivity.
  - intros Hsome.
    rewrite Hbody, Hheaders, (encodeBody_multipart h _ Hsome).
    cbn [fst snd withHeaders _headers].
    split; [reflexivity |]. split; [reflexivity |].
    apply delete_content_type.
Qed.

(** X7.  An attempt calls the transport at most once, not at all when a
    before-request hook throws.  The call carries the URL and the payload
    computed before the before-request hooks ran, and the headers as the
    hooks left them. *)
Theorem transport_called_at_most_once h s :
  let sp := snd (prepare h (log EvDoFetch s)) in
  let hooked := runBeforeRequest 0 (beforeRequest (_hooks h)) sp in
  fetches (trace (snd (doFetch h s))) =
    fetches (trace s)
    ++ match fst hooked with
       | Throw _ => []
       | Return _ =>
           [(buildUrl (this s),
             {| i_method := _method (this s);
                i_headers := _headers (this (snd hooked));
                i_body := fst (encodeBody h (this s));
                i_credentials := _credentials (this (snd hooked));
                i_redirect := _redirect (this (snd hooked)) |})]
       end.
Proof. exact (doFetch_fetches h s). Qed.

(** ** Errors that leave an attempt *)



(** ** Throwing on HTTP errors switched off *)

Lemma settle_when_disabled h nr s :
  _throwHttpErrors (this s) = false ->
  settle h nr s =
  runAfterResponse 0 (afterResponse (_hooks h))
    (newResponse nr (n_text nr) (decodeBody h nr)) s.
Proof.
  intros Hflag. unfold settle, bind.
  pose proof (inner_runAfterResponse (afterResponse (_hooks h)) 0%nat
                (newResponse nr (n_text nr) (decodeBody h nr)) s) as Hin.
  destruct (runAfterResponse 0 _ _ s) as [[r|e] s1]; [| reflexivity].
  destruct Hin as (_ & _ & Hf & _). cbn in Hf.
  unfold throwOrReturn. rewrite Hf, Hflag. reflexivity.
Qed.

(** X9.  With throw-on-HTTP-error off, an attempt never calls a
    before-error hook, and what the after-response hooks leave as response
    is returned whatever its status. *)
Theorem http_errors_disabled h s :
  _throwHttpErrors (this s) = false ->
  beforeErrorCalls (trace (snd (doFetch h s))) = beforeErrorCalls (trace s) /\
  (forall s2 nr s3 r s4,
     runBeforeRequest 0 (beforeRequest (_hooks h))
       (snd (prepare h (log EvDoFetch s))) = (Return tt, s2) ->
     callFetch h (buildUrl (this s)) (fst (encodeBody h (this s))) s2
       = (Return nr, s3) ->
     runAfterResponse 0 (afterResponse (_hooks h))
       (newResponse nr (n_text nr) (decodeBody h nr)) s3 = (Return r, s4) ->
     fst (doFetch h s) = Return r).
Proof.
  intros Hflag.
  assert (Hsee : seesOnly [KBeforeError] asBeforeErrorCall).
  { intros [] Hk; try reflexivity; exfalso; apply Hk; seen. }
  destruct (prepare_spec h (log EvDoFetch s)) as (sp & Hprep & _ & _ & _ & Htrace).
  change (this (log EvDoFetch s)) with (this s) in *.
  assert (Hsp : beforeErrorCalls (trace sp) = beforeErrorCalls (trace s)).
  { unfold beforeErrorCalls. rewrite Htrace. cbn [trace log].
    rewrite !omap_app. cbn.
    destruct (_externalSignal (this s)); cbn;
      destruct (effectiveTimeout (this s)); cbn; rewrite ?app_nil_r;
      reflexivity. }
  pose proof (quiet_runBeforeRequest asBeforeErrorCall _ Hsee
                (beforeRequest (_hooks h)) ltac:(unseen) 0%nat sp) as Hq2.
  pose proof (inner_prepare h (log EvDoFetch s)) as (_ & _ & Hf1 & _).
  pose proof (inner_runBeforeRequest (beforeRequest (_hooks h)) 0%nat sp)
    as (_ & _ & Hf2 & _).
  assert (Hfin : forall tid s4,
            beforeErrorCalls (trace (onFinally tid s4)) = beforeErrorCalls (trace s4)).
  { intros tid s4. apply (quiet_onFinally asBeforeErrorCall _ Hsee). unseen. }
  destruct (doFetch_cases h s) as (sp' & Hprep' & Hcases). cbn zeta in *.
  rewrite Hprep in Hprep'. inversion Hprep'; subst sp'. clear Hprep'.
  rewrite Hprep in *. cbn [snd] in *.
  destruct Hcases as [(e & s1 & Hthrow & Hd) | (s2 & Hrun & Hcases)].
  - rewrite Hthrow in *. cbn [snd] in *. split.
    + rewrite Hd. cbn [snd]. unfold beforeErrorCalls in *.
      rewrite Hq2. exact Hsp.
    + intros s2 nr s3 r s4 Habs. discriminate Habs.
  - rewrite Hrun in *. cbn [snd] in *.
    pose proof (quiet_callFetch asBeforeErrorCall _ Hsee h (buildUrl (this s))
                  (fst (encodeBody h (this s))) ltac:(unseen) s2) as Hq3.
    pose proof (inner_callFetch h (buildUrl (this s))
                  (fst (encodeBody h (this s))) s2) as (_ & _ & Hf3 & _).
    destruct Hcases as [(e & s3 & Hfetch & Hd) | (nr & s3 & Hfetch & Hd)];
      rewrite Hfetch in *; cbn [snd] in *.
    + split.
      * rewrite Hd. cbn [snd]. rewrite Hfin. unfold beforeErrorCalls in *.
        rewrite Hq3, Hq2. exact Hsp.
      * intros s2' nr s3' r s4 Hrun' Habs.
        inversion Hrun'; subst s2'. rewrite Hfetch in Habs. discriminate Habs.
    + assert (Hflag3 : _throwHttpErrors (this s3) = false)
        by (rewrite Hf3, Hf2, Hf1; exact Hflag).
      rewrite (settle_when_disabled h nr s3 Hflag3) in Hd.
      pose proof (quiet_runAfterResponse asBeforeErrorCall _ Hsee
                    (afterResponse (_hooks h)) ltac:(unseen) 0%nat
                    (newResponse nr (n_text nr) (decodeBody h nr)) s3) as Hq4.
      split.
      * rewrite Hd.
        destruct (runAfterResponse 0 _ _ s3) as [[r|e] s4]; cbn [snd] in *;
          rewrite Hfin; unfold beforeErrorCalls in *;
          rewrite Hq4, Hq3, Hq2; exact Hsp.
      * intros s2' nr' s3' r s4 Hrun' Hfetch' Har.
        inversion Hrun'; subst s2'. rewrite Hfetch in Hfetch'.
        inversion Hfetch'; subst nr' s3'. rewrite Hd, Har. reflexivity.
Qed.

(** ** Encoding the body again *)

(** X10.  Preparing the body is idempotent: on the request as a first
    preparation left it, a second one gives the same payload and leaves
    the headers as they are.  So, hooks aside, every attempt of a retried
    request sends the same payload. *)
Theorem encodeBody_idempotent h (r : Request) :
  encodeBody h (snd (encodeBody h r)) = encodeBody h r.
Proof.
  destruct (encodeBody h r) as [payload r1] eqn:Henc. cbn [snd].
  unfold encodeBody in Henc.
  destruct ((0 <? length (_attachments r))%nat
            || (0 <? length (_formFields r))%nat) eqn:Hmulti.
  { inversion Henc; subst. unfold encodeBody.
    cbn [withHeaders _attachments _formFields _body _headers].
    rewrite Hmulti, delete_delete_eq. reflexivity. }
  assert (Hsame : forall pl, (pl, r) = (payload, r1) ->
                    encodeBody h r1 = (payload, r1)).
  { intros pl Heq. inversion Heq; subst. unfold encodeBody in *.
    rewrite Hmulti. exact Henc. }
  destruct (_body r) eqn:Hbody; cbn [typeofObject] in Henc;
    try (apply (Hsame _ Henc)).
  all: destruct (includes "form-urlencoded"
                   (orEmpty (_headers r !! "content-type"%string))) eqn:Hform;
    [apply (Hsame _ Henc) |].
  all: destruct (truthyStr (_headers r !! "content-type"%string)) eqn:Hct;
    [apply (Hsame _ Henc) |].
  all: inversion Henc; subst; unfold encodeBody;
    cbn [withHeaders _attachments _formFields _body _headers];
    rewrite Hmulti, Hbody; cbn [typeofObject];
    rewrite lookup_insert_eq; reflexivity.
Qed.

(** ** A transport that always rejects *)




End More.

(** * The chaining methods *)

Section Chaining.

Context {E : Type} {host : Host}.

#[local] Abbreviation Handlers := (@Handlers E).

Implicit Types (h : Handlers) (r : Request).

(** ** Objects used as maps *)

Lemma propGet_app {V} k (l1 l2 : list (string * V)) :
  propGet k (l1 ++ l2) =
  match propGet k l1 with Some v => Some v | None => propGet k l2 end.
Proof.
  induction l1 as [|[k1 v1] l1 IH]; cbn; [reflexivity |].
  destruct (String.eqb k k1); [reflexivity | exact IH].
Qed.

Lemma propGet_replace_eq {V} k (v : V) l :
  propGet k l <> None -> propGet k (propReplace k v l) = Some v.
Proof.
  induction l as [|[k1 v1] l IH]; cbn; [congruence |].
  destruct (String.eqb k k1) eqn:Hk; cbn.
  - rewrite String.eqb_refl. reflexivity.
  - rewrite Hk. exact IH.
Qed.

Lemma propGet_replace_ne {V} k k' (v : V) l :
  k' <> k -> propGet k' (propReplace k v l) = propGet k' l.
Proof.
  intros Hne. induction l as [|[k1 v1] l IH]; cbn; [reflexivity |].
  destruct (String.eqb k k1) eqn:Hk; cbn.
  - apply String.eqb_eq in Hk. subst k1.
    apply String.eqb_neq in Hne. rewrite Hne. reflexivity.
  - destruct (String.eqb k' k1); [reflexivity | exact IH].
Qed.

Lemma propGet_insertIndex {V} n k (v : V) l k' :
  propGet k l = None ->
  propGet k' (propInsertIndex n k v l) =
  if String.eqb k' k then Some v else propGet k' l.
Proof.
  induction l as [|[k1 v1] l IH]; cbn; [reflexivity |].
  destruct (String.eqb k k1) eqn:Hk1; [discriminate |]. intros Hnone.
  destruct (arrayIndex k1) as [m|]; [destruct (n <? m)%N |]; cbn;
    try reflexivity.
  rewrite (IH Hnone).
  destruct (String.eqb k' k1) eqn:H1; [| reflexivity].
  destruct (String.eqb k' k) eqn:H2; [| reflexivity].
  apply String.eqb_eq in H1, H2. subst.
  rewrite String.eqb_refl in Hk1. discriminate.
Qed.

Lemma propGet_define {V} k (v : V) l k' :
  propGet k' (propDefine k v l) =
  if String.eqb k' k then Some v else propGet k' l.
Proof.
  unfold propDefine. destruct (propGet k l) as [v0|] eqn:Hget.
  - destruct (String.eqb k' k) eqn:Hk.
    + apply String.eqb_eq in Hk. subst k'.
      apply propGet_replace_eq. congruence.
    + apply propGet_replace_ne. apply String.eqb_neq. exact Hk.
  - destruct (arrayIndex k) as [n|].
    + apply propGet_insertIndex, Hget.
    + rewrite propGet_app. cbn.
      destruct (String.eqb k' k) eqn:Hk.
      * apply String.eqb_eq in Hk. subst k'. rewrite Hget. reflexivity.
      * destruct (propGet k' l); reflexivity.
Qed.

(** Defining a property keeps the keys distinct and adds at most one. *)
Lemma keys_replace {V} k (v : V) l :
  propGet k l <> None -> (propReplace k v l).*1 = l.*1.
Proof.
  induction l as [|[k1 v1] l IH]; cbn; [reflexivity |].
  destruct (String.eqb k k1) eqn:Hk; cbn.
  - intros _. apply String.eqb_eq in Hk. subst. reflexivity.
  - intros Hget. rewrite (IH Hget). reflexivity.
Qed.

Lemma keys_insertIndex {V} n k (v : V) l :
  (propInsertIndex n k v l).*1 ≡ₚ k :: l.*1.
Proof.
  induction l as [|[k1 v1] l IH]; cbn; [reflexivity |].
  destruct (arrayIndex k1) as [m|]; [destruct (n <? m)%N |]; cbn;
    try reflexivity.
  rewrite IH. apply Permutation_swap.
Qed.

Lemma propGet_None {V} k (l : list (string * V)) :
  propGet k l = None <-> k ∉ l.*1.
Proof.
  induction l as [|[k1 v1] l IH]; cbn.
  - split; [intros _; apply not_elem_of_nil | reflexivity].
  - rewrite not_elem_of_cons.
    destruct (String.eqb k k1) eqn:Hk.
    + apply String.eqb_eq in Hk. subst. split; [discriminate | tauto].
    + apply String.eqb_neq in Hk. rewrite IH. tauto.
Qed.

Lemma keys_define {V} k (v : V) l :
  NoDup l.*1 -> NoDup (propDefine k v l).*1.
Proof.
  intros Hnd. unfold propDefine. destruct (propGet k l) as [v0|] eqn:Hget.
  - rewrite keys_replace by congruence. exact Hnd.
  - apply propGet_None in Hget. destruct (arrayIndex k) as [n|].
    + rewrite keys_insertIndex. constructor; assumption.
    + rewrite fmap_app. cbn. apply NoDup_app. split; [exact Hnd |].
      split; [| apply NoDup_singleton].
      intros x Hx Hin. apply list_elem_of_singleton in Hin. subst. tauto.
Qed.

Lemma propGet_fold {V} (l acc : list (string * V)) k :
  NoDup l.*1 ->
  propGet k (fold_left (fun a kv => propDefine (fst kv) (snd kv) a) l acc) =
  match propGet k l with Some v => Some v | None => propGet k acc end.
Proof.
  revert acc. induction l as [|[k1 v1] l IH]; intros acc Hnd; cbn;
    [reflexivity |].
  apply NoDup_cons in Hnd as (Hk1 & Hnd). cbn in Hk1.
  rewrite (IH _ Hnd), propGet_define. cbn [fst snd].
  destruct (String.eqb k k1) eqn:Hk.
  - apply String.eqb_eq in Hk. subst k1.
    apply propGet_None in Hk1. rewrite Hk1. reflexivity.
  - reflexivity.
Qed.

Lemma keys_fold {V} (l acc : list (string * V)) :
  NoDup acc.*1 ->
  NoDup (fold_left (fun a kv => propDefine (fst kv) (snd kv) a) l acc).*1.
Proof.
  revert acc. induction l as [|[k1 v1] l IH]; intros acc Hnd; cbn;
    [exact Hnd |].
  apply IH, keys_define, Hnd.
Qed.

(** ** Header names *)

Lemma lowerChar_idempotent c : lowerChar (lowerChar c) = lowerChar c.
Proof. destruct c as [[] [] [] [] [] [] [] []]; reflexivity. Qed.

Lemma toLowerCase_idempotent s : toLowerCase (toLowerCase s) = toLowerCase s.
Proof.
  induction s as [|c s IH]; cbn; [reflexivity |].
  unfold toLowerCase in IH. rewrite IH, lowerChar_idempotent. reflexivity.
Qed.

(** X12.  Header names are folded to lower case by [set]: the value is
    found under the lower-case name, other headers are untouched, and
    setting the header again under a name that differs in case only
    replaces the value, leaving one header. *)
Theorem set_folds_case r field1 field2 value1 value2 :
  toLowerCase field1 = toLowerCase field2 ->
  toLowerCase field2 <> "__proto__"%string ->
  _headers (set field2 (Some value2) r) !! toLowerCase field2 = Some value2 /\
  (forall k, k <> toLowerCase field2 ->
     _headers (set field2 (Some value2) r) !! k = _headers r !! k) /\
  set field2 (Some value2) (set field1 (Some value1) r)
    = set field2 (Some value2) r /\
  set (toLowerCase field2) (Some value2) r = set field2 (Some value2) r.
Proof.
  intros Hsame Hproto. apply String.eqb_neq in Hproto.
  unfold set, headerSet. cbn [withHeaders _headers].
  rewrite Hsame, toLowerCase_idempotent, Hproto. cbn [withHeaders _headers].
  repeat split.
  - apply lookup_insert_eq.
  - intros k Hk. apply lookup_insert_ne. congruence.
  - rewrite insert_insert_eq. reflexivity.
Qed.

(** ** Sending a body *)

(** X13.  [send] of an object onto a body that is an object merges the
    two: a key of the new object takes its value, any other key keeps the
    value it had, and no key appears twice. *)
Theorem send_merges_objects r pa pb :
  _body r = JObj pa ->
  NoDup pa.*1 ->
  NoDup pb.*1 ->
  exists merged,
    _body (send (JObj pb) r) = JObj merged /\
    NoDup merged.*1 /\
    forall k, propGet k merged =
              match propGet k pb with
              | Some v => Some v
              | None => propGet k pa
              end.
Proof.
  intros Hbody Hpa Hpb.
  exists (fold_left (fun acc kv => propDefine (fst kv) (snd kv) acc) pb
            (fold_left (fun acc kv => propDefine (fst kv) (snd kv) acc) pa [])).
  split; [| split].
  - unfold send. rewrite Hbody. cbn [truthy typeofObject andb].
    destruct (negb _); reflexivity.
  - apply keys_fold, keys_fold. constructor.
  - intros k. rewrite !propGet_fold by assumption.
    destruct (propGet k pb); [reflexivity |].
    destruct (propGet k pa); reflexivity.
Qed.

Lemma send_body_object data r :
  typeofObject data = true ->
  typeofObject (_body (send data r)) = true /\
  _attachments (send data r) = _attachments r /\
  _formFields (send data r) = _formFields r.
Proof.
  intros Hobj. unfold send. rewrite Hobj.
  destruct (truthy (_body r) && typeofObject (_body r) && true);
    cbn [updBody _headers]; destruct (true && negb _); cbn; auto.
Qed.

(** X14.  After [send] of an object (or of [null]) on a request without
    attachment or form field, the content type is the one that was set
    before, or application/json when none was; and preparing the body
    leaves the request as it is and gives the body URL-encoded when the
    content type says form-urlencoded, stringified as JSON otherwise. *)
Theorem send_then_encode h r data :
  typeofObject data = true ->
  _attachments r = [] ->
  _formFields r = [] ->
  let ct := if truthyStr (_headers r !! "content-type"%string)
            then default ""%string (_headers r !! "content-type"%string)
            else "application/json"%string in
  _headers (send data r) !! "content-type"%string = Some ct /\
  encodeBody h (send data r) =
    (Some (PString (if includes "form-urlencoded" ct
                    then formUrlEncode (_body (send data r))
                    else _stringifyJson h (_body (send data r)))),
     send data r).
Proof.
  intros Hobj Hatt Hff ct.
  destruct (send_body_object data r Hobj) as (Hbody & Hatt' & Hff').
  assert (Hct : _headers (send data r) !! "content-type"%string = Some ct).
  { subst ct. unfold send. rewrite Hobj.
    destruct (truthy (_body r) && typeofObject (_body r) && true);
      cbn [updBody _headers andb];
      destruct (truthyStr (_headers r !! "content-type"%string)) eqn:Htr;
      cbn [negb withHeaders _headers updBody];
      try apply lookup_insert_eq;
      destruct (_headers r !! "content-type"%string); try discriminate;
      reflexivity. }
  assert (Htruthy : truthyStr (Some ct) = true).
  { subst ct. destruct (truthyStr (_headers r !! "content-type"%string)) eqn:Htr;
      [| reflexivity].
    destruct (_headers r !! "content-type"%string); [exact Htr | discriminate]. }
  split; [exact Hct |].
  unfold encodeBody. rewrite Hatt', Hff', Hatt, Hff.
  cbn [length Nat.ltb Nat.leb orb]. rewrite Hbody, Hct.
  unfold orEmpty. rewrite Htruthy.
  change (default ""%string (Some ct)) with ct.
  destruct (_body (send data r)); try discriminate Hbody;
    destruct (includes "form-urlencoded" ct); reflexivity.
Qed.

(** ** Form fields *)

(** X15.  [field(name, value)] keeps one entry per name: the value is
    found under the name, the other fields keep theirs, and names stay
    distinct.  Once a field is there the payload is the form data, with
    no body in it whatever [send] has set, and of the headers exactly the
    key [content-type] is deleted: when the header names are in lower
    case, as [set], [type], [accept] and [send] store them, no content
    type is left under any name, while a header under any other key, a
    [Content-Type] given to the constructor among them, stays.  This
    payload and these headers are what an attempt hands to the transport
    (the before-request hooks returning and leaving the headers alone). *)
Theorem field_makes_multipart h r name value :
  name <> "__proto__"%string ->
  propGet name (_formFields (field name (Some value) r)) = Some value /\
  (forall k, k <> name ->
     propGet k (_formFields (field name (Some value) r))
       = propGet k (_formFields r)) /\
  (NoDup (_formFields r).*1 ->
   NoDup (_formFields (field name (Some value) r)).*1) /\
  fst (encodeBody h (field name (Some value) r)) =
    Some (PFormData
            (map fieldEntry (_formFields (field name (Some value) r))
             ++ map attachmentEntry (_attachments r))) /\
  _headers (snd (encodeBody h (field name (Some value) r)))
    = delete "content-type"%string (_headers r) /\
  (lowerCaseNames (_headers r) ->
   forall k, toLowerCase k = "content-type"%string ->
     _headers (snd (encodeBody h (field name (Some value) r))) !! k = None) /\
  (forall k, k <> "content-type"%string ->
     _headers (snd (encodeBody h (field name (Some value) r))) !! k
       = _headers r !! k) /\
  (forall s : @State E,
     this s = field name (Some value) r ->
     Forall leavesHeaders (beforeRequest (_hooks h)) ->
     exists init,
       fetches (trace (snd (doFetch h s)))
         = fetches (trace s) ++ [(buildUrl (this s), init)] /\
       i_body init =
         Some (PFormData
                 (map fieldEntry (_formFields (field name (Some value) r))
                  ++ map attachmentEntry (_attachments r))) /\
       i_headers init = delete "content-type"%string (_headers r)).
Proof.
  intros Hproto. apply String.eqb_neq in Hproto.
  assert (Hget : propGet name (_formFields (field name (Some value) r))
                 = Some value).
  { unfold field, propSet. rewrite Hproto. cbn [updFormFields _formFields].
    rewrite propGet_define, String.eqb_refl. reflexivity. }
  assert (Henc : encodeBody h (field name (Some value) r) =
    (Some (PFormData
             (map fieldEntry (_formFields (field name (Some value) r))
              ++ map attachmentEntry (_attachments r))),
     withHeaders (field name (Some value) r)
       (delete "content-type"%string (_headers r)))).
  { rewrite encodeBody_multipart; [reflexivity |].
    right. intros Hnil. rewrite Hnil in Hget. discriminate Hget. }
  split; [exact Hget |]. split; [| split; [| split; [| split; [| split; [| split]]]]].
  - intros k Hk. unfold field, propSet. rewrite Hproto.
    cbn [updFormFields _formFields]. rewrite propGet_define.
    apply String.eqb_neq in Hk. rewrite Hk. reflexivity.
  - unfold field, propSet. rewrite Hproto. cbn [updFormFields _formFields].
    apply keys_define.
  - rewrite Henc. reflexivity.
  - rewrite Henc. reflexivity.
  - intros Hlow k Hk. rewrite Henc. cbn [snd withHeaders _headers].
    apply delete_content_type; assumption.
  - intros k Hk. rewrite Henc. cbn [snd withHeaders _headers].
    apply lookup_delete_ne. congruence.
  - intros s Hthis Hhooks.
    destruct (doFetch_sends h s Hhooks) as (init & Hf & _ & Hbody & Hheaders).
    exists init. split; [exact Hf |].
    rewrite Hbody, Hheaders, Hthis, Henc. split; reflexivity.
Qed.

(** ** Headers given to the constructor *)

(** X16.  The constructor copies the headers under the names they are
    given with.  A content type given under a name that is not lower case
    is therefore not the one [send] looks for: sending an object adds
    [content-type: application/json] beside it.  Given through [set], the
    same header is found and kept. *)
Theorem constructor_keeps_header_case
    (b : @Builtins E) method url (o : @RequestOptions E) hs name value data :
  o_headers o = Some hs ->
  hs !! name = Some value ->
  toLowerCase name = "content-type"%string ->
  name <> "content-type"%string ->
  hs !! "content-type"%string = None ->
  value <> ""%string ->
  typeofObject data = true ->
  _headers (send data (fst (newRequest b method url o))) !! name = Some value /\
  _headers (send data (fst (newRequest b method url o)))
    !! "content-type"%string = Some "application/json"%string /\
  forall r0,
    _headers (send data (set name (Some value) r0)) !! "content-type"%string
      = Some value.
Proof.
  intros Ho Hname Hlower Hne Hnone Hvalue Hobj.
  assert (Hh : _headers (fst (newRequest b method url o)) = hs).
  { cbn. rewrite Ho. reflexivity. }
  split; [| split].
  - unfold send. rewrite Hobj.
    destruct (truthy _ && typeofObject _ && true);
      cbn [updBody _headers andb withHeaders]; rewrite Hh, Hnone;
      cbn [truthyStr negb withHeaders _headers];
      rewrite lookup_insert_ne by congruence; exact Hname.
  - unfold send. rewrite Hobj.
    destruct (truthy _ && typeofObject _ && true);
      cbn [updBody _headers andb withHeaders]; rewrite Hh, Hnone;
      cbn [truthyStr negb withHeaders _headers];
      apply lookup_insert_eq.
  - intros r0.
    assert (Hset : _headers (set name (Some value) r0) !! "content-type"%string
                   = Some value).
    { unfold set, headerSet. rewrite Hlower. cbn. apply lookup_insert_eq. }
    apply String.eqb_neq in Hvalue.
    unfold send. rewrite Hobj.
    destruct (truthy _ && typeofObject _ && true);
      cbn [updBody _headers andb]; rewrite Hset; cbn [truthyStr];
      rewrite Hvalue; cbn [negb]; exact Hset.
Qed.

(** ** Query parameters *)

Lemma updQuery_same r : updQuery r (_query r) = r.
Proof. destruct r. reflexivity. Qed.

(** X17.  [query] with an object skips the values [null] and
    [undefined]: an object that holds nothing else leaves the request as
    it is.  A value that is kept is stored as a string, and the value
    given last for a key is the one kept. *)
Theorem query_skips_missing_values r params :
  Forall (fun kv => snd kv = JNull \/ snd kv = JUndefined) params ->
  query params r = r /\
  forall k v more,
    k <> "__proto__"%string -> v <> JNull -> v <> JUndefined ->
    propGet k (_query (query (more ++ [(k, v)]) r)) = Some (stringOf v).
Proof.
  intros Hall. split.
  - assert (Hq : _query (query params r) = _query r).
    { unfold query. cbn [updQuery _query]. generalize (_query r) as q.
      induction Hall as [|[k v] params [Hv|Hv] _ IH]; intros q; cbn in *;
        [reflexivity | |]; subst v; apply IH. }
    transitivity (updQuery r (_query (query params r))); [reflexivity |].
    rewrite Hq. apply updQuery_same.
  - intros k v more Hproto Hnull Hundef. apply String.eqb_neq in Hproto.
    unfold query. cbn [updQuery _query]. rewrite fold_left_app. cbn.
    destruct v; try congruence;
      unfold propSet; rewrite Hproto, propGet_define, String.eqb_refl;
      reflexivity.
Qed.

End Chaining.

(** * The instance factory *)

Section Instances.

Context {E : Type} {host : Host}.

#[local] Abbreviation State := (@State E).
#[local] Abbreviation Handlers := (@Handlers E).
#[local] Abbreviation InstanceOptions := (@InstanceOptions E).
#[local] Abbreviation Builtins := (@Builtins E).

Implicit Types (s : State) (h : Handlers) (d : InstanceOptions) (b : Builtins).

(** ** URLs *)






(** ** What an instance hands to its requests *)

Lemma doFetch_reading {X} (π : Event -> option X) ks h s :
  seesOnly ks π ->
  KDoFetch ∉ ks -> KBeforeRequest ∉ ks -> KFetch ∉ ks ->
  KAfterResponse ∉ ks -> KBeforeError ∉ ks -> KClearTimeout ∉ ks ->
  omap π (trace (snd (doFetch h s))) =
  omap π (trace (snd (prepare h (log EvDoFetch s)))).
Proof.
  intros Hsee Hdf Hbr Hf Har Hbe Hct.
  destruct (doFetch_cases h s) as (sp & Hprep & Hcases). cbn zeta in *.
  rewrite Hprep. cbn [snd].
  pose proof (quiet_runBeforeRequest π ks Hsee (beforeRequest (_hooks h)) Hbr
                0%nat sp) as Hq2.
  destruct Hcases as [(e & s1 & Hthrow & Hd) | (s2 & Hrun & Hcases)].
  - rewrite Hd. rewrite Hthrow in Hq2. exact Hq2.
  - rewrite Hrun in Hq2. cbn [snd] in Hq2.
    pose proof (quiet_callFetch π ks Hsee h (buildUrl (this s))
                  (fst (encodeBody h (this s))) Hf s2) as Hq3.
    destruct Hcases as [(e & s3 & Hfetch & Hd) | (nr & s3 & Hfetch & Hd)];
      rewrite Hfetch in Hq3; cbn [snd] in Hq3; rewrite Hd.
    + cbn [snd]. rewrite (quiet_onFinally π ks Hsee) by exact Hct.
      congruence.
    + pose proof (quiet_settle π ks Hsee h nr Har Hbe s3) as Hq4.
      destruct (settle h nr s3) as [[r|e] s4]; cbn [snd] in *;
        rewrite (quiet_onFinally π ks Hsee) by exact Hct; congruence.
Qed.

(** X19.  A request made by an instance never carries an external
    signal, even when the options of the instance give one: [signal] is
    not among the options that [createRequest] hands to the constructor,
    so no attempt of such a request listens to a signal. *)
Theorem instance_drops_signal b d method url s :
  this s = fst (createRequest b d method url) ->
  _externalSignal (fst (createRequest b d method url)) = false /\
  listenerCalls (trace (snd (doFetch (snd (createRequest b d method url)) s)))
    = listenerCalls (trace s).
Proof.
  intros Hthis. split; [reflexivity |].
  assert (Hsee : seesOnly [KListener] asListener).
  { intros [] Hk; try reflexivity; exfalso; apply Hk; apply list_elem_of_here. }
  unfold listenerCalls.
  rewrite (doFetch_reading asListener [KListener]) by
    (first [exact Hsee | apply (bool_decide_unpack _); exact I]).
  destruct (prepare_spec (snd (createRequest b d method url)) (log EvDoFetch s))
    as (sp & Hp & _ & _ & _ & Ht).
  rewrite Hp. cbn [snd]. rewrite Ht.
  change (this (log EvDoFetch s)) with (this s). rewrite Hthis.
  change (_externalSignal (fst (createRequest b d method url))) with false.
  rewrite !omap_app.
  destruct (effectiveTimeout (fst (createRequest b d method url)));
    cbn [omap list_omap asListener trace log]; rewrite omap_app; cbn;
    rewrite ?app_nil_r; reflexivity.
Qed.

(** ** Verbs *)

Lemma execute_method_not_retried h s :
  includesStr (retryMethods (policyOf (this s))) (_method (this s)) = false ->
  0 <= retryLimit (policyOf (this s)) ->
  execute h s = doFetch h s.
Proof.
  intros Hmethod Hlimit. rewrite execute_first by exact Hlimit.
  rewrite attempts_unfold.
  destruct (doFetch h s) as [[response|error] s1] eqn:Hfetch; [reflexivity |].
  destruct (doFetch_private_eq _ _ _ _ Hfetch) as (Hm & _).
  unfold rethrows. rewrite Hm, Hmethod. reflexivity.
Qed.


(** ** Extending an instance *)

(** X21.  [extend] (and [create]) merge the options field by field, not
    deeper: headers given to the child replace those of the parent as a
    whole, and are inherited only when the child gives none.  A parent
    that has a base URL keeps it when the child gives only [prefixUrl]:
    the URLs of the child resolve as those of the parent. *)
Theorem extend_replaces_headers b d opts method url :
  (forall hs, o_headers (requestOptions opts) = Some hs ->
     _headers (fst (createRequest b (extend d opts) method url)) = hs) /\
  (o_headers (requestOptions opts) = None ->
   _headers (fst (createRequest b (extend d opts) method url))
     = _headers (fst (createRequest b d method url))) /\
  (truthyStr (baseURL d) = true -> baseURL opts = None ->
   baseURL (extend d opts) = baseURL d /\
   forall path, resolveUrl (extend d opts) path = resolveUrl d path).
Proof.
  assert (Hro : requestOptions (extend d opts)
                = requestOptions (mergeOptions d opts)).
  { unfold extend, createInstance. destruct (_ && _); reflexivity. }
  split; [| split].
  - intros hs Hhs. cbn [createRequest newRequest fst _headers o_headers].
    rewrite Hro. cbn. rewrite Hhs. reflexivity.
  - intros Hnone. cbn [createRequest newRequest fst _headers o_headers].
    rewrite Hro. cbn. rewrite Hnone. reflexivity.
  - intros Hbase Hnone.
    assert (Hsame : baseURL (extend d opts) = baseURL d).
    { unfold extend, createInstance, mergeOptions.
      cbn [baseURL prefixUrl]. rewrite Hnone. cbn [orOf].
      rewrite Hbase. rewrite andb_false_r. reflexivity. }
    split; [exact Hsame |].
    intros path. unfold resolveUrl. rewrite Hsame. reflexivity.
Qed.

End Instances.

(** * Settings and the engine *)

Section Settings.

Context {E : Type} {host : Host}.

#[local] Abbreviation State := (@State E).
#[local] Abbreviation Handlers := (@Handlers E).

Implicit Types (s : State) (h : Handlers) (r : Request).

(** X22.  [retry(count)] with a number replaces the retry options as a
    whole: the methods, status codes and delay set before are forgotten
    and the defaults apply.  So after it a request whose method is not in
    the default allow-list is not retried, whatever was allowed before. *)
Theorem retry_count_forgets_options h s r n :
  this s = retry (inl n) r ->
  0 <= n ->
  includesStr DEFAULT_RETRY_METHODS (_method r) = false ->
  policyOf (this s) =
    {| retryLimit := n;
       retryMethods := DEFAULT_RETRY_METHODS;
       retryStatusCodes := DEFAULT_RETRY_STATUS_CODES;
       retryDelay := defaultRetryDelay |} /\
  execute h s = doFetch h s.
Proof.
  intros Hthis Hn Hmethod.
  assert (Hp : policyOf (this s) =
               {| retryLimit := n;
                  retryMethods := DEFAULT_RETRY_METHODS;
                  retryStatusCodes := DEFAULT_RETRY_STATUS_CODES;
                  retryDelay := defaultRetryDelay |})
    by (rewrite Hthis; reflexivity).
  split; [exact Hp |].
  apply execute_method_not_retried.
  - rewrite Hp. cbn [retryMethods]. rewrite Hthis. exact Hmethod.
  - rewrite Hp. exact Hn.
Qed.

(** X23.  [timeout(ms)] with a number replaces the timeout options as a
    whole.  With [0] no timer is set, whatever response timeout was set
    before; with another number the timer of each attempt has that
    duration. *)
Theorem timeout_number_sets_timer h s r n :
  this s = timeout (inl n) r ->
  Forall returnsBR (beforeRequest (_hooks h)) ->
  timerCalls (trace (snd (doFetch h s))) =
    timerCalls (trace s)
    ++ (if n =? 0 then []
        else [(true, nextTimer s, n); (false, nextTimer s, 0)]).
Proof.
  intros Hthis Hbr.
  destruct (doFetch_timers h s Hbr) as (-> & _).
  rewrite Hthis. unfold effectiveTimeout, timeout, orElse.
  cbn [_timeout updTimeout t_request t_response truthyNum].
  destruct (n =? 0) eqn:Hn; cbn [negb truthyNum]; rewrite ?Hn; reflexivity.
Qed.

Lemma propGet_absent (table : list (string * string)) t :
  Forall (fun kv => includes "/" (fst kv) = false) table ->
  includes "/" t = true ->
  propGet t table = None.
Proof.
  intros Htable Ht. induction Htable as [|[k v] rest Hk _ IH]; [reflexivity |].
  cbn [propGet]. destruct (String.eqb t k) eqn:Heq; [| exact IH].
  apply String.eqb_eq in Heq. subst k. cbn [fst] in Hk. congruence.
Qed.

Lemma includesStr_absent (names : list string) t :
  Forall (fun k => includes "/" k = false) names ->
  includes "/" t = true ->
  includesStr names t = false.
Proof.
  intros Hnames Ht. induction Hnames as [|k rest Hk _ IH]; [reflexivity |].
  unfold includesStr in *. cbn [existsb]. rewrite IH, orb_false_r.
  destruct (String.eqb t k) eqn:Heq; [| reflexivity].
  apply String.eqb_eq in Heq. subst k. congruence.
Qed.

Lemma shorthand_mime (table : list (string * string)) t :
  Forall (fun kv => includes "/" (fst kv) = false) table ->
  includes "/" t = true ->
  shorthand table t = Some t.
Proof.
  intros Htable Ht. unfold shorthand.
  rewrite (propGet_absent table t Htable Ht).
  rewrite includesStr_absent; [reflexivity | | exact Ht].
  unfold inheritedNames.
  repeat (apply Forall_cons; split; [reflexivity |]). apply Forall_nil_2.
Qed.

(** X24.  A content type that contains a slash is no shorthand:
    [type(t)] is [set('Content-Type', t)] and [accept(t)] is
    [set('Accept', t)]. *)
Theorem type_keeps_full_mime_type r t :
  includes "/" t = true ->
  type_ t r = Some (set "Content-Type" (Some t) r) /\
  accept t r = Some (set "Accept" (Some t) r).
Proof.
  intros Ht. unfold type_, accept.
  rewrite !shorthand_mime; try exact Ht.
  - split; reflexivity.
  - unfold acceptTable.
    repeat (apply Forall_cons; split; [reflexivity |]). apply Forall_nil_2.
  - unfold typeTable.
    repeat (apply Forall_cons; split; [reflexivity |]). apply Forall_nil_2.
Qed.

End Settings.

(** * Further runs on concrete requests *)

Section MoreRuns.

#[local] Existing Instance Demo.host.

Import Demo Demo2.

Lemma execute_attempts_bounded_witness :
  exists k : Z,
    1 <= k <= retryLimit (policyOf (this getRetry2)) + 1 /\
    Z.of_nat (doFetchCalls
                (trace (snd (execute (handlers retryHooks (respondAfter 2 500))
                               getRetry2))))
      = Z.of_nat (doFetchCalls (trace getRetry2)) + k /\
    sleeps (trace (snd (execute (handlers retryHooks (respondAfter 2 500))
                          getRetry2)))
      = sleeps (trace getRetry2)
        ++ (retryDelay (policyOf (this getRetry2)) <$> seqZ 1 (k - 1)).
Proof.
  apply (execute_attempts_bounded (handlers retryHooks (respondAfter 2 500))
           getRetry2).
  cbn. lia.
Defined.

Lemma execute_negative_limit_witness :
  execute (handlers noHooks (respond 200))
    (start (request "GET" (retryUpTo (-1)) noTimeout))
  = (Throw ENull, start (request "GET" (retryUpTo (-1)) noTimeout)).
Proof.
  apply (execute_negative_limit (handlers noHooks (respond 200))
           (start (request "GET" (retryUpTo (-1)) noTimeout))).
  cbn. lia.
Defined.

Lemma execute_without_retry_witness :
  execute (handlers retryHooks (respond 503)) getOnce
  = doFetch (handlers retryHooks (respond 503)) getOnce.
Proof.
  apply (execute_without_retry (handlers retryHooks (respond 503)) getOnce).
  reflexivity.
Defined.

Lemma http_error_status_not_retryable_witness :
  attempts (handlers retryHooks (respond 404)) (policyOf (this getRetry2))
      3 0 ENull getRetry2
    = (Throw (HTTPError (envelope 404)),
       snd (doFetch (handlers retryHooks (respond 404)) getRetry2)) /\
  sleeps (trace (snd (doFetch (handlers retryHooks (respond 404)) getRetry2)))
    = sleeps (trace getRetry2).
Proof.
  destruct (http_error_status_not_retryable
              (handlers retryHooks (respond 404)) (policyOf (this getRetry2))
              2 0 ENull getRetry2 (envelope 404)
              (snd (doFetch (handlers retryHooks (respond 404)) getRetry2)))
    as (Hloop & _ & _ & _ & Hsl).
  - vm_compute. reflexivity.
  - reflexivity.
  - split; [exact Hloop | exact Hsl].
Defined.

Lemma timer_set_and_cleared_witness :
  timerCalls (trace (snd (doFetch (handlers noHooks (respond 200)) getTimeout)))
    = timerCalls (trace getTimeout)
      ++ match effectiveTimeout (this getTimeout) with
         | Some ms => [(true, nextTimer getTimeout, ms);
                       (false, nextTimer getTimeout, 0)]
         | None => []
         end.
Proof.
  apply (timer_set_and_cleared (handlers noHooks (respond 200)) getTimeout).
  constructor.
Defined.

Lemma execute_leaves_no_timer_witness :
  armed (snd (execute (handlers retryHooks (respond 503)) getTimeout))
    ⊆ armed getTimeout.
Proof.
  apply (execute_leaves_no_timer (handlers retryHooks (respond 503)) getTimeout).
  constructor.
Defined.


Lemma http_errors_disabled_witness :
  beforeErrorCalls
    (trace (snd (doFetch (handlers emptyBeforeError (respond 500))
                   (start lenient))))
  = beforeErrorCalls (trace (start lenient)).
Proof.
  apply (http_errors_disabled (handlers emptyBeforeError (respond 500))
           (start lenient)).
  reflexivity.
Defined.


Lemma set_folds_case_witness :
  set "CONTENT-TYPE" (Some "text/html"%string)
    (set "Content-Type" (Some "text/plain"%string) jsonRequest)
  = set "CONTENT-TYPE" (Some "text/html"%string) jsonRequest.
Proof.
  destruct (set_folds_case jsonRequest "Content-Type" "CONTENT-TYPE"
              "text/plain" "text/html") as (_ & _ & Hset & _).
  - reflexivity.
  - discriminate.
  - exact Hset.
Defined.

Lemma send_merges_objects_witness :
  exists merged,
    _body (send (JObj [("email"%string, JStr "j@example.com");
                       ("name"%string, JStr "Jane")]) jsonRequest)
      = JObj merged /\
    NoDup merged.*1 /\
    forall k, propGet k merged =
              match propGet k [("email"%string, JStr "j@example.com");
                               ("name"%string, JStr "Jane")] with
              | Some v => Some v
              | None => propGet k [("name"%string, JStr "John")]
              end.
Proof.
  apply (send_merges_objects jsonRequest [("name"%string, JStr "John")]
           [("email"%string, JStr "j@example.com"); ("name"%string, JStr "Jane")]).
  - reflexivity.
  - apply (bool_decide_unpack _). vm_compute. exact I.
  - apply (bool_decide_unpack _). vm_compute. exact I.
Defined.

Lemma send_then_encode_witness :
  _headers
    (send (JObj [("name"%string, JStr "John")])
       (default (request "POST" (retryUpTo 0) noTimeout)
          (type_ "form" (request "POST" (retryUpTo 0) noTimeout))))
    !! "content-type"%string
  = Some "application/x-www-form-urlencoded"%string.
Proof.
  destruct (send_then_encode (handlers noHooks (respond 200))
              (default (request "POST" (retryUpTo 0) noTimeout)
                 (type_ "form" (request "POST" (retryUpTo 0) noTimeout)))
              (JObj [("name"%string, JStr "John")])) as (Hct & _).
  - reflexivity.
  - reflexivity.
  - reflexivity.
  - exact Hct.
Defined.

Lemma field_makes_multipart_witness :
  exists init,
    fetches (trace (snd (doFetch (handlers noHooks (respond 200))
                           (start (field "email" (Some "a@example.com"%string)
                                     jsonRequest)))))
      = [] ++ [("https://api.example.com/items"%string, init)] /\
    i_body init
      = Some (PFormData
                (map fieldEntry
                   (_formFields (field "email" (Some "a@example.com"%string)
                                   jsonRequest))
                 ++ map attachmentEntry (_attachments jsonRequest))) /\
    i_headers init = delete "content-type"%string (_headers jsonRequest).
Proof.
  destruct (field_makes_multipart (handlers noHooks (respond 200)) jsonRequest
              "email" "a@example.com") as (_ & _ & _ & _ & _ & _ & _ & Hsent).
  - discriminate.
  - apply (Hsent (start (field "email" (Some "a@example.com"%string)
                           jsonRequest))).
    + reflexivity.
    + constructor.
Defined.

Lemma body_encoding_sent_witness :
  exists init,
    fetches (trace (snd (doFetch (handlers noHooks (respond 200))
                           (start uploadRequest))))
      = [] ++ [("https://api.example.com/items"%string, init)] /\
    i_body init
      = Some (PFormData
                [FieldEntry "email" "john@example.com";
                 FileEntry "avatar" (BlobOfString "png-bytes")
                   (Some "photo.jpg"%string)]) /\
    i_headers init = delete "content-type"%string (_headers uploadRequest).
Proof.
  destruct (body_encoding_sent (handlers noHooks (respond 200))
              (start uploadRequest)) as (init & Hf & _ & Hform).
  - constructor.
  - exists init. split; [exact Hf |].
    destruct Hform as (Hbody & Hheaders & _); [left; discriminate |].
    split; [exact Hbody | exact Hheaders].
Defined.

Lemma constructor_keeps_header_case_witness :
  _headers (send (JObj []) (fst (newRequest builtins "post" "/items" casedHeader)))
    !! "Content-Type"%string = Some "text/plain"%string /\
  _headers (send (JObj []) (fst (newRequest builtins "post" "/items" casedHeader)))
    !! "content-type"%string = Some "application/json"%string.
Proof.
  destruct (constructor_keeps_header_case builtins "post" "/items" casedHeader
              {["Content-Type"%string := "text/plain"%string]}
              "Content-Type" "text/plain" (JObj []))
    as (Hname & Hjson & _).
  - reflexivity.
  - reflexivity.
  - reflexivity.
  - discriminate.
  - reflexivity.
  - discriminate.
  - reflexivity.
  - split; [exact Hname | exact Hjson].
Defined.

Lemma query_skips_missing_values_witness :
  query [("page"%string, JNull); ("limit"%string, JUndefined)] jsonRequest
  = jsonRequest.
Proof.
  apply (query_skips_missing_values jsonRequest
           [("page"%string, JNull); ("limit"%string, JUndefined)]).
  apply Forall_cons; split; [left; reflexivity |].
  apply Forall_cons; split; [right; reflexivity |].
  apply Forall_nil_2.
Defined.


Lemma instance_drops_signal_witness :
  o_signal (requestOptions api) = true /\
  _externalSignal (fst (createRequest builtins api "get" "/users")) = false.
Proof.
  split; [reflexivity |].
  apply (instance_drops_signal builtins api "get" "/users"
           (start (fst (createRequest builtins api "get" "/users")))).
  reflexivity.
Defined.


Lemma extend_replaces_headers_witness :
  _headers (fst (createRequest builtins (extend api admin) "get" "/users"))
    = {["x-admin"%string := "true"%string]} /\
  resolveUrl (extend api admin) "users" = resolveUrl api "users".
Proof.
  destruct (extend_replaces_headers builtins api admin "get" "/users")
    as (Hh & _ & Hb).
  split; [apply Hh; reflexivity |].
  destruct Hb as (_ & Hurl); [reflexivity | reflexivity |].
  apply Hurl.
Defined.

Lemma retry_count_forgets_options_witness :
  execute (handlers retryHooks (respond 503)) (start (retry (inl 3) postAllowed))
  = doFetch (handlers retryHooks (respond 503)) (start (retry (inl 3) postAllowed)).
Proof.
  apply (retry_count_forgets_options (handlers retryHooks (respond 503))
           (start (retry (inl 3) postAllowed)) postAllowed 3).
  - reflexivity.
  - lia.
  - reflexivity.
Defined.

Lemma timeout_number_sets_timer_witness :
  timerCalls
    (trace (snd (doFetch (handlers noHooks (respond 200))
                   (start (timeout (inl 0) slowResponse)))))
  = timerCalls (trace (start (timeout (inl 0) slowResponse)))
    ++ (if 0 =? 0 then []
        else [(true, nextTimer (start (timeout (inl 0) slowResponse)), 0);
              (false, nextTimer (start (timeout (inl 0) slowResponse)), 0)]).
Proof.
  apply (timeout_number_sets_timer (handlers noHooks (respond 200))
           (start (timeout (inl 0) slowResponse)) slowResponse 0).
  - reflexivity.
  - constructor.
Defined.

Lemma type_keeps_full_mime_type_witness :
  type_ "text/csv" jsonRequest
  = Some (set "Content-Type" (Some "text/csv"%string) jsonRequest).
Proof.
  apply (type_keeps_full_mime_type jsonRequest "text/csv").
  reflexivity.
Defined.

End MoreRuns.
